(** * VB_v2: value-bet core (team normalizer, event matcher, odds engine)

    A shallow embedding of [src/analysis/value_analyzer.py],
    [src/matching/event_matcher.py], [src/matching/team_normalizer.py],
    [src/utils/datetime_utils.py], [src/core/models.py] and [src/mm/date.py].

    Numbers.  Python floats are read in three ways.
    - In the embedding of the code ([ValueAnalyzer], [Pipeline], [Models])
      they are real numbers ([R]): a statement over these definitions is a
      statement in exact arithmetic.
    - [FloatArith] has the odds engine over binary64 by its error bounds:
      the operations are those of a [float_ops], any arithmetic that rounds
      within the IEEE 754 bounds and whose [**] raises [OverflowError] on
      overflow and returns 0.0 on underflow.  A statement over every
      [float_ops] is a statement about the code on binary64 floats.
    - [Binary64] computes single binary64 operations bit for bit (Stdlib's
      [SpecFloat]), for statements at concrete values.
    Infinities and NaN are outside all three.  Kickoff instants are integers
    (microseconds), and durations and similarity ratios are rationals ([Q]),
    so the matcher computes.

    Exceptions.  Code that can raise returns a [result]; [try/except] is
    [try_except].

    Strings.  Mapping keys, league keys and kickoff strings are only compared
    or parsed: they are Stdlib strings.  Team names, which the normalizer
    rewrites character by character, are lists of Unicode code points. *)

From Stdlib Require Import List String Ascii Bool Arith ZArith NArith QArith Qabs Lia.
From Stdlib Require Import Reals Psatz Permutation Sorted.
From Stdlib Require Import SpecFloat.
Import ListNotations.

(* ===================================================================== *)
(** * The Python runtime the code relies on *)
(* ===================================================================== *)

Module Py.

(** The exception classes that occur in the embedded code. *)
Inductive exn : Type :=
| KeyError
| ZeroDivisionError
| ValueError
| TypeError
| OverflowError.

Inductive result (A : Type) : Type :=
| Ok (a : A)
| Raise (e : exn).
Arguments Ok {A} a.
Arguments Raise {A} e.

Definition bind {A B} (c : result A) (k : A -> result B) : result B :=
  match c with
  | Ok a => k a
  | Raise e => Raise e
  end.

(** [try: body  except (e1, e2, ...): handler]. *)
Definition try_except {A} (body : result A) (handles : exn -> bool)
    (handler : result A) : result A :=
  match body with
  | Ok a => Ok a
  | Raise e => if handles e then handler else Raise e
  end.

(** A number at run time: a float, or the complex number that [**] returns
    for a negative base and a fractional exponent. *)
Inductive num : Type :=
| Fl (r : R)
| Cx (re im : R).

(** A value stored in a market mapping: a number, or [None] (which
    [dict.get] returns for a missing key). *)
Inductive pyval : Type :=
| VFloat (r : R)
| VNone.

Definition to_complex (a : num) : R * R :=
  match a with
  | Fl r => (r, 0%R)
  | Cx re im => (re, im)
  end.

Definition num_add (a b : num) : num :=
  match a, b with
  | Fl x, Fl y => Fl (x + y)
  | _, _ =>
      let (ar, ai) := to_complex a in
      let (br, bi) := to_complex b in
      Cx (ar + br) (ai + bi)
  end.

Definition num_sub (a b : num) : num :=
  match a, b with
  | Fl x, Fl y => Fl (x - y)
  | _, _ =>
      let (ar, ai) := to_complex a in
      let (br, bi) := to_complex b in
      Cx (ar - br) (ai - bi)
  end.

(** [a / b]: float division, or complex division when either side is
    complex; a zero divisor raises [ZeroDivisionError]. *)
Definition num_div (a b : num) : result num :=
  match a, b with
  | Fl x, Fl y =>
      if Req_dec_T y 0 then Raise ZeroDivisionError else Ok (Fl (x / y))
  | _, _ =>
      let (ar, ai) := to_complex a in
      let (br, bi) := to_complex b in
      if Req_dec_T br 0 then
        if Req_dec_T bi 0 then Raise ZeroDivisionError
        else Ok (Cx ((ar * br + ai * bi) / (br * br + bi * bi))
                    ((ai * br - ar * bi) / (br * br + bi * bi)))
      else Ok (Cx ((ar * br + ai * bi) / (br * br + bi * bi))
                  ((ai * br - ar * bi) / (br * br + bi * bi)))
  end.

(** [abs(a)]. *)
Definition num_abs (a : num) : R :=
  match a with
  | Fl x => Rabs x
  | Cx re im => sqrt (re * re + im * im)
  end.

(** [Some z] when the float [y] is the integer [z]. *)
Definition as_integer (y : R) : option Z :=
  let z := Int_part y in
  if Req_dec_T (IZR z) y then Some z else None.

(** [x ** y] on floats (CPython's [float_pow]) in exact arithmetic: [x ** 0]
    is 1; [0 ** y] raises for negative [y]; a negative base with a
    fractional exponent gives the principal complex power; a negative base
    with an integer exponent gives [pow(-x, y)], negated when [y] is odd.
    The exact power neither overflows nor underflows: the binary64 [**],
    which does both, is [FloatArith.fpow]. *)
Definition float_pow (x y : R) : result num :=
  if Req_dec_T y 0 then Ok (Fl 1)
  else if Req_dec_T x 0 then
    if Rlt_dec y 0 then Raise ZeroDivisionError else Ok (Fl 0)
  else if Rlt_dec x 0 then
    match as_integer y with
    | None =>
        Ok (Cx (Rpower (- x) y * cos (PI * y)) (Rpower (- x) y * sin (PI * y)))
    | Some z =>
        Ok (Fl (if Z.odd z then - Rpower (- x) y else Rpower (- x) y))
    end
  else Ok (Fl (Rpower x y)).

(** [sum(xs)] over floats and over numbers (the start value is 0). *)
Definition sum_floats (xs : list R) : R := fold_left Rplus xs 0%R.
Definition sum_nums (xs : list num) : num := fold_left num_add xs (Fl 0).

(** ** Dictionaries with string keys

    A [dict] keeps its keys in insertion order, which the code observes
    ([keys[0]], the order of the emitted bets), so it is an association
    list; assigning to a present key keeps the key's position. *)
Definition dict (V : Type) : Type := list (string * V).

Fixpoint dget {V} (d : dict V) (k : string) : option V :=
  match d with
  | [] => None
  | (k', v) :: rest => if String.eqb k' k then Some v else dget rest k
  end.

Definition dmem {V} (d : dict V) (k : string) : bool :=
  match dget d k with Some _ => true | None => false end.

Fixpoint dset {V} (d : dict V) (k : string) (v : V) : dict V :=
  match d with
  | [] => [(k, v)]
  | (k', v') :: rest =>
      if String.eqb k' k then (k', v) :: rest else (k', v') :: dset rest k v
  end.

Definition dkeys {V} (d : dict V) : list string := map fst d.
Definition dvalues {V} (d : dict V) : list V := map snd d.

(** [d[k]]. *)
Definition getitem {V} (d : dict V) (k : string) : result V :=
  match dget d k with
  | Some v => Ok v
  | None => Raise KeyError
  end.

(** A dictionary as a Python program can build it: no key twice. *)
Definition wf_dict {V} (d : dict V) : Prop := NoDup (dkeys d).

(** [x in keys] and [keys.remove(x)] on a list of strings. *)
Definition list_mem (x : string) (l : list string) : bool :=
  existsb (String.eqb x) l.

Fixpoint list_remove (x : string) (l : list string) : list string :=
  match l with
  | [] => []
  | y :: rest => if String.eqb y x then rest else y :: list_remove x rest
  end.

(** The loop [for x in xs: acc[key x] = f x], which is also the dictionary
    comprehension [{key x: f x for x in xs}] when [acc] starts empty. *)
Fixpoint dict_build {A V} (key : A -> string) (f : A -> result V)
    (xs : list A) (acc : dict V) : result (dict V) :=
  match xs with
  | [] => Ok acc
  | x :: rest =>
      bind (f x) (fun v => dict_build key f rest (dset acc (key x) v))
  end.

End Py.

Import Py.

Declare Scope py_scope.
Notation "x <- c1 ;; c2" := (bind c1 (fun x => c2))
  (at level 61, c1 at next level, right associativity) : py_scope.
Open Scope py_scope.
Open Scope string_scope.
Open Scope list_scope.

(* ===================================================================== *)
(** * config/settings.py *)
(* ===================================================================== *)

Module Settings.

Definition MATCH_TIME_TOLERANCE_MINUTES : Z := 12.
Definition TEAM_SIMILARITY_THRESHOLD : Q := 85 # 100.
Definition MINIMUM_EDGE_THRESHOLD : R := 25 / 1000.
Definition KELLY_FRACTION : R := 25 / 100.
Definition MAX_STAKE_PERCENTAGE : R := 5 / 100.

End Settings.

(* ===================================================================== *)
(** * analysis/value_analyzer.py: the odds engine *)
(* ===================================================================== *)

Module ValueAnalyzer.

Import Settings.
Local Open Scope R_scope.

(** [1.0 / v] for a value of a market mapping. *)
Definition inverse_odds (v : pyval) : result R :=
  match v with
  | VNone => Raise TypeError
  | VFloat o => if Req_dec_T o 0 then Raise ZeroDivisionError else Ok (1 / o)
  end.

(** [x / y] on floats. *)
Definition float_div (x y : R) : result R :=
  if Req_dec_T y 0 then Raise ZeroDivisionError else Ok (x / y).

(** The outcome keys: [list(odds.keys())] without ["margin"] and ["line"]. *)
Definition outcome_keys (odds : dict pyval) : list string :=
  let keys := dkeys odds in
  let keys := if list_mem "margin" keys then list_remove "margin" keys else keys in
  if list_mem "line" keys then list_remove "line" keys else keys.

(** The body of the [try] block of [remove_vig_multiplicative].  On the
    branch with two or more keys [exponent = (n - 1) / n] is not zero, so
    [1 / exponent] cannot raise and is written as a real quotient. *)
Definition remove_vig_body (odds : dict pyval) : result (option (dict num)) :=
  let keys := outcome_keys odds in
  implied_probs <-
    dict_build (fun k => k) (fun k => v <- getitem odds k ;; inverse_odds v) keys [] ;;
  let total := sum_floats (dvalues implied_probs) in
  let n := List.length keys in
  match keys with
  | [] => Ok None
  | [k] => Ok (Some [(k, Fl 1)])
  | _ =>
      let exponent := (INR n - 1) / INR n in
      adjusted <-
        dict_build (fun k => k)
          (fun k =>
             prob <- getitem implied_probs k ;;
             a <- float_pow prob (1 / exponent) ;;
             b <- float_pow total (1 / exponent) ;;
             num_div a b)
          keys [] ;;
      let adj_total := sum_nums (dvalues adjusted) in
      normalized <-
        dict_build fst (fun kv => num_div (snd kv) adj_total) adjusted [] ;;
      Ok (Some normalized)
  end.

Definition vig_handled (e : exn) : bool :=
  match e with
  | KeyError | ZeroDivisionError | ValueError => true
  | TypeError | OverflowError => false
  end.

Definition remove_vig_multiplicative (odds : dict pyval)
  : result (option (dict num)) :=
  try_except (remove_vig_body odds) vig_handled (Ok None).

Definition calculate_edge (true_prob offered_odds : R) : R :=
  true_prob * offered_odds - 1.

(** The probability [kelly_stake] backs out of an edge, [p = (1 + edge) / odds],
    in exact arithmetic; the same line on binary64 is
    [FloatArith.kelly_probability_fl] and, computed,
    [Binary64.kelly_probability_b64]. *)
Definition kelly_probability (edge odds : R) : result R :=
  float_div (1 + edge) odds.

Definition kelly_stake (edge odds bankroll kelly_fraction : R) : result R :=
  if Rle_dec edge 0 then Ok 0
  else if Rle_dec odds 1 then Ok 0
  else
    p <- kelly_probability edge odds ;;
    let q := 1 - p in
    let b := odds - 1 in
    kelly <- float_div (b * p - q) b ;;
    let fractional_kelly := Rmax 0 (kelly * kelly_fraction) in
    Ok (Rmin (fractional_kelly * bankroll) (bankroll * MAX_STAKE_PERCENTAGE)).

(** Truth value of an optional dictionary: [None] and [{}] are false. *)
Definition truthy {V} (d : option (dict V)) : bool :=
  match d with
  | Some (_ :: _) => true
  | _ => false
  end.

(** [d.get(k, 0)] and [d.get(k)]. *)
Definition get_or_zero (d : dict num) (k : string) : num :=
  match dget d k with Some v => v | None => Fl 0 end.

Definition get_or_none (d : dict pyval) (k : string) : pyval :=
  match dget d k with Some v => v | None => VNone end.

(** [sum(abs(probs.get(k, 0) - anchor_probs.get(k, 0)) for k in anchor_probs.keys())]. *)
Definition divergence (probs anchor_probs : dict num) : R :=
  sum_floats
    (map (fun k => num_abs (num_sub (get_or_zero probs k) (get_or_zero anchor_probs k)))
         (dkeys anchor_probs)).

Definition swapped_odds (soft_odds : dict pyval) : dict pyval :=
  [ ("home", get_or_none soft_odds "away");
    ("draw", get_or_none soft_odds "draw");
    ("away", get_or_none soft_odds "home") ].

Definition or_empty (d : option (dict num)) : dict num :=
  match d with
  | Some (x :: rest) => x :: rest
  | _ => []
  end.

Definition check_home_away_swap (soft_odds anchor_odds : dict pyval)
  : result (dict num) :=
  normal_probs <- remove_vig_multiplicative soft_odds ;;
  anchor_probs <- remove_vig_multiplicative anchor_odds ;;
  if negb (truthy normal_probs) || negb (truthy anchor_probs) then
    Ok (or_empty normal_probs)
  else
    let normal := or_empty normal_probs in
    let anchor := or_empty anchor_probs in
    let normal_div := divergence normal anchor in
    if dmem soft_odds "home" && dmem soft_odds "away" then
      swapped_probs <- remove_vig_multiplicative (swapped_odds soft_odds) ;;
      if truthy swapped_probs then
        let swapped := or_empty swapped_probs in
        let swapped_div := divergence swapped anchor in
        if Rlt_dec (swapped_div + 5 / 100) normal_div then Ok swapped
        else Ok normal
      else Ok normal
    else Ok normal.

End ValueAnalyzer.

(* ===================================================================== *)
(** * Binary64 arithmetic, computed *)
(* ===================================================================== *)

(** The four operations of IEEE 754 binary64 with rounding to nearest even,
    as the Standard Library's [SpecFloat] defines them, and the lines of
    [calculate_edge] and [kelly_stake] that use nothing else, for running
    them on concrete floats. *)
Module Binary64.

Definition float : Type := spec_float.

Definition of_int (z : Z) : float := binary_normalize 53 1024 z 0 false.

Definition add : float -> float -> float := SFadd 53 1024.
Definition sub : float -> float -> float := SFsub 53 1024.
Definition mul : float -> float -> float := SFmul 53 1024.
Definition div : float -> float -> float := SFdiv 53 1024.

Definition is_zero (x : float) : bool :=
  match x with
  | S754_zero _ => true
  | _ => false
  end.

(** The decimal literal [n / 10^k] as Python reads it: the float nearest to
    the rational, which the correctly rounded quotient of the two integers
    is (both are below 2^53). *)
Definition decimal (n : Z) (k : nat) : float :=
  div (of_int n) (of_int (10 ^ Z.of_nat k)).

(** [calculate_edge]: [(true_prob * offered_odds) - 1.0]. *)
Definition calculate_edge_b64 (true_prob offered_odds : float) : float :=
  sub (mul true_prob offered_odds) (of_int 1).

(** [p = (1 + edge) / odds] of [kelly_stake]. *)
Definition kelly_probability_b64 (edge odds : float) : result float :=
  if is_zero odds then Raise ZeroDivisionError
  else Ok (div (add (of_int 1) edge) odds).

End Binary64.

(* ===================================================================== *)
(** * Binary64 arithmetic, by its error bounds *)
(* ===================================================================== *)

(** What the code can rely on when its numbers are binary64 floats, stated
    on the real values of the floats:
    - [+], [-], [*], [/] are correctly rounded (IEEE 754, round to nearest):
      the result is within a relative error of [eps] of the exact one while
      that lies in the normal range, and within [eta] of it below;
    - [**] is the C library's [pow], taken to be accurate to one unit in
      the last place in the normal range; CPython raises [OverflowError]
      when the result overflows and lets an underflow pass as 0.0;
    - [sum()] adds floats with the usual bound of recursive summation
      (or better, since Python 3.12).
    Nothing is said of complex arithmetic.  The operations are parameters:
    a theorem about the code over [float_ops] holds for every arithmetic
    with these bounds. *)
Module FloatArith.

Import ValueAnalyzer.
Local Open Scope R_scope.

(** [2^k] for an integer [k]. *)
Definition pw (k : Z) : R := Rpower 2 (IZR k).

Definition eps : R := pw (-52).
Definition eta : R := pw (-1074).
Definition tiny : R := pw (-1022).
Definition huge : R := pw 1023.
Definition vanishing : R := pw (-1080).
Definition overflowing : R := pw 1024.

(** [x] lies between [2^a] and [2^b]. *)
Definition rng (a b : Z) (x : R) : Prop := pw a <= x <= pw b.

Record float_ops : Type := {
  fadd : R -> R -> R;
  fsub : R -> R -> R;
  fmul : R -> R -> R;
  fdiv : R -> R -> R;
  fpow : R -> R -> result num;
  fsum : list R -> R;
  fsum_nums : list num -> num;
  fdiv_complex : R * R -> R * R -> R * R;
  fadd_close : forall x y,
    Rabs (x + y) <= huge ->
    Rabs (fadd x y - (x + y)) <= eps * Rabs (x + y);
  fsub_close : forall x y,
    Rabs (x - y) <= huge ->
    Rabs (fsub x y - (x - y)) <= eps * Rabs (x - y);
  fmul_close : forall x y,
    tiny <= Rabs (x * y) <= huge ->
    Rabs (fmul x y - x * y) <= eps * Rabs (x * y);
  fmul_small : forall x y,
    Rabs (x * y) <= tiny -> Rabs (fmul x y - x * y) <= eta;
  fdiv_close : forall x y,
    y <> 0 -> tiny <= Rabs (x / y) <= huge ->
    Rabs (fdiv x y - x / y) <= eps * Rabs (x / y);
  fdiv_small : forall x y,
    y <> 0 -> Rabs (x / y) <= tiny -> Rabs (fdiv x y - x / y) <= eta;
  fpow_close : forall x y,
    0 < x -> tiny <= Rpower x y <= huge ->
    exists r, fpow x y = Ok (Fl r) /\
              Rabs (r - Rpower x y) <= eps * Rpower x y;
  fpow_underflow : forall x y,
    0 < x -> Rpower x y <= vanishing -> fpow x y = Ok (Fl 0);
  fpow_overflow : forall x y,
    0 < x -> overflowing <= Rpower x y -> fpow x y = Raise OverflowError;
  fsum_close : forall xs,
    (forall x, In x xs -> 0 <= x) ->
    sum_floats xs <= huge -> INR (List.length xs) <= pw 32 ->
    Rabs (fsum xs - sum_floats xs)
    <= INR (List.length xs) * eps * sum_floats xs;
  fsum_nums_floats : forall xs, fsum_nums (map Fl xs) = Fl (fsum xs)
}.

(** ** The code over a binary64 arithmetic *)

Section Code.

Variable fa : float_ops.

(** [x / y] on floats and on numbers. *)
Definition float_div_fl (x y : R) : result R :=
  if Req_dec_T y 0 then Raise ZeroDivisionError else Ok (fdiv fa x y).

Definition num_div_fl (a b : num) : result num :=
  match a, b with
  | Fl x, Fl y =>
      if Req_dec_T y 0 then Raise ZeroDivisionError else Ok (Fl (fdiv fa x y))
  | _, _ =>
      let (br, bi) := to_complex b in
      if Req_dec_T br 0 then
        if Req_dec_T bi 0 then Raise ZeroDivisionError
        else let (re, im) := fdiv_complex fa (to_complex a) (to_complex b) in
             Ok (Cx re im)
      else let (re, im) := fdiv_complex fa (to_complex a) (to_complex b) in
           Ok (Cx re im)
  end.

(** [1.0 / v] for a value of a market mapping. *)
Definition inverse_odds_fl (v : pyval) : result R :=
  match v with
  | VNone => Raise TypeError
  | VFloat o => float_div_fl 1 o
  end.

(** The body of the [try] block of [remove_vig_multiplicative]: the code of
    [remove_vig_body] with every operation on floats taken from [fa];
    [(n - 1) / n] divides two integers, and [1 / exponent] is computed anew
    for each power. *)
Definition remove_vig_body_fl (odds : dict pyval) : result (option (dict num)) :=
  let keys := outcome_keys odds in
  implied_probs <-
    dict_build (fun k => k) (fun k => v <- getitem odds k ;; inverse_odds_fl v)
      keys [] ;;
  let total := fsum fa (dvalues implied_probs) in
  let n := List.length keys in
  match keys with
  | [] => Ok None
  | [k] => Ok (Some [(k, Fl 1)])
  | _ =>
      exponent <- float_div_fl (INR n - 1) (INR n) ;;
      adjusted <-
        dict_build (fun k => k)
          (fun k =>
             prob <- getitem implied_probs k ;;
             e1 <- float_div_fl 1 exponent ;;
             a <- fpow fa prob e1 ;;
             e2 <- float_div_fl 1 exponent ;;
             b <- fpow fa total e2 ;;
             num_div_fl a b)
          keys [] ;;
      let adj_total := fsum_nums fa (dvalues adjusted) in
      normalized <-
        dict_build fst (fun kv => num_div_fl (snd kv) adj_total) adjusted [] ;;
      Ok (Some normalized)
  end.

Definition remove_vig_multiplicative_fl (odds : dict pyval)
  : result (option (dict num)) :=
  try_except (remove_vig_body_fl odds) vig_handled (Ok None).

(** [calculate_edge] and the probability [kelly_stake] backs out of an
    edge. *)
Definition calculate_edge_fl (true_prob offered_odds : R) : R :=
  fsub fa (fmul fa true_prob offered_odds) 1.

Definition kelly_probability_fl (edge odds : R) : result R :=
  float_div_fl (fadd fa 1 edge) odds.

End Code.

(** ** An arithmetic with these bounds

    The exact operations, with [**] raising [OverflowError] from
    [overflowing] on and returning 0 up to [vanishing], meet every bound of
    [float_ops]: the statements over [float_ops] are instantiated with
    [exact_in_range]. *)

Definition ranged_pow (x y : R) : result num :=
  if Rlt_dec 0 x then
    if Rle_dec overflowing (Rpower x y) then Raise OverflowError
    else if Rle_dec (Rpower x y) vanishing then Ok (Fl 0)
    else Ok (Fl (Rpower x y))
  else float_pow x y.

Definition exact_complex_div (a b : R * R) : R * R :=
  let (ar, ai) := a in
  let (br, bi) := b in
  ((ar * br + ai * bi) / (br * br + bi * bi),
   (ai * br - ar * bi) / (br * br + bi * bi)).

Definition exact_in_range : float_ops.
Proof.
  assert (Hpw : forall k, 0 < pw k)
    by (intros k; unfold pw, Rpower; apply exp_pos).
  assert (Hlt : forall a b, (a < b)%Z -> pw a < pw b).
  { intros a b H. unfold pw. apply Rpower_lt; [lra|]. now apply IZR_lt. }
  assert (Hsame : forall q c, 0 <= c -> Rabs (q - q) <= c).
  { intros q c Hc. replace (q - q) with 0 by lra. now rewrite Rabs_R0. }
  assert (Heps : forall q, Rabs (q - q) <= eps * Rabs q).
  { intros q. apply Hsame.
    apply Rmult_le_pos; [left; apply Hpw|apply Rabs_pos]. }
  assert (Heta : forall q, Rabs (q - q) <= eta)
    by (intros q; apply Hsame; left; apply Hpw).
  assert (Hfrom : forall xs a, fold_left Rplus xs a = a + sum_floats xs).
  { unfold sum_floats. induction xs as [|x xs IH]; intros a; cbn [fold_left].
    - lra.
    - rewrite (IH (a + x)), (IH (0 + x)). lra. }
  assert (Hnonneg : forall xs,
            (forall x, In x xs -> 0 <= x) -> 0 <= sum_floats xs).
  { induction xs as [|x xs IH]; intros H.
    - unfold sum_floats. cbn. lra.
    - unfold sum_floats. cbn [fold_left]. rewrite Hfrom.
      assert (0 <= x) by (apply H; now left).
      assert (0 <= sum_floats xs)
        by (apply IH; intros y Hy; apply H; now right).
      lra. }
  refine {| fadd := Rplus; fsub := Rminus; fmul := Rmult; fdiv := Rdiv;
            fpow := ranged_pow; fsum := sum_floats; fsum_nums := sum_nums;
            fdiv_complex := exact_complex_div |}.
  - intros x y _. apply Heps.
  - intros x y _. apply Heps.
  - intros x y _. apply Heps.
  - intros x y _. apply Heta.
  - intros x y _ _. apply Heps.
  - intros x y _ _. apply Heta.
  - intros x y Hx [Hlo Hhi]. exists (Rpower x y). split.
    + unfold ranged_pow. destruct (Rlt_dec 0 x); [|contradiction].
      assert (H1 : huge < overflowing) by (apply Hlt; lia).
      assert (H2 : vanishing < tiny) by (apply Hlt; lia).
      destruct (Rle_dec overflowing (Rpower x y)); [lra|].
      destruct (Rle_dec (Rpower x y) vanishing); [lra|reflexivity].
    + apply Hsame. apply Rmult_le_pos; [left; apply Hpw|].
      left. unfold Rpower. apply exp_pos.
  - intros x y Hx H. unfold ranged_pow.
    destruct (Rlt_dec 0 x); [|contradiction].
    assert (H1 : vanishing < overflowing) by (apply Hlt; lia).
    destruct (Rle_dec overflowing (Rpower x y)); [lra|].
    destruct (Rle_dec (Rpower x y) vanishing); [reflexivity|contradiction].
  - intros x y Hx H. unfold ranged_pow.
    destruct (Rlt_dec 0 x); [|contradiction].
    destruct (Rle_dec overflowing (Rpower x y)); [reflexivity|contradiction].
  - intros xs Hpos _ _. apply Hsame.
    apply Rmult_le_pos; [|now apply Hnonneg].
    apply Rmult_le_pos; [apply pos_INR|left; apply Hpw].
  - intros xs. unfold sum_nums, sum_floats. generalize 0.
    induction xs as [|x xs IH]; intros a; cbn [map fold_left num_add];
      [reflexivity|]. apply IH.
Defined.

End FloatArith.

(* ===================================================================== *)
(** * Library functions outside the repository *)
(* ===================================================================== *)

Module Lib.

(** A Python [str] seen character by character: its Unicode code points. *)
Definition pystr : Type := list N.

(** A string literal of the source as code points (one per byte; every
    literal converted this way is ASCII). *)
Definition u (s : string) : pystr := map N_of_ascii (list_ascii_of_string s).

Fixpoint pystr_eqb (a b : pystr) : bool :=
  match a, b with
  | [], [] => true
  | x :: a', y :: b' => N.eqb x y && pystr_eqb a' b'
  | _, _ => false
  end.

(** What the embedded code takes from Python's standard library and the
    model does not compute itself:
    - [unicode_lower], [unicode_nfd]: [str.lower] and
      [unicodedata.normalize("NFD", .)] on a string with a non-ASCII
      character;
    - [unicode_is_Mn]: whether a non-ASCII character has category "Mn";
    - [fromisoformat_other]: [datetime.fromisoformat] on a string that is
      not of the form YYYY-MM-DDTHH:MM:SS, as the microseconds of the parsed
      wall-clock fields since 0001-01-01T00:00:00, and [None] when it raises;
    - [sequence_ratio]: [difflib.SequenceMatcher(None, a, b).ratio()], which
      is [2 * matches / (len a + len b)], a rational in [0, 1]. *)
Record Library : Type := {
  unicode_lower : pystr -> pystr;
  unicode_nfd : pystr -> pystr;
  unicode_is_Mn : N -> bool;
  fromisoformat_other : string -> option Z;
  sequence_ratio : pystr -> pystr -> Q;
  sequence_ratio_range : forall a b, (0 <= sequence_ratio a b <= 1)%Q
}.

Definition is_ascii (c : N) : bool := (c <? 128)%N.

Definition in_range (lo hi c : N) : bool := ((lo <=? c) && (c <=? hi))%N.

(** [str.lower()]: on an ASCII string, A-Z become a-z. *)
Definition ascii_lower (c : N) : N :=
  if in_range 65 90 c then (c + 32)%N else c.

Definition str_lower (lib : Library) (s : pystr) : pystr :=
  if forallb is_ascii s then map ascii_lower s else unicode_lower lib s.

(** Unicode whitespace ([str.isspace], [\s] of [re] on [str]). *)
Definition is_space (c : N) : bool :=
  in_range 9 13 c || in_range 28 32 c || N.eqb c 133 || N.eqb c 160
  || N.eqb c 5760 || in_range 8192 8202 c || N.eqb c 8232 || N.eqb c 8233
  || N.eqb c 8239 || N.eqb c 8287 || N.eqb c 12288.

Fixpoint lstrip (s : pystr) : pystr :=
  match s with
  | [] => []
  | c :: rest => if is_space c then lstrip rest else s
  end.

Definition rstrip (s : pystr) : pystr := rev (lstrip (rev s)).

(** [str.strip()]. *)
Definition strip (s : pystr) : pystr := rstrip (lstrip s).

(** [unicodedata.normalize("NFD", text)] and [unicodedata.category(c) == "Mn"]:
    an ASCII string is its own decomposition, and no ASCII character is a
    combining mark. *)
Definition nfd (lib : Library) (s : pystr) : pystr :=
  if forallb is_ascii s then s else unicode_nfd lib s.

Definition is_Mn (lib : Library) (c : N) : bool :=
  if is_ascii c then false else unicode_is_Mn lib c.

End Lib.

Import Lib.

(* ===================================================================== *)
(** * matching/team_normalizer.py *)
(* ===================================================================== *)

Module TeamNormalizer.

Definition strip_accents (lib : Library) (text : pystr) : pystr :=
  filter (fun c => negb (is_Mn lib c)) (nfd lib text).

Definition TEAM_ALIASES : list (string * string) :=
  [
    ("ajax", "ajax"); ("afc ajax", "ajax"); ("ajax amsterdam", "ajax"); ("psv", "psv");
    ("psv eindhoven", "psv"); ("feyenoord", "feyenoord");
    ("feyenoord rotterdam", "feyenoord"); ("az", "az"); ("az alkmaar", "az");
    ("fc twente", "fc twente"); ("twente", "fc twente");
    ("twente enschede", "fc twente"); ("fc utrecht", "fc utrecht");
    ("utrecht", "fc utrecht"); ("sc heerenveen", "sc heerenveen");
    ("heerenveen", "sc heerenveen"); ("nac breda", "nac breda"); ("nac", "nac breda");
    ("rkc waalwijk", "rkc waalwijk"); ("rkc", "rkc waalwijk");
    ("pec zwolle", "pec zwolle"); ("zwolle", "pec zwolle");
    ("go ahead eagles", "go ahead eagles"); ("ga eagles", "go ahead eagles");
    ("fortuna sittard", "fortuna sittard"); ("fortuna", "fortuna sittard");
    ("sparta rotterdam", "sparta rotterdam"); ("sparta", "sparta rotterdam");
    ("heracles almelo", "heracles almelo"); ("heracles", "heracles almelo");
    ("willem ii", "willem ii"); ("willem ii tilburg", "willem ii");
    ("nec nijmegen", "nec nijmegen"); ("nec", "nec nijmegen");
    ("n e c nijmegen", "nec nijmegen"); ("fc groningen", "fc groningen");
    ("groningen", "fc groningen"); ("almere city", "almere city");
    ("almere city fc", "almere city"); ("excelsior", "excelsior");
    ("excelsior rotterdam", "excelsior"); ("sbv excelsior", "excelsior");
    ("fc eindhoven", "fc eindhoven"); ("eindhoven", "fc eindhoven");
    ("fc den bosch", "fc den bosch"); ("den bosch", "fc den bosch");
    ("fc dordrecht", "fc dordrecht"); ("dordrecht", "fc dordrecht");
    ("fc emmen", "fc emmen"); ("emmen", "fc emmen"); ("fc volendam", "fc volendam");
    ("volendam", "fc volendam"); ("de graafschap", "de graafschap");
    ("graafschap", "de graafschap"); ("sc cambuur", "sc cambuur");
    ("cambuur", "sc cambuur"); ("cambuur leeuwarden", "sc cambuur");
    ("mvv maastricht", "mvv maastricht"); ("mvv", "mvv maastricht");
    ("ado den haag", "ado den haag"); ("ado", "ado den haag");
    ("helmond sport", "helmond sport"); ("helmond", "helmond sport");
    ("telstar", "telstar"); ("sc telstar", "telstar"); ("top oss", "top oss");
    ("oss", "top oss"); ("vvv venlo", "vvv venlo"); ("vvv-venlo", "vvv venlo");
    ("venlo", "vvv venlo"); ("roda jc", "roda jc"); ("roda jc kerkrade", "roda jc");
    ("roda", "roda jc"); ("jong ajax", "jong ajax"); ("ajax ii", "jong ajax");
    ("jong psv", "jong psv"); ("psv ii", "jong psv"); ("jong az", "jong az");
    ("az ii", "jong az"); ("jong fc utrecht", "jong fc utrecht");
    ("fc utrecht ii", "jong fc utrecht"); ("manchester united", "manchester united");
    ("man united", "manchester united"); ("man utd", "manchester united");
    ("manchester city", "manchester city"); ("man city", "manchester city");
    ("liverpool", "liverpool"); ("liverpool fc", "liverpool"); ("chelsea", "chelsea");
    ("chelsea fc", "chelsea"); ("arsenal", "arsenal"); ("arsenal fc", "arsenal");
    ("tottenham", "tottenham"); ("tottenham hotspur", "tottenham");
    ("spurs", "tottenham"); ("newcastle", "newcastle");
    ("newcastle united", "newcastle"); ("aston villa", "aston villa");
    ("villa", "aston villa"); ("brighton", "brighton");
    ("brighton & hove albion", "brighton"); ("brighton and hove albion", "brighton");
    ("west ham", "west ham"); ("west ham united", "west ham"); ("everton", "everton");
    ("everton fc", "everton"); ("crystal palace", "crystal palace");
    ("palace", "crystal palace"); ("fulham", "fulham"); ("fulham fc", "fulham");
    ("brentford", "brentford"); ("brentford fc", "brentford");
    ("nottingham forest", "nottingham forest"); ("notts forest", "nottingham forest");
    ("forest", "nottingham forest"); ("wolverhampton", "wolverhampton");
    ("wolves", "wolverhampton"); ("wolverhampton wanderers", "wolverhampton");
    ("bournemouth", "bournemouth"); ("afc bournemouth", "bournemouth");
    ("leicester", "leicester"); ("leicester city", "leicester");
    ("southampton", "southampton"); ("southampton fc", "southampton");
    ("leeds", "leeds"); ("leeds united", "leeds"); ("ipswich", "ipswich");
    ("ipswich town", "ipswich"); ("bayern munich", "bayern munich");
    ("bayern", "bayern munich"); ("fc bayern munchen", "bayern munich");
    ("borussia dortmund", "borussia dortmund"); ("dortmund", "borussia dortmund");
    ("bvb", "borussia dortmund"); ("rb leipzig", "rb leipzig");
    ("leipzig", "rb leipzig"); ("bayer leverkusen", "bayer leverkusen");
    ("leverkusen", "bayer leverkusen"); ("union berlin", "union berlin");
    ("fc union berlin", "union berlin"); ("freiburg", "freiburg");
    ("sc freiburg", "freiburg"); ("eintracht frankfurt", "eintracht frankfurt");
    ("frankfurt", "eintracht frankfurt"); ("vfl wolfsburg", "vfl wolfsburg");
    ("wolfsburg", "vfl wolfsburg");
    ("borussia monchengladbach", "borussia monchengladbach");
    ("monchengladbach", "borussia monchengladbach");
    ("gladbach", "borussia monchengladbach"); ("vfb stuttgart", "vfb stuttgart");
    ("stuttgart", "vfb stuttgart"); ("werder bremen", "werder bremen");
    ("bremen", "werder bremen"); ("hoffenheim", "hoffenheim");
    ("tsg hoffenheim", "hoffenheim"); ("fc augsburg", "fc augsburg");
    ("augsburg", "fc augsburg"); ("mainz", "mainz"); ("fsv mainz 05", "mainz");
    ("mainz 05", "mainz"); ("fc koln", "fc koln"); ("koln", "fc koln");
    ("cologne", "fc koln"); ("hertha berlin", "hertha berlin");
    ("hertha bsc", "hertha berlin"); ("real madrid", "real madrid");
    ("madrid", "real madrid"); ("barcelona", "barcelona");
    ("fc barcelona", "barcelona"); ("barca", "barcelona");
    ("atletico madrid", "atletico madrid"); ("atletico", "atletico madrid");
    ("sevilla", "sevilla"); ("sevilla fc", "sevilla");
    ("real sociedad", "real sociedad"); ("sociedad", "real sociedad");
    ("real betis", "real betis"); ("betis", "real betis"); ("villarreal", "villarreal");
    ("villarreal cf", "villarreal"); ("athletic bilbao", "athletic bilbao");
    ("athletic", "athletic bilbao"); ("athletic club", "athletic bilbao");
    ("valencia", "valencia"); ("valencia cf", "valencia"); ("getafe", "getafe");
    ("getafe cf", "getafe"); ("osasuna", "osasuna"); ("ca osasuna", "osasuna");
    ("rayo vallecano", "rayo vallecano"); ("rayo", "rayo vallecano");
    ("celta vigo", "celta vigo"); ("celta", "celta vigo"); ("mallorca", "mallorca");
    ("rcd mallorca", "mallorca"); ("girona", "girona"); ("girona fc", "girona");
    ("las palmas", "las palmas"); ("ud las palmas", "las palmas"); ("alaves", "alaves");
    ("deportivo alaves", "alaves"); ("juventus", "juventus"); ("juve", "juventus");
    ("inter", "inter"); ("inter milan", "inter"); ("internazionale", "inter");
    ("ac milan", "ac milan"); ("milan", "ac milan"); ("napoli", "napoli");
    ("ssc napoli", "napoli"); ("roma", "roma"); ("as roma", "roma"); ("lazio", "lazio");
    ("ss lazio", "lazio"); ("atalanta", "atalanta"); ("atalanta bc", "atalanta");
    ("fiorentina", "fiorentina"); ("acf fiorentina", "fiorentina");
    ("torino", "torino"); ("torino fc", "torino"); ("bologna", "bologna");
    ("bologna fc", "bologna"); ("udinese", "udinese"); ("udinese calcio", "udinese");
    ("sassuolo", "sassuolo"); ("us sassuolo", "sassuolo"); ("monza", "monza");
    ("ac monza", "monza"); ("lecce", "lecce"); ("us lecce", "lecce");
    ("cagliari", "cagliari"); ("cagliari calcio", "cagliari");
    ("hellas verona", "hellas verona"); ("verona", "hellas verona");
    ("salernitana", "salernitana"); ("us salernitana", "salernitana");
    ("empoli", "empoli"); ("empoli fc", "empoli"); ("psg", "psg");
    ("paris saint germain", "psg"); ("paris sg", "psg"); ("marseille", "marseille");
    ("om", "marseille"); ("olympique marseille", "marseille"); ("lyon", "lyon");
    ("olympique lyon", "lyon"); ("olympique lyonnais", "lyon"); ("monaco", "monaco");
    ("as monaco", "monaco"); ("lille", "lille"); ("losc lille", "lille");
    ("rennes", "rennes"); ("stade rennais", "rennes"); ("nice", "nice");
    ("ogc nice", "nice"); ("lens", "lens"); ("rc lens", "lens");
    ("strasbourg", "strasbourg"); ("rc strasbourg", "strasbourg");
    ("montpellier", "montpellier"); ("montpellier hsc", "montpellier");
    ("nantes", "nantes"); ("fc nantes", "nantes"); ("reims", "reims");
    ("stade reims", "reims"); ("toulouse", "toulouse"); ("toulouse fc", "toulouse");
    ("brest", "brest"); ("stade brestois", "brest"); ("le havre", "le havre");
    ("le havre ac", "le havre"); ("lorient", "lorient"); ("fc lorient", "lorient");
    ("clermont", "clermont"); ("clermont foot", "clermont"); ("metz", "metz");
    ("fc metz", "metz")
  ].

(** [key in TEAM_ALIASES] and [TEAM_ALIASES[key]] (no key occurs twice in the
    table). *)
Fixpoint alias_lookup_in (table : list (string * string)) (key : pystr)
  : option pystr :=
  match table with
  | [] => None
  | (k, v) :: rest =>
      if pystr_eqb (u k) key then Some (u v) else alias_lookup_in rest key
  end.

Definition alias_lookup (key : pystr) : option pystr :=
  alias_lookup_in TEAM_ALIASES key.

(** [re.sub(r"[.\-–—/']", " ", s)]. *)
Definition is_separator (c : N) : bool :=
  N.eqb c 46 || N.eqb c 45 || N.eqb c 8211 || N.eqb c 8212 || N.eqb c 47
  || N.eqb c 39.

Definition sub_separators (s : pystr) : pystr :=
  map (fun c => if is_separator c then 32%N else c) s.

(** [re.sub(r"\s+", " ", s)]: every maximal run of whitespace becomes one
    space; [in_run] says that the previous character was whitespace. *)
Fixpoint collapse_ws (in_run : bool) (s : pystr) : pystr :=
  match s with
  | [] => []
  | c :: rest =>
      if is_space c then
        if in_run then collapse_ws true rest else 32%N :: collapse_ws true rest
      else c :: collapse_ws false rest
  end.

(** [s] without the prefix [p], when it starts with [p]. *)
Fixpoint drop_prefix (p s : pystr) : option pystr :=
  match p, s with
  | [], _ => Some s
  | x :: p', y :: s' => if N.eqb x y then drop_prefix p' s' else None
  | _ :: _, [] => None
  end.

Definition PREFIXES : list string :=
  [ "fc"; "sc"; "bv"; "sv"; "vv"; "afc"; "rk"; "pk"; "cf"; "us"; "ac"; "as";
    "ssc"; "rc"; "og"; "ca"; "ud"; "rcd" ].

Definition SUFFIXES : list string :=
  [ "fc"; "united"; "city"; "town"; "rovers"; "wanderers"; "athletic";
    "hotspur"; "albion"; "calcio"; "amsterdam"; "rotterdam"; "nl" ].

(** [re.sub(r'^(fc|sc|...)\s+', '', s)]: the first alternative that the
    string starts with and that is followed by whitespace is removed
    together with the whole whitespace run after it. *)
Fixpoint strip_prefix_token (tokens : list string) (s : pystr) : pystr :=
  match tokens with
  | [] => s
  | t :: rest =>
      match drop_prefix (u t) s with
      | Some (c :: tail) =>
          if is_space c then lstrip tail else strip_prefix_token rest s
      | _ => strip_prefix_token rest s
      end
  end.

(** The match of [\s+(fc|united|...)] that ends where [s] ends, removed;
    [None] when there is none.  Read on the reversed string. *)
Fixpoint strip_suffix_at_end (tokens : list string) (s : pystr)
  : option pystr :=
  match tokens with
  | [] => None
  | t :: rest =>
      match drop_prefix (rev (u t)) (rev s) with
      | Some (c :: tail) =>
          if is_space c then Some (rev (lstrip tail))
          else strip_suffix_at_end rest s
      | _ => strip_suffix_at_end rest s
      end
  end.

(** [re.sub(r'\s+(fc|united|...)$', '', s)]: [$] matches at the end of the
    string and just before a newline that ends it. *)
Definition strip_suffix_token (tokens : list string) (s : pystr) : pystr :=
  match strip_suffix_at_end tokens s with
  | Some r => r
  | None =>
      match rev s with
      | 10%N :: body =>
          match strip_suffix_at_end tokens (rev body) with
          | Some r => r ++ [10%N]
          | None => s
          end
      | _ => s
      end
  end.

(** The "basic normalization" of [normalize_team_name]. *)
Definition basic_normalize (lib : Library) (name : pystr) : pystr :=
  let normalized := strip_accents lib (strip (str_lower lib name)) in
  let normalized := sub_separators normalized in
  strip (collapse_ws false normalized).

Definition normalize_team_name (lib : Library) (name : pystr) : pystr :=
  match name with
  | [] => []
  | _ =>
      let normalized := basic_normalize lib name in
      match alias_lookup normalized with
      | Some canonical => canonical
      | None =>
          let without_prefix := strip_prefix_token PREFIXES normalized in
          match alias_lookup without_prefix with
          | Some canonical => canonical
          | None =>
              let without_suffix := strip_suffix_token SUFFIXES normalized in
              match alias_lookup without_suffix with
              | Some canonical => canonical
              | None => normalized
              end
          end
      end
  end.

Definition team_similarity (lib : Library) (name1 name2 : pystr) : Q :=
  sequence_ratio lib name1 name2.

End TeamNormalizer.

(* ===================================================================== *)
(** * utils/datetime_utils.py *)
(* ===================================================================== *)

Module DatetimeUtils.

(** A [datetime] with [tzinfo = UTC]: microseconds since 0001-01-01T00:00:00. *)
Definition datetime : Type := Z.

Definition digit_value (c : ascii) : option Z :=
  let n := Z.of_nat (nat_of_ascii c) in
  if ((48 <=? n) && (n <=? 57))%Z then Some (n - 48)%Z else None.

Fixpoint digits_value (acc : Z) (cs : list ascii) : option Z :=
  match cs with
  | [] => Some acc
  | c :: rest =>
      match digit_value c with
      | Some d => digits_value (10 * acc + d)%Z rest
      | None => None
      end
  end.

Definition is_leap (y : Z) : bool :=
  ((y mod 4 =? 0) && (negb (y mod 100 =? 0) || (y mod 400 =? 0)))%Z.

Definition days_in_month (y m : Z) : Z :=
  if (m =? 2)%Z then (if is_leap y then 29 else 28)%Z
  else if ((m =? 4) || (m =? 6) || (m =? 9) || (m =? 11))%Z then 30%Z
  else 31%Z.

(** Days from 0001-01-01 to the proleptic Gregorian date y-m-d. *)
Definition days_before (y m d : Z) : Z :=
  let y' := (if m <=? 2 then y - 1 else y)%Z in
  let era := (y' / 400)%Z in
  let yoe := (y' - era * 400)%Z in
  let mp := ((m + 9) mod 12)%Z in
  let doy := ((153 * mp + 2) / 5 + d - 1)%Z in
  let doe := (yoe * 365 + yoe / 4 - yoe / 100 + doy)%Z in
  (era * 146097 + doe - 306)%Z.

(** [datetime.fromisoformat] on a string of the form YYYY-MM-DDTHH:MM:SS
    with fields in range: the only part of it the model computes. *)
Definition fromisoformat_basic (s : string) : option datetime :=
  match list_ascii_of_string s with
  | [y1; y2; y3; y4; "-"%char; m1; m2; "-"%char; d1; d2; "T"%char;
     h1; h2; ":"%char; n1; n2; ":"%char; s1; s2] =>
      match digits_value 0 [y1; y2; y3; y4], digits_value 0 [m1; m2],
            digits_value 0 [d1; d2], digits_value 0 [h1; h2],
            digits_value 0 [n1; n2], digits_value 0 [s1; s2] with
      | Some y, Some m, Some d, Some hh, Some mm, Some ss =>
          if ((1 <=? y) && (1 <=? m) && (m <=? 12) && (1 <=? d)
              && (d <=? days_in_month y m) && (hh <=? 23) && (mm <=? 59)
              && (ss <=? 59))%Z
          then Some ((((days_before y m d * 24 + hh) * 60 + mm) * 60 + ss)
                     * 1000000)%Z
          else None
      | _, _, _, _, _, _ => None
      end
  | _ => None
  end.

Definition fromisoformat (lib : Library) (s : string) : option datetime :=
  match fromisoformat_basic s with
  | Some t => Some t
  | None => fromisoformat_other lib s
  end.

(** [s.endswith("Z")] and [s[:-1]]. *)
Definition ends_with_Z (s : string) : bool :=
  match rev (list_ascii_of_string s) with
  | "Z"%char :: _ => true
  | _ => false
  end.

Definition drop_last (s : string) : string :=
  string_of_list_ascii (removelast (list_ascii_of_string s)).

(** [parse_datetime]: [None] stands for the exception [fromisoformat]
    raises; [replace(tzinfo=utc)] keeps the wall-clock fields. *)
Definition parse_datetime (lib : Library) (dt_str : string) : option datetime :=
  let dt_str := if ends_with_Z dt_str then drop_last dt_str else dt_str in
  fromisoformat lib dt_str.

(** [timedelta.total_seconds()] of a difference of two datetimes. *)
Definition total_seconds (delta : Z) : Q := delta # 1000000.

Definition within_time_window (dt1 dt2 : datetime) (minutes : Z) : bool :=
  Qle_bool (Qabs (total_seconds (dt1 - dt2))) (inject_Z (minutes * 60)).

End DatetimeUtils.

(* ===================================================================== *)
(** * core/models.py and matching/event_matcher.py *)
(* ===================================================================== *)

Module EventMatcher.

Import Settings TeamNormalizer DatetimeUtils.

Record UnifiedEvent : Type := {
  provider : string;
  provider_event_id : string;
  league : string;
  country : string;
  kickoff_utc : string;
  home : pystr;
  away : pystr;
  markets : dict (dict pyval);
  scraped_at : string;
  is_live : bool
}.

(** An element of [candidates]:
    [(idx, right_event, score, exact_match, avg_similarity)]. *)
Record candidate : Type := {
  cand_idx : nat;
  cand_event : UnifiedEvent;
  cand_score : Q;
  cand_exact : bool;
  cand_similarity : Q
}.

Definition Qlt_bool (x y : Q) : bool := negb (Qle_bool y x).

(** The inner loop [for idx, right_event in enumerate(right)], from index
    [idx] on.  [None]: an exception was raised (a right kickoff that does not
    parse), which the [except Exception] of the left event catches. *)
Fixpoint scan_candidates (lib : Library) (left_event : UnifiedEvent)
    (left_kickoff : datetime) (left_home left_away : pystr)
    (used_indices : list nat) (time_tolerance_minutes : Z) (min_similarity : Q)
    (idx : nat) (right : list UnifiedEvent) : option (list candidate) :=
  match right with
  | [] => Some []
  | right_event :: rest =>
      let continue :=
        scan_candidates lib left_event left_kickoff left_home left_away
          used_indices time_tolerance_minutes min_similarity (S idx) rest in
      if existsb (Nat.eqb idx) used_indices
         || negb (String.eqb (league right_event) (league left_event))
      then continue
      else
        let right_home := normalize_team_name lib (home right_event) in
        let right_away := normalize_team_name lib (away right_event) in
        let exact_match :=
          pystr_eqb left_home right_home && pystr_eqb left_away right_away in
        let home_sim := team_similarity lib left_home right_home in
        let away_sim := team_similarity lib left_away right_away in
        let avg_similarity := ((home_sim + away_sim) / 2)%Q in
        if exact_match || Qle_bool min_similarity avg_similarity then
          match parse_datetime lib (kickoff_utc right_event) with
          | None => None
          | Some right_kickoff =>
              if within_time_window left_kickoff right_kickoff
                   time_tolerance_minutes
              then
                let time_diff :=
                  Qabs (total_seconds (right_kickoff - left_kickoff)) in
                let score :=
                  if exact_match then time_diff else (time_diff + 1000)%Q in
                match continue with
                | Some more =>
                    Some ({| cand_idx := idx; cand_event := right_event;
                             cand_score := score; cand_exact := exact_match;
                             cand_similarity := avg_similarity |} :: more)
                | None => None
                end
              else continue
          end
        else continue
  end.

(** The [try] body of one left event up to [if candidates:]. *)
Definition candidates_for (lib : Library) (left_event : UnifiedEvent)
    (right : list UnifiedEvent) (used_indices : list nat)
    (time_tolerance_minutes : Z) (min_similarity : Q)
  : option (list candidate) :=
  match parse_datetime lib (kickoff_utc left_event) with
  | None => None
  | Some left_kickoff =>
      let left_home := normalize_team_name lib (home left_event) in
      let left_away := normalize_team_name lib (away left_event) in
      scan_candidates lib left_event left_kickoff left_home left_away
        used_indices time_tolerance_minutes min_similarity 0 right
  end.

(** [min(candidates, key=lambda x: x[2])]: the first candidate of least
    score. *)
Fixpoint min_by_score (best : candidate) (rest : list candidate) : candidate :=
  match rest with
  | [] => best
  | c :: rest' =>
      if Qlt_bool (cand_score c) (cand_score best) then min_by_score c rest'
      else min_by_score best rest'
  end.

(** A pair of [matches], with the positions of its events in [left] and
    [right] kept beside it. *)
Record matched : Type := {
  left_index : nat;
  left_event_of : UnifiedEvent;
  right_index : nat;
  right_event_of : UnifiedEvent
}.

(** The outer loop [for left_event in left], from position [li] on, with the
    set [used_indices] as it stands; the pairs come out in the order in
    which [matches.append] adds them. *)
Fixpoint match_loop (lib : Library) (right : list UnifiedEvent)
    (time_tolerance_minutes : Z) (min_similarity : Q)
    (li : nat) (left : list UnifiedEvent) (used_indices : list nat)
  : list matched :=
  match left with
  | [] => []
  | left_event :: rest =>
      match candidates_for lib left_event right used_indices
              time_tolerance_minutes min_similarity with
      | Some (c :: cs) =>
          let best := min_by_score c cs in
          {| left_index := li; left_event_of := left_event;
             right_index := cand_idx best; right_event_of := cand_event best |}
          :: match_loop lib right time_tolerance_minutes min_similarity
               (S li) rest (cand_idx best :: used_indices)
      | _ =>
          match_loop lib right time_tolerance_minutes min_similarity
            (S li) rest used_indices
      end
  end.

Definition match_trace (lib : Library) (left right : list UnifiedEvent)
    (time_tolerance_minutes : Z) (min_similarity : Q) : list matched :=
  match_loop lib right time_tolerance_minutes min_similarity 0 left [].

Definition match_events (lib : Library) (left right : list UnifiedEvent)
    (time_tolerance_minutes : Z) (min_similarity : Q)
  : list (UnifiedEvent * UnifiedEvent) :=
  map (fun m => (left_event_of m, right_event_of m))
      (match_trace lib left right time_tolerance_minutes min_similarity).

End EventMatcher.

(* ===================================================================== *)
(** * analysis/value_analyzer.py: the value-bet pipeline *)
(* ===================================================================== *)

Module Pipeline.

Import Settings ValueAnalyzer EventMatcher.
Local Open Scope R_scope.

(** [core.models.ValueBet]; the fields that share a name with a field of
    [UnifiedEvent] carry the prefix [bet_]. *)
Record ValueBet : Type := {
  bet_league : string;
  bet_kickoff : string;
  bet_home : pystr;
  bet_away : pystr;
  bet_bookmaker : string;
  bet_market : string;
  bet_outcome : string;
  bet_soft_odds : R;
  bet_anchor_odds : pyval;
  bet_soft_prob : num;
  bet_anchor_prob : R;
  edge_percentage : R;
  recommended_stake : R;
  expected_value : R
}.

Definition SUPPORTED_MARKETS : list string := ["1x2"; "ou_2_5"; "btts"].

(** A loop that appends to [value_bets]: the bets of each element in turn;
    the first exception ends the loop and is raised. *)
Fixpoint for_each {A B} (body : A -> result (list B)) (xs : list A)
  : result (list B) :=
  match xs with
  | [] => Ok []
  | x :: rest =>
      bets <- body x ;;
      more <- for_each body rest ;;
      Ok (bets ++ more)
  end.

(** The body of [for outcome in anchor_probs.keys()].  [true_prob * soft_odds]
    raises [TypeError] when the soft odds are [None]; when [true_prob] is
    complex the edge is complex and [edge >= min_edge] raises [TypeError]. *)
Definition outcome_bets (book_name : string) (soft_event anchor_event : UnifiedEvent)
    (market_type : string) (soft_market anchor_market : dict pyval)
    (soft_probs anchor_probs : dict num) (min_edge bankroll : R)
    (outcome : string) : result (list ValueBet) :=
  if negb (dmem soft_market outcome) then Ok []
  else
    true_prob <- getitem anchor_probs outcome ;;
    soft_odds <- getitem soft_market outcome ;;
    anchor_odds <- getitem anchor_market outcome ;;
    match true_prob, soft_odds with
    | Fl p, VFloat o =>
        let edge := calculate_edge p o in
        if Rle_dec min_edge edge then
          stake <- kelly_stake edge o bankroll KELLY_FRACTION ;;
          let ev := stake * edge in
          soft_prob <- getitem soft_probs outcome ;;
          Ok [ {| bet_league := league soft_event;
                  bet_kickoff := kickoff_utc soft_event;
                  bet_home := home soft_event;
                  bet_away := away soft_event;
                  bet_bookmaker := book_name;
                  bet_market := market_type;
                  bet_outcome := outcome;
                  bet_soft_odds := o;
                  bet_anchor_odds := anchor_odds;
                  bet_soft_prob := soft_prob;
                  bet_anchor_prob := p;
                  edge_percentage := edge * 100;
                  recommended_stake := stake;
                  expected_value := ev |} ]
        else Ok []
    | _, _ => Raise TypeError
    end.

(** The body of [for market_type in ["1x2", "ou_2_5", "btts"]]. *)
Definition market_bets (book_name : string) (soft_event anchor_event : UnifiedEvent)
    (min_edge bankroll : R) (market_type : string) : result (list ValueBet) :=
  match dget (markets soft_event) market_type,
        dget (markets anchor_event) market_type with
  | Some soft_market, Some anchor_market =>
      soft_probs <-
        (if String.eqb market_type "1x2" then
           probs <- check_home_away_swap soft_market anchor_market ;; Ok (Some probs)
         else remove_vig_multiplicative soft_market) ;;
      anchor_probs <- remove_vig_multiplicative anchor_market ;;
      if negb (truthy soft_probs) || negb (truthy anchor_probs) then Ok []
      else
        for_each
          (outcome_bets book_name soft_event anchor_event market_type
             soft_market anchor_market (or_empty soft_probs)
             (or_empty anchor_probs) min_edge bankroll)
          (dkeys (or_empty anchor_probs))
  | _, _ => Ok []
  end.

(** [value_bets] as it stands before the final sort. *)
Definition emit_value_bets (lib : Library) (anchor_events : list UnifiedEvent)
    (soft_books : dict (list UnifiedEvent)) (time_tolerance : Z)
    (min_edge bankroll : R) : result (list ValueBet) :=
  for_each
    (fun book : string * list UnifiedEvent =>
       let (book_name, book_events) := book in
       let matches :=
         match_events lib book_events anchor_events time_tolerance
           TEAM_SIMILARITY_THRESHOLD in
       for_each
         (fun pair : UnifiedEvent * UnifiedEvent =>
            let (soft_event, anchor_event) := pair in
            for_each (market_bets book_name soft_event anchor_event min_edge bankroll)
                     SUPPORTED_MARKETS)
         matches)
    soft_books.

(** [list.sort(key=lambda x: x.edge_percentage, reverse=True)]: Python's sort
    is stable, also under [reverse=True].  As an insertion sort: an element
    goes before the first one whose key is not greater than its own. *)
Fixpoint insert_by_edge (bet : ValueBet) (sorted : list ValueBet) : list ValueBet :=
  match sorted with
  | [] => [bet]
  | x :: rest =>
      if Rlt_dec (edge_percentage bet) (edge_percentage x)
      then x :: insert_by_edge bet rest
      else bet :: x :: rest
  end.

Definition sort_by_edge_desc (bets : list ValueBet) : list ValueBet :=
  fold_right insert_by_edge [] bets.

Definition generate_value_bets (lib : Library) (anchor_events : list UnifiedEvent)
    (soft_books : dict (list UnifiedEvent)) (time_tolerance : Z)
    (min_edge bankroll : R) : result (list ValueBet) :=
  value_bets <-
    emit_value_bets lib anchor_events soft_books time_tolerance min_edge bankroll ;;
  Ok (sort_by_edge_desc value_bets).

End Pipeline.

(* ===================================================================== *)
(** * core/models.py: closing line value *)
(* ===================================================================== *)

Module Models.

Import Py ValueAnalyzer.
Local Open Scope R_scope.

(** [EdgeMetrics.calculate_clv]: [closing_odds] is a float or [None], and
    [if self.closing_odds] is false for [None] and for [0.0]. *)
Definition calculate_clv (odds_taken : R) (closing_odds : pyval)
  : result (option R) :=
  match closing_odds with
  | VNone => Ok None
  | VFloat c =>
      if Req_dec_T c 0 then Ok None
      else q <- float_div odds_taken c ;; Ok (Some (q - 1))
  end.

End Models.

(* ===================================================================== *)
(** * mm/date.py: the day of the week *)
(* ===================================================================== *)

Module MmDate.

Local Open Scope Z_scope.

Definition days : list string :=
  [ "Saturday"; "Sunday"; "Monday"; "Tuesday"; "Wednesday"; "Thursday";
    "Friday" ].

(** [xs[i]] on a list: a negative index counts from the end, and an index
    out of range raises [IndexError] ([None]). *)
Definition list_index {A} (xs : list A) (i : Z) : option A :=
  let n := Z.of_nat (List.length xs) in
  if (0 <=? i) && (i <? n) then nth_error xs (Z.to_nat i)
  else if (- n <=? i) && (i <? 0) then nth_error xs (Z.to_nat (n + i))
  else None.

(** The index [h] that [dag_vd_week] computes; [//] and [%] of Python round
    towards minus infinity, as [Z.div] and [Z.modulo] do for a positive
    divisor. *)
Definition h (day month year : Z) : Z :=
  let '(month, year) :=
    if month <=? 2 then (month + 12, year - 1) else (month, year) in
  let q := day in
  let m := month in
  let K := year mod 100 in
  let J := year / 100 in
  (q + (13 * (m + 1)) / 5 + K + (K / 4) + (J / 4) + 5 * J) mod 7.

Definition dag_vd_week (day month year : Z) : option string :=
  list_index days (h day month year).

End MmDate.

(* ===================================================================== *)
(** * Vocabulary of the statements *)
(* ===================================================================== *)

Module Vocabulary.

Import Settings ValueAnalyzer TeamNormalizer DatetimeUtils EventMatcher Pipeline.
Local Open Scope R_scope.

(** A library instance, to instantiate statements that hold for every
    library: it leaves non-ASCII strings alone, parses no kickoff beyond the
    basic form, and rates two names 1 when equal and 0 otherwise. *)
Definition plain_ratio (a b : pystr) : Q :=
  if pystr_eqb a b then 1%Q else 0%Q.

Definition plain_ratio_range (a b : pystr) : (0 <= plain_ratio a b <= 1)%Q.
Proof. unfold plain_ratio. destruct (pystr_eqb a b); split; discriminate. Qed.

Definition plain_library : Library :=
  {| unicode_lower := fun s => s;
     unicode_nfd := fun s => s;
     unicode_is_Mn := fun _ => false;
     fromisoformat_other := fun _ => None;
     sequence_ratio := plain_ratio;
     sequence_ratio_range := plain_ratio_range |}.

Definition Rsum (xs : list R) : R := fold_right Rplus 0 xs.

(** The odds of outcome [k] when it is a float (1 otherwise). *)
Definition odds_at (odds : dict pyval) (k : string) : R :=
  match dget odds k with
  | Some (VFloat o) => o
  | _ => 1
  end.

(** Every outcome of the mapping has float odds above [lo]. *)
Definition odds_above (lo : R) (odds : dict pyval) : Prop :=
  forall k, In k (outcome_keys odds) ->
    exists o, dget odds k = Some (VFloat o) /\ lo < o.

(** What the power method computes on positive odds, written out:
    [p_k = 1 / odds_k], [adjusted_k = p_k ^ e / total ^ e] with
    [e = 1 / ((n - 1) / n)], each divided by the sum of the adjusted values. *)
Definition devig_exponent (n : nat) : R := 1 / ((INR n - 1) / INR n).

Definition devig_adjusted (odds : dict pyval) (k : string) : R :=
  let ks := outcome_keys odds in
  let e := devig_exponent (List.length ks) in
  let total := Rsum (map (fun k => 1 / odds_at odds k) ks) in
  Rpower (1 / odds_at odds k) e / Rpower total e.

Definition devig_probability (odds : dict pyval) (k : string) : R :=
  devig_adjusted odds k / Rsum (map (devig_adjusted odds) (outcome_keys odds)).

Definition devig_closed_form (odds : dict pyval) : dict num :=
  match outcome_keys odds with
  | [] => []
  | [k] => [(k, Fl 1)]
  | ks => map (fun k => (k, Fl (devig_probability odds k))) ks
  end.

(** ** Matching *)

(** Both normalized names agree: the [exact_match] of the matcher. *)
Definition exact_names (lib : Library) (l r : UnifiedEvent) : bool :=
  pystr_eqb (normalize_team_name lib (home l)) (normalize_team_name lib (home r))
  && pystr_eqb (normalize_team_name lib (away l)) (normalize_team_name lib (away r)).

(** Seconds between the kickoffs of two events (0 when one does not parse). *)
Definition kickoff_gap (lib : Library) (l r : UnifiedEvent) : Q :=
  match parse_datetime lib (kickoff_utc l), parse_datetime lib (kickoff_utc r) with
  | Some tl, Some tr => Qabs (total_seconds (tr - tl))
  | _, _ => 0%Q
  end.

(** What the matcher guarantees of a candidate it recorded for [left_event]. *)
Definition candidate_ok (lib : Library) (left_event : UnifiedEvent)
    (right : list UnifiedEvent) (used_indices : list nat)
    (time_tolerance_minutes : Z) (c : candidate) : Prop :=
  nth_error right (cand_idx c) = Some (cand_event c) /\
  ~ In (cand_idx c) used_indices /\
  league (cand_event c) = league left_event /\
  cand_exact c = exact_names lib left_event (cand_event c) /\
  (exists tl tr,
     parse_datetime lib (kickoff_utc left_event) = Some tl /\
     parse_datetime lib (kickoff_utc (cand_event c)) = Some tr) /\
  (kickoff_gap lib left_event (cand_event c)
     <= inject_Z (time_tolerance_minutes * 60))%Q /\
  cand_score c =
    if cand_exact c then kickoff_gap lib left_event (cand_event c)
    else (kickoff_gap lib left_event (cand_event c) + 1000)%Q.



(** Example fixtures: a soft-book event, the same fixture at the anchor
    under other spellings and [minutes] later, and another fixture of the
    league at the soft event's kickoff. *)
Definition fixture (kickoff : string) (home_name away_name : string)
    (odds : dict (dict pyval)) : UnifiedEvent :=
  {| provider := "book"; provider_event_id := "1"; league := "eredivisie";
     country := "NL"; kickoff_utc := kickoff;
     home := u home_name; away := u away_name;
     markets := odds; scraped_at := "2025-01-01T09:00:00Z"; is_live := false |}.

Definition soft_ajax_psv : UnifiedEvent :=
  fixture "2025-01-01T12:00:00Z" "Ajax" "PSV" [].

Definition anchor_ajax_psv_late : UnifiedEvent :=
  fixture "2025-01-01T12:18:20Z" "AFC Ajax" "PSV Eindhoven" [].

Definition anchor_ajax_psv_near : UnifiedEvent :=
  fixture "2025-01-01T12:05:00Z" "AFC Ajax" "PSV Eindhoven" [].


(** Example market used to instantiate the statements below: a 1x2 market
    with a bookmaker margin entry. *)
Definition example_market : dict pyval :=
  [ ("home", VFloat 2); ("draw", VFloat (7 / 2)); ("away", VFloat 4);
    ("margin", VFloat (5 / 100)) ].

(** The spec's swap example: the soft book quotes the anchor's 1x2 market
    with home and away exchanged. *)
Definition swap_example_anchor : dict pyval :=
  [ ("home", VFloat (3 / 2)); ("draw", VFloat 4); ("away", VFloat 6) ].

Definition swap_example_soft : dict pyval :=
  [ ("home", VFloat 6); ("draw", VFloat 4); ("away", VFloat (3 / 2)) ].

(** ** The pipeline *)

(** Descending order of edge percentage, and the bets of a given edge. *)
Definition edge_desc (a b : ValueBet) : Prop :=
  edge_percentage b <= edge_percentage a.

Definition has_edge (e : R) (b : ValueBet) : bool :=
  if Req_dec_T (edge_percentage b) e then true else false.

(** Example batch: the anchor quotes Ajax - PSV with a 1x2 and a btts
    market; one soft event quotes only btts, with value on "yes"; another
    quotes a partial 1x2 market without "draw". *)
Definition anchor_market_1x2 : dict pyval :=
  [ ("home", VFloat 2); ("draw", VFloat (7 / 2)); ("away", VFloat 4) ].

Definition partial_market_1x2 : dict pyval :=
  [ ("home", VFloat (23 / 10)); ("away", VFloat 4) ].

Definition anchor_market_btts : dict pyval :=
  [ ("yes", VFloat 2); ("no", VFloat 2) ].

Definition soft_market_btts : dict pyval :=
  [ ("yes", VFloat (11 / 5)); ("no", VFloat (17 / 10)) ].

Definition anchor_event_full : UnifiedEvent :=
  fixture "2025-01-01T12:00:00Z" "AFC Ajax" "PSV Eindhoven"
    [ ("1x2", anchor_market_1x2); ("btts", anchor_market_btts) ].

Definition soft_event_btts : UnifiedEvent :=
  fixture "2025-01-01T12:00:00Z" "Ajax" "PSV" [ ("btts", soft_market_btts) ].

Definition soft_event_partial : UnifiedEvent :=
  fixture "2025-01-01T12:00:00Z" "Ajax" "PSV" [ ("1x2", partial_market_1x2) ].

(** The bet the pipeline emits for [soft_event_btts] at bookmaker [book]
    with min_edge 0.025 and bankroll 1000. *)
Definition example_bet (book : string) : ValueBet :=
  let p := devig_probability anchor_market_btts "yes" in
  let edge := calculate_edge p (11 / 5) in
  let stake :=
    Rmin (Rmax 0 (edge / (11 / 5 - 1) * KELLY_FRACTION) * 1000)
         (1000 * MAX_STAKE_PERCENTAGE) in
  {| bet_league := "eredivisie"; bet_kickoff := "2025-01-01T12:00:00Z";
     bet_home := u "Ajax"; bet_away := u "PSV"; bet_bookmaker := book;
     bet_market := "btts"; bet_outcome := "yes"; bet_soft_odds := 11 / 5;
     bet_anchor_odds := VFloat 2;
     bet_soft_prob := Fl (devig_probability soft_market_btts "yes");
     bet_anchor_prob := p;
     edge_percentage := edge * 100;
     recommended_stake := stake;
     expected_value := stake * edge |}.

(** ** Further vocabulary of the odds engine *)

(** The auxiliary keys that are not outcomes. *)
Definition is_aux_key (k : string) : bool :=
  String.eqb k "margin" || String.eqb k "line".

(** The mapping without its "margin" and "line" entries. *)
Definition strip_aux (odds : dict pyval) : dict pyval :=
  filter (fun kv => negb (is_aux_key (fst kv))) odds.

(** ** Further vocabulary of the pipeline *)

(** What the pipeline guarantees of a bet it emits for the pair
    [(soft, anchor)] at bookmaker [book] in market [mt]. *)
Definition bet_valid_for (book : string) (soft anchor : UnifiedEvent)
    (mt : string) (soft_market anchor_market : dict pyval)
    (anchor_probs : dict num) (min_edge bankroll : R) (b : ValueBet) : Prop :=
  bet_bookmaker b = book /\
  bet_market b = mt /\
  bet_league b = league soft /\
  bet_kickoff b = kickoff_utc soft /\
  bet_home b = home soft /\
  bet_away b = away soft /\
  dget soft_market (bet_outcome b) = Some (VFloat (bet_soft_odds b)) /\
  dget anchor_market (bet_outcome b) = Some (bet_anchor_odds b) /\
  dget anchor_probs (bet_outcome b) = Some (Fl (bet_anchor_prob b)) /\
  edge_percentage b = calculate_edge (bet_anchor_prob b) (bet_soft_odds b) * 100 /\
  min_edge * 100 <= edge_percentage b /\
  kelly_stake (calculate_edge (bet_anchor_prob b) (bet_soft_odds b))
    (bet_soft_odds b) bankroll KELLY_FRACTION = Ok (recommended_stake b) /\
  expected_value b =
    recommended_stake b * calculate_edge (bet_anchor_prob b) (bet_soft_odds b).

(** The bets whose edge reaches the threshold [min_edge]: the test
    [edge >= min_edge] of the pipeline, on the edge computed again from the
    bet's anchor probability and soft odds. *)
Definition edge_at_least (min_edge : R) (b : ValueBet) : bool :=
  if Rle_dec min_edge (calculate_edge (bet_anchor_prob b) (bet_soft_odds b))
  then true else false.

Definition three_way_evens : dict pyval :=
  [ ("home", VFloat 3); ("draw", VFloat 3); ("away", VFloat 3) ].

(** Events whose kickoff no version of [fromisoformat] parses. *)
Definition soft_event_bad_kickoff : UnifiedEvent :=
  fixture "kickoff unknown" "Ajax" "PSV" [].

Definition anchor_event_bad_kickoff : UnifiedEvent :=
  fixture "kickoff unknown" "AFC Ajax" "PSV Eindhoven" [].

(** The average of the similarities of the home and of the away names, the
    score of a pair, and what the inner loop asks of a right event before it
    records it as a candidate for [l]. *)
Definition average_similarity (lib : Library) (l r : UnifiedEvent) : Q :=
  ((team_similarity lib (normalize_team_name lib (home l))
      (normalize_team_name lib (home r))
    + team_similarity lib (normalize_team_name lib (away l))
        (normalize_team_name lib (away r))) / 2)%Q.

Definition pair_score (lib : Library) (l r : UnifiedEvent) : Q :=
  if exact_names lib l r then kickoff_gap lib l r
  else (kickoff_gap lib l r + 1000)%Q.

Definition qualifies (lib : Library) (l r : UnifiedEvent)
    (time_tolerance_minutes : Z) (min_similarity : Q) : Prop :=
  league r = league l /\
  (exact_names lib l r = true \/
   (min_similarity <= average_similarity lib l r)%Q) /\
  (exists tl tr,
     parse_datetime lib (kickoff_utc l) = Some tl /\
     parse_datetime lib (kickoff_utc r) = Some tr) /\
  (kickoff_gap lib l r <= inject_Z (time_tolerance_minutes * 60))%Q.

(** A normalized name is tidy: it holds no separator character, its only
    whitespace is the plain space, never two in a row, and it neither
    starts nor ends with one. *)
Definition plain_char (c : N) : bool :=
  negb (is_separator c) && (negb (is_space c) || N.eqb c 32).

Fixpoint single_spaced (after_space : bool) (s : pystr) : bool :=
  match s with
  | [] => true
  | c :: rest =>
      if is_space c then negb after_space && single_spaced true rest
      else single_spaced false rest
  end.

Definition starts_clean (s : pystr) : bool :=
  match s with
  | [] => true
  | c :: _ => negb (is_space c)
  end.

Definition tidy (s : pystr) : bool :=
  forallb plain_char s && single_spaced false s
  && starts_clean s && starts_clean (rev s).

(** An ASCII character that [str.lower] leaves as it is. *)
Definition settled (c : N) : Prop := is_ascii c = true /\ ascii_lower c = c.

(** The divergence in the words of the spec: the sum over the anchor's
    outcome keys of the absolute differences between the probabilities of a
    mapping and the anchor's (a missing outcome counting as 0). *)
Definition total_absolute_difference (probs anchor_probs : dict num) : R :=
  Rsum (map (fun k =>
               num_abs (num_sub
                          (match dget probs k with Some v => v | None => Fl 0 end)
                          (match dget anchor_probs k with
                           | Some v => v
                           | None => Fl 0
                           end)))
            (dkeys anchor_probs)).

(** ** De-vigging in binary64 *)

(** Every outcome of the mapping has float odds between [lo] and [hi]. *)
Definition odds_within (lo hi : R) (odds : dict pyval) : Prop :=
  forall k, In k (outcome_keys odds) ->
    exists o, dget odds k = Some (VFloat o) /\ lo <= o <= hi.

(** What the power method computes over the arithmetic [fa] on a market of
    two or more outcomes, step by step: the implied probabilities, their
    total, the exponent and its inverse, the adjusted values, their total
    and the normalized values. *)
Definition fl_implied (fa : FloatArith.float_ops) (odds : dict pyval)
    (k : string) : R :=
  FloatArith.fdiv fa 1 (odds_at odds k).

Definition fl_total (fa : FloatArith.float_ops) (odds : dict pyval) : R :=
  FloatArith.fsum fa (map (fl_implied fa odds) (outcome_keys odds)).

Definition fl_exponent (fa : FloatArith.float_ops) (odds : dict pyval) : R :=
  FloatArith.fdiv fa (INR (List.length (outcome_keys odds)) - 1)
    (INR (List.length (outcome_keys odds))).

Definition fl_power (fa : FloatArith.float_ops) (odds : dict pyval) (x : R) : R :=
  match FloatArith.fpow fa x (FloatArith.fdiv fa 1 (fl_exponent fa odds)) with
  | Ok (Fl r) => r
  | _ => 0
  end.

Definition fl_adjusted (fa : FloatArith.float_ops) (odds : dict pyval)
    (k : string) : R :=
  FloatArith.fdiv fa (fl_power fa odds (fl_implied fa odds k))
    (fl_power fa odds (fl_total fa odds)).

Definition fl_adjusted_total (fa : FloatArith.float_ops) (odds : dict pyval) : R :=
  FloatArith.fsum fa (map (fl_adjusted fa odds) (outcome_keys odds)).

Definition fl_probability (fa : FloatArith.float_ops) (odds : dict pyval)
    (k : string) : R :=
  FloatArith.fdiv fa (fl_adjusted fa odds k) (fl_adjusted_total fa odds).

Definition fl_result (fa : FloatArith.float_ops) (odds : dict pyval) : dict num :=
  match outcome_keys odds with
  | [] => []
  | [k] => [(k, Fl 1)]
  | ks => map (fun k => (k, Fl (fl_probability fa odds k))) ks
  end.

(** The numbers of a mapping of floats. *)
Definition float_values (probs : dict num) : list R :=
  map (fun kv => match snd kv with Fl p => p | Cx re _ => re end) probs.

(** Markets whose odds are astronomically long or short: powers of two
    that binary64 represents exactly. *)
Definition market_2_700 : dict pyval :=
  [ ("home", VFloat (2 ^ 700)); ("away", VFloat (2 ^ 700)) ].

Definition market_2_m600 : dict pyval :=
  [ ("home", VFloat (/ 2 ^ 600)); ("away", VFloat 3) ].

End Vocabulary.

(* ===================================================================== *)
(** * Properties of the odds engine *)
(* ===================================================================== *)

Module ValueAnalyzerFacts.

Import Settings ValueAnalyzer Vocabulary.
Local Open Scope R_scope.

(** ** Sums *)

Lemma fold_left_Rplus (xs : list R) (a : R) :
  fold_left Rplus xs a = a + Rsum xs.
Proof.
  revert a; induction xs as [|x xs IH]; intros a; simpl.
  - lra.
  - rewrite IH. lra.
Qed.

Lemma sum_floats_Rsum (xs : list R) : sum_floats xs = Rsum xs.
Proof. unfold sum_floats. rewrite fold_left_Rplus. lra. Qed.

Lemma fold_left_num_add_Fl (xs : list R) (a : R) :
  fold_left num_add (map Fl xs) (Fl a) = Fl (a + Rsum xs).
Proof.
  revert a; induction xs as [|x xs IH]; intros a; simpl.
  - f_equal. lra.
  - rewrite IH. f_equal. lra.
Qed.

Lemma sum_nums_Fl (xs : list R) : sum_nums (map Fl xs) = Fl (Rsum xs).
Proof. unfold sum_nums. rewrite fold_left_num_add_Fl. f_equal. lra. Qed.

Lemma Rsum_pos (xs : list R) :
  xs <> [] -> (forall x, In x xs -> 0 < x) -> 0 < Rsum xs.
Proof.
  induction xs as [|x xs IH]; intros Hne Hpos; [congruence|].
  simpl. assert (0 < x) by (apply Hpos; now left).
  destruct xs as [|y ys].
  - simpl. lra.
  - assert (0 < Rsum (y :: ys)).
    { apply IH; [discriminate|]. intros z Hz. apply Hpos. now right. }
    lra.
Qed.

Lemma Rsum_nonneg (xs : list R) :
  (forall x, In x xs -> 0 <= x) -> 0 <= Rsum xs.
Proof.
  induction xs as [|x xs IH]; intros Hpos; simpl; [lra|].
  assert (0 <= x) by (apply Hpos; now left).
  assert (0 <= Rsum xs) by (apply IH; intros z Hz; apply Hpos; now right).
  lra.
Qed.

Lemma Rsum_map_div {A} (h : A -> R) (s : R) (xs : list A) :
  Rsum (map (fun x => h x / s) xs) = Rsum (map h xs) / s.
Proof.
  induction xs as [|x xs IH]; simpl.
  - unfold Rdiv. lra.
  - rewrite IH. unfold Rdiv. lra.
Qed.

Lemma Rsum_ge_member (xs : list R) (x : R) :
  (forall y, In y xs -> 0 <= y) -> In x xs -> x <= Rsum xs.
Proof.
  induction xs as [|y ys IH]; intros Hpos Hin; [contradiction|].
  simpl. assert (0 <= y) by (apply Hpos; now left).
  assert (0 <= Rsum ys) by (apply Rsum_nonneg; intros z Hz; apply Hpos; now right).
  destruct Hin as [->|Hin]; [lra|].
  assert (x <= Rsum ys) by (apply IH; [intros z Hz; apply Hpos; now right|exact Hin]).
  lra.
Qed.

(** ** Dictionaries *)

Lemma dset_fresh {V} (d : dict V) (k : string) (v : V) :
  ~ In k (dkeys d) -> dset d k v = d ++ [(k, v)].
Proof.
  induction d as [|[k' v'] d IH]; intros Hk; simpl; [reflexivity|].
  destruct (String.eqb_spec k' k) as [->|Hne].
  - exfalso. apply Hk. now left.
  - rewrite IH; [reflexivity|]. intros Hin. apply Hk. now right.
Qed.

Lemma dkeys_app {V} (d1 d2 : dict V) : dkeys (d1 ++ d2) = dkeys d1 ++ dkeys d2.
Proof. unfold dkeys. apply map_app. Qed.

(** Building a dictionary from distinct fresh keys, when no step raises,
    appends one entry per element, in order. *)
Lemma dict_build_fresh {A V} (key : A -> string) (f : A -> result V) (g : A -> V)
    (xs : list A) (acc : dict V) :
  NoDup (map key xs) ->
  (forall x, In x xs -> ~ In (key x) (dkeys acc)) ->
  (forall x, In x xs -> f x = Ok (g x)) ->
  dict_build key f xs acc = Ok (acc ++ map (fun x => (key x, g x)) xs).
Proof.
  revert acc; induction xs as [|x xs IH]; intros acc Hnd Hfresh Hf; simpl.
  - now rewrite app_nil_r.
  - rewrite (Hf x) by now left. simpl.
    rewrite dset_fresh by (apply Hfresh; now left).
    inversion Hnd as [|? ? Hx Hnd']; subst.
    rewrite IH.
    + now rewrite <- app_assoc.
    + exact Hnd'.
    + intros y Hy. rewrite dkeys_app. simpl. intros Hin.
      apply in_app_or in Hin. destruct Hin as [Hin|[Heq|[]]].
      * apply (Hfresh y); [now right|exact Hin].
      * apply Hx. rewrite Heq. now apply in_map.
    + intros y Hy. apply Hf. now right.
Qed.

Lemma dict_build_map {A B V} (m : B -> A) (key : A -> string) (f : A -> result V)
    (xs : list B) (acc : dict V) :
  dict_build key f (map m xs) acc =
  dict_build (fun x => key (m x)) (fun x => f (m x)) xs acc.
Proof.
  revert acc; induction xs as [|x xs IH]; intros acc; simpl; [reflexivity|].
  destruct (f (m x)); simpl; [apply IH|reflexivity].
Qed.

Lemma dget_map_keys {V} (g : string -> V) (ks : list string) (k : string) :
  In k ks -> dget (map (fun x => (x, g x)) ks) k = Some (g k).
Proof.
  induction ks as [|x ks IH]; intros Hin; [contradiction|]. simpl.
  destruct (String.eqb_spec x k) as [->|Hne]; [reflexivity|].
  destruct Hin as [Heq|Hin]; [congruence|]. now apply IH.
Qed.

Lemma dget_In {V} (d : dict V) (k : string) (v : V) :
  dget d k = Some v -> In (k, v) d.
Proof.
  induction d as [|[k' v'] d IH]; simpl; [discriminate|].
  destruct (String.eqb_spec k' k) as [->|Hne].
  - intros [= ->]. now left.
  - intros H. right. now apply IH.
Qed.

Lemma In_dget {V} (d : dict V) (k : string) :
  In k (dkeys d) -> exists v, dget d k = Some v.
Proof.
  induction d as [|[k' v'] d IH]; simpl; [contradiction|].
  destruct (String.eqb_spec k' k) as [->|Hne].
  - intros _. now exists v'.
  - intros [Heq|Hin]; [congruence|]. now apply IH.
Qed.

(** ** Outcome keys *)

Lemma list_remove_incl (x : string) (l : list string) :
  incl (list_remove x l) l.
Proof.
  induction l as [|y l IH]; simpl; [apply incl_refl|].
  destruct (String.eqb y x).
  - apply incl_tl, incl_refl.
  - intros z [->|Hz]; [now left|right; now apply IH].
Qed.

Lemma list_remove_NoDup (x : string) (l : list string) :
  NoDup l -> NoDup (list_remove x l).
Proof.
  induction 1 as [|y l Hy Hnd IH]; simpl; [constructor|].
  destruct (String.eqb y x); [exact Hnd|].
  constructor; [|exact IH]. intros Hin. apply Hy. now apply (list_remove_incl x l).
Qed.

Lemma outcome_keys_incl (odds : dict pyval) :
  incl (outcome_keys odds) (dkeys odds).
Proof.
  unfold outcome_keys.
  assert (H1 : incl (if list_mem "margin" (dkeys odds)
                     then list_remove "margin" (dkeys odds) else dkeys odds)
                    (dkeys odds)).
  { destruct (list_mem _ _); [apply list_remove_incl|apply incl_refl]. }
  destruct (list_mem "line" _); [|exact H1].
  eapply incl_tran; [apply list_remove_incl|exact H1].
Qed.

Lemma outcome_keys_NoDup (odds : dict pyval) :
  wf_dict odds -> NoDup (outcome_keys odds).
Proof.
  unfold wf_dict, outcome_keys. intros Hnd.
  assert (H1 : NoDup (if list_mem "margin" (dkeys odds)
                      then list_remove "margin" (dkeys odds) else dkeys odds)).
  { destruct (list_mem _ _); [now apply list_remove_NoDup|exact Hnd]. }
  destruct (list_mem "line" _); [now apply list_remove_NoDup|exact H1].
Qed.

(** ** De-vigging positive odds *)

Lemma devig_exponent_pos (n : nat) : (2 <= n)%nat -> 0 < devig_exponent n.
Proof.
  intros Hn. unfold devig_exponent.
  assert (2 <= INR n) by (change 2 with (INR 2); now apply le_INR).
  apply Rdiv_lt_0_compat; [lra|].
  apply Rdiv_lt_0_compat; lra.
Qed.

Lemma float_pow_pos (x y : R) :
  0 < x -> y <> 0 -> float_pow x y = Ok (Fl (Rpower x y)).
Proof.
  intros Hx Hy. unfold float_pow.
  destruct (Req_dec_T y 0); [contradiction|].
  destruct (Req_dec_T x 0); [lra|].
  destruct (Rlt_dec x 0); [lra|reflexivity].
Qed.

Lemma Rpower_pos (x y : R) : 0 < Rpower x y.
Proof. unfold Rpower. apply exp_pos. Qed.

Lemma odds_above_at (lo : R) (odds : dict pyval) (k : string) :
  odds_above lo odds -> In k (outcome_keys odds) ->
  dget odds k = Some (VFloat (odds_at odds k)) /\ lo < odds_at odds k.
Proof.
  intros H Hk. destruct (H k Hk) as (o & Hget & Hlo).
  unfold odds_at. rewrite Hget. now split.
Qed.

Lemma implied_probs_positive (odds : dict pyval) :
  odds_above 0 odds ->
  forall x, In x (map (fun k => 1 / odds_at odds k) (outcome_keys odds)) -> 0 < x.
Proof.
  intros H x Hx. apply in_map_iff in Hx. destruct Hx as (k & <- & Hk).
  destruct (odds_above_at _ _ _ H Hk) as [_ Hpos].
  apply Rdiv_lt_0_compat; lra.
Qed.

Lemma devig_adjusted_pos (odds : dict pyval) (k : string) :
  0 < devig_adjusted odds k.
Proof. unfold devig_adjusted. apply Rdiv_lt_0_compat; apply Rpower_pos. Qed.

(** On a well-formed mapping whose outcomes all have positive float odds,
    no step of [remove_vig_multiplicative] raises and the result is the
    closed form. *)
Lemma remove_vig_positive (odds : dict pyval) :
  wf_dict odds -> outcome_keys odds <> [] -> odds_above 0 odds ->
  remove_vig_multiplicative odds = Ok (Some (devig_closed_form odds)).
Proof.
  intros Hwf Hne Hpos.
  pose proof (outcome_keys_NoDup _ Hwf) as Hnd.
  unfold remove_vig_multiplicative, remove_vig_body, devig_closed_form.
  set (ks := outcome_keys odds) in *.
  rewrite (dict_build_fresh (fun k => k) _ (fun k => 1 / odds_at odds k) _ []);
    [|now rewrite map_id|intros ? ? []|].
  2:{ intros k Hk. destruct (odds_above_at _ _ _ Hpos Hk) as [Hget Hlt].
      unfold getitem. rewrite Hget. simpl.
      destruct (Req_dec_T (odds_at odds k) 0); [lra|reflexivity]. }
  simpl app. cbn [bind].
  destruct ks as [|k1 [|k2 rest]] eqn:Eks; [congruence|reflexivity|].
  rewrite <- Eks in *. clear Hne.
  assert (Hlen : (2 <= List.length ks)%nat) by (rewrite Eks; simpl; lia).
  pose proof (devig_exponent_pos _ Hlen) as He. unfold devig_exponent in He.
  set (implied := map (fun k => (k, 1 / odds_at odds k)) ks).
  assert (Hvals : dvalues implied = map (fun k => 1 / odds_at odds k) ks).
  { unfold implied, dvalues. rewrite map_map. reflexivity. }
  rewrite Hvals, sum_floats_Rsum.
  assert (Htot : 0 < Rsum (map (fun k => 1 / odds_at odds k) ks)).
  { apply Rsum_pos; [rewrite Eks; discriminate|now apply implied_probs_positive]. }
  rewrite (dict_build_fresh (fun k => k) _ (fun k => Fl (devig_adjusted odds k)) _ []);
    [|now rewrite map_id|intros ? ? []|].
  2:{ intros k Hk. unfold getitem, implied.
      rewrite (dget_map_keys (fun k => 1 / odds_at odds k) ks k Hk). cbn [bind].
      destruct (odds_above_at _ _ _ Hpos Hk) as [_ Hlt].
      rewrite float_pow_pos; [|apply Rdiv_lt_0_compat; lra|lra]. cbn [bind].
      rewrite float_pow_pos; [|exact Htot|lra]. cbn [bind].
      unfold num_div. destruct (Req_dec_T _ 0) as [E|_].
      - pose proof (Rpower_pos (Rsum (map (fun k => 1 / odds_at odds k) ks))
                      (1 / ((INR (List.length ks) - 1) / INR (List.length ks)))). lra.
      - reflexivity. }
  simpl app. cbn [bind].
  set (adjusted := map (fun k => (k, Fl (devig_adjusted odds k))) ks).
  assert (Hadj : dvalues adjusted = map Fl (map (devig_adjusted odds) ks)).
  { unfold adjusted, dvalues. now rewrite !map_map. }
  rewrite Hadj, sum_nums_Fl.
  assert (HS : 0 < Rsum (map (devig_adjusted odds) ks)).
  { apply Rsum_pos; [rewrite Eks; discriminate|].
    intros x Hx. apply in_map_iff in Hx. destruct Hx as (k & <- & _).
    apply devig_adjusted_pos. }
  unfold adjusted. rewrite dict_build_map.
  rewrite (dict_build_fresh _ _ (fun k => Fl (devig_probability odds k)) _ []);
    [|simpl; now rewrite map_id|intros ? ? []|].
  2:{ intros k Hk. simpl. destruct (Req_dec_T _ 0); [lra|reflexivity]. }
  reflexivity.
Qed.

Lemma devig_closed_form_keys (odds : dict pyval) :
  dkeys (devig_closed_form odds) = outcome_keys odds.
Proof.
  unfold devig_closed_form.
  destruct (outcome_keys odds) as [|k1 [|k2 rest]]; [reflexivity|reflexivity|].
  unfold dkeys. rewrite map_map. simpl. now rewrite map_id.
Qed.

Lemma devig_probability_sum (odds : dict pyval) :
  outcome_keys odds <> [] ->
  Rsum (map (devig_probability odds) (outcome_keys odds)) = 1.
Proof.
  intros Hne. unfold devig_probability. rewrite Rsum_map_div.
  assert (0 < Rsum (map (devig_adjusted odds) (outcome_keys odds))).
  { apply Rsum_pos.
    - destruct (outcome_keys odds); [congruence|discriminate].
    - intros x Hx. apply in_map_iff in Hx. destruct Hx as (k & <- & _).
      apply devig_adjusted_pos. }
  field. lra.
Qed.

Lemma devig_probability_range (odds : dict pyval) (k : string) :
  In k (outcome_keys odds) -> 0 < devig_probability odds k <= 1.
Proof.
  intros Hk. unfold devig_probability.
  set (S := Rsum (map (devig_adjusted odds) (outcome_keys odds))).
  assert (Hle : devig_adjusted odds k <= S).
  { apply Rsum_ge_member.
    - intros y Hy. apply in_map_iff in Hy. destruct Hy as (k' & <- & _).
      left. apply devig_adjusted_pos.
    - now apply in_map. }
  pose proof (devig_adjusted_pos odds k) as Hpos.
  assert (HS : 0 < S) by lra.
  split.
  - now apply Rdiv_lt_0_compat.
  - apply Rmult_le_reg_r with S; [exact HS|].
    unfold Rdiv. rewrite Rmult_assoc, Rinv_l by lra. lra.
Qed.

Lemma devig_closed_form_sum (odds : dict pyval) :
  outcome_keys odds <> [] ->
  sum_nums (dvalues (devig_closed_form odds)) = Fl 1.
Proof.
  intros Hne. pose proof (devig_probability_sum odds Hne) as Hsum.
  unfold devig_closed_form.
  destruct (outcome_keys odds) as [|k1 [|k2 rest]] eqn:E; [congruence| |].
  - unfold sum_nums. simpl. f_equal. lra.
  - unfold dvalues. rewrite map_map. simpl snd.
    rewrite <- (map_map (devig_probability odds) Fl), sum_nums_Fl.
    now rewrite Hsum.
Qed.

Lemma devig_closed_form_values (odds : dict pyval) (k : string) (v : num) :
  In (k, v) (devig_closed_form odds) ->
  In k (outcome_keys odds) /\ exists p, v = Fl p /\ 0 < p <= 1.
Proof.
  unfold devig_closed_form.
  destruct (outcome_keys odds) as [|k1 [|k2 rest]] eqn:E; [contradiction| |].
  - intros [[= <- <-]|[]]. split; [now left|]. exists 1. split; [reflexivity|lra].
  - intros Hin. apply in_map_iff in Hin. destruct Hin as (k' & [= <- <-] & Hk').
    split; [exact Hk'|]. exists (devig_probability odds k'). split; [reflexivity|].
    apply devig_probability_range. now rewrite E.
Qed.

Lemma odds_above_weaken (lo hi : R) (odds : dict pyval) :
  lo <= hi -> odds_above hi odds -> odds_above lo odds.
Proof.
  intros Hle H k Hk. destruct (H k Hk) as (o & Hget & Hlt).
  exists o. split; [exact Hget|lra].
Qed.

(** In exact arithmetic a well-formed odds mapping with at least one outcome
    left after dropping "margin" and "line", all of whose outcomes have
    decimal odds above 1.0, is de-vigged to a mapping over exactly those
    outcome keys (in the same order) whose values are floats in (0, 1] and
    sum to exactly 1. *)
Lemma remove_vig_exact_sums_to_one (odds : dict pyval) :
  wf_dict odds ->
  outcome_keys odds <> [] ->
  odds_above 1 odds ->
  exists probs : dict num,
    remove_vig_multiplicative odds = Ok (Some probs) /\
    dkeys probs = outcome_keys odds /\
    (forall k v, In (k, v) probs -> exists p, v = Fl p /\ 0 < p <= 1) /\
    sum_nums (dvalues probs) = Fl 1.
Proof.
  intros Hwf Hne Habove.
  exists (devig_closed_form odds). repeat split.
  - apply remove_vig_positive; [exact Hwf|exact Hne|].
    apply odds_above_weaken with 1; [lra|exact Habove].
  - apply devig_closed_form_keys.
  - intros k v Hin. now destruct (devig_closed_form_values odds k v Hin).
  - now apply devig_closed_form_sum.
Qed.

Lemma example_market_wf : wf_dict example_market.
Proof.
  unfold wf_dict, example_market. simpl.
  repeat constructor; simpl; intuition discriminate.
Defined.

Lemma example_market_above_1 : odds_above 1 example_market.
Proof.
  intros k Hk. cbv in Hk.
  destruct Hk as [<-|[<-|[<-|[]]]]; eexists; (split; [reflexivity|lra]).
Defined.

(** ** Markets with at most one outcome *)

Lemma remove_vig_no_outcome (odds : dict pyval) :
  outcome_keys odds = [] -> remove_vig_multiplicative odds = Ok None.
Proof.
  intros E. unfold remove_vig_multiplicative, remove_vig_body. rewrite E. reflexivity.
Qed.

Lemma remove_vig_single_outcome (odds : dict pyval) (k : string) (o : R) :
  outcome_keys odds = [k] -> dget odds k = Some (VFloat o) -> o <> 0 ->
  remove_vig_multiplicative odds = Ok (Some [(k, Fl 1)]).
Proof.
  intros E Hget Ho. unfold remove_vig_multiplicative, remove_vig_body. rewrite E.
  simpl. unfold getitem. rewrite Hget. simpl.
  destruct (Req_dec_T o 0); [contradiction|reflexivity].
Qed.

(** ** Evaluating the engine on concrete markets *)

Ltac decide_real :=
  match goal with
  | |- context [Req_dec_T ?a ?b] =>
      destruct (Req_dec_T a b); [try (exfalso; lra)|try (exfalso; lra)]
  | |- context [Rlt_dec ?a ?b] =>
      destruct (Rlt_dec a b); [try (exfalso; lra)|try (exfalso; lra)]
  | |- context [Rle_dec ?a ?b] =>
      destruct (Rle_dec a b); [try (exfalso; lra)|try (exfalso; lra)]
  end.

Ltac py_eval :=
  cbn [dict_build bind getitem dget String.eqb Ascii.eqb Bool.eqb inverse_odds
       dset List.length dvalues dkeys map snd fst sum_floats sum_nums fold_left
       num_add num_div try_except to_complex vig_handled].

Lemma as_integer_IZR (z : Z) : as_integer (IZR z) = Some z.
Proof.
  unfold as_integer.
  assert (H : Int_part (IZR z) = z).
  { unfold Int_part. rewrite <- (tech_up (IZR z) (z + 1)).
    - lia.
    - rewrite plus_IZR. lra.
    - rewrite plus_IZR. lra. }
  rewrite H. destruct (Req_dec_T (IZR z) (IZR z)); [reflexivity|congruence].
Qed.

Lemma Rpower_two (x : R) : 0 < x -> Rpower x 2 = x * x.
Proof.
  intros Hx. replace 2 with (1 + 1) by lra.
  rewrite Rpower_plus, Rpower_1 by exact Hx. reflexivity.
Qed.

(** With two outcomes the exponent of the power method is 2, and squaring
    stays real for a negative base. *)
Lemma exponent_two : 1 / ((INR 2 - 1) / INR 2) = 2.
Proof. simpl. field. Qed.

Lemma float_pow_two (x : R) : x <> 0 -> float_pow x 2 = Ok (Fl (x * x)).
Proof.
  intros Hx. unfold float_pow.
  destruct (Req_dec_T 2 0); [lra|].
  destruct (Req_dec_T x 0); [contradiction|].
  destruct (Rlt_dec x 0).
  - rewrite (as_integer_IZR 2). simpl. rewrite Rpower_two by lra.
    replace (- x * - x) with (x * x) by ring. reflexivity.
  - rewrite Rpower_two by lra. reflexivity.
Qed.

(** A [None] among the values (what [dict.get] yields for a missing key)
    makes [1.0 / odds[k]] raise [TypeError], which the [except] clause does
    not list. *)
Lemma remove_vig_none_value_raises :
  remove_vig_multiplicative
    [("home", VFloat 2); ("draw", VNone); ("away", VFloat 2)] = Raise TypeError.
Proof.
  unfold remove_vig_multiplicative, remove_vig_body.
  change (outcome_keys _) with ["home"; "draw"; "away"].
  py_eval. repeat decide_real. reflexivity.
Qed.

(** Negative odds are not answered by None: the two-outcome market
    {home: -2, away: 3} is de-vigged to {home: 9/13, away: 4/13} (the
    exponent is 2, and the squares hide the sign). *)
Lemma negative_odds_de_vigged :
  remove_vig_multiplicative [("home", VFloat (-2)); ("away", VFloat 3)]
  = Ok (Some [("home", Fl (9 / 13)); ("away", Fl (4 / 13))]).
Proof.
  unfold remove_vig_multiplicative, remove_vig_body.
  change (outcome_keys _) with ["home"; "away"].
  py_eval. repeat decide_real. py_eval.
  rewrite exponent_two, !float_pow_two by lra.
  py_eval. repeat decide_real. py_eval. repeat decide_real. py_eval.
  do 2 f_equal. repeat f_equal; field.
Qed.

(** ** Edge and Kelly stake *)

Lemma kelly_stake_guard (edge odds bankroll kelly_fraction : R) :
  edge <= 0 \/ odds <= 1 -> kelly_stake edge odds bankroll kelly_fraction = Ok 0.
Proof.
  intros H. unfold kelly_stake.
  destruct (Rle_dec edge 0); [reflexivity|].
  destruct (Rle_dec odds 1); [reflexivity|]. lra.
Qed.

(** Past the guard no division raises, and the Kelly fraction is
    [edge / (odds - 1)]. *)
Lemma kelly_stake_sized (edge odds bankroll kelly_fraction : R) :
  0 < edge -> 1 < odds ->
  kelly_stake edge odds bankroll kelly_fraction =
  Ok (Rmin (Rmax 0 (edge / (odds - 1) * kelly_fraction) * bankroll)
           (bankroll * MAX_STAKE_PERCENTAGE)).
Proof.
  intros He Ho. unfold kelly_stake, kelly_probability, float_div.
  destruct (Rle_dec edge 0); [lra|].
  destruct (Rle_dec odds 1); [lra|].
  destruct (Req_dec_T odds 0); [lra|]. cbn [bind].
  destruct (Req_dec_T (odds - 1) 0); [lra|]. cbn [bind].
  do 4 f_equal. field. lra.
Qed.

(** C2 (as stated) fails for a negative bankroll: with edge 0.1, odds 2 and
    quarter Kelly, a bankroll of -1000 gives the stake -50. *)
Lemma kelly_stake_negative_bankroll :
  kelly_stake (1 / 10) 2 (-1000) KELLY_FRACTION = Ok (-50).
Proof.
  rewrite kelly_stake_sized by lra.
  unfold KELLY_FRACTION, MAX_STAKE_PERCENTAGE, Rmin, Rmax.
  repeat decide_real; f_equal; lra.
Qed.

(** C2 (amended).  [kelly_stake] always returns (no division raises); the
    stake is exactly 0 whenever edge <= 0 or odds <= 1.0; for a bankroll
    that is not negative the stake lies between 0 and
    bankroll * MAX_STAKE_PERCENTAGE, so a zero bankroll gives a zero stake;
    and for positive edge and odds above 1 the stake never exceeds
    bankroll * MAX_STAKE_PERCENTAGE. *)
Theorem kelly_stake_bounds (edge odds bankroll kelly_fraction : R) :
  exists stake,
    kelly_stake edge odds bankroll kelly_fraction = Ok stake /\
    (edge <= 0 \/ odds <= 1 -> stake = 0) /\
    (0 <= bankroll -> 0 <= stake <= bankroll * MAX_STAKE_PERCENTAGE) /\
    (bankroll = 0 -> stake = 0) /\
    (0 < edge -> 1 < odds -> stake <= bankroll * MAX_STAKE_PERCENTAGE).
Proof.
  destruct (Rle_dec edge 0) as [He|He];
    [|destruct (Rle_dec odds 1) as [Ho|Ho]].
  1,2: exists 0; rewrite kelly_stake_guard by lra;
       unfold MAX_STAKE_PERCENTAGE; repeat split; intros; lra.
  exists (Rmin (Rmax 0 (edge / (odds - 1) * kelly_fraction) * bankroll)
               (bankroll * MAX_STAKE_PERCENTAGE)).
  rewrite kelly_stake_sized by lra.
  pose proof (Rmax_l 0 (edge / (odds - 1) * kelly_fraction)) as Hmax.
  pose proof (Rmin_r (Rmax 0 (edge / (odds - 1) * kelly_fraction) * bankroll)
                     (bankroll * MAX_STAKE_PERCENTAGE)) as Hcap.
  split; [reflexivity|]. split; [intros; lra|]. split; [|split].
  - intros Hb. split; [|exact Hcap].
    apply Rmin_glb; [apply Rmult_le_pos; lra|unfold MAX_STAKE_PERCENTAGE; lra].
  - intros ->. rewrite !Rmult_0_r, Rmult_0_l. apply Rmin_left. lra.
  - intros _ _. exact Hcap.
Qed.

(** In exact arithmetic, for odds > 0, the probability [kelly_stake] backs
    out of [calculate_edge true_prob odds] at the same odds is [true_prob]
    (the division does not raise), and when the guard is passed the stake is
    sized with the Kelly fraction of [true_prob] itself,
    [((odds - 1) * true_prob - (1 - true_prob)) / (odds - 1)]. *)
Lemma kelly_roundtrip_exact (true_prob odds : R) :
  0 < odds ->
  kelly_probability (calculate_edge true_prob odds) odds = Ok true_prob /\
  forall bankroll kelly_fraction,
    0 < calculate_edge true_prob odds -> 1 < odds ->
    kelly_stake (calculate_edge true_prob odds) odds bankroll kelly_fraction =
    Ok (Rmin (Rmax 0 (((odds - 1) * true_prob - (1 - true_prob)) / (odds - 1)
                      * kelly_fraction) * bankroll)
             (bankroll * MAX_STAKE_PERCENTAGE)).
Proof.
  intros Ho. split.
  - unfold kelly_probability, float_div, calculate_edge.
    destruct (Req_dec_T odds 0); [lra|]. f_equal. field. lra.
  - intros bankroll kelly_fraction He Ho1.
    rewrite kelly_stake_sized by lra. unfold calculate_edge.
    do 4 f_equal. field. lra.
Qed.

(** ** Home/away swap detection *)

Lemma check_home_away_swap_unfold (soft anchor : dict pyval) (np ap : dict num) :
  remove_vig_multiplicative soft = Ok (Some np) -> np <> [] ->
  remove_vig_multiplicative anchor = Ok (Some ap) -> ap <> [] ->
  check_home_away_swap soft anchor =
  if dmem soft "home" && dmem soft "away" then
    swapped_probs <- remove_vig_multiplicative (swapped_odds soft) ;;
    if truthy swapped_probs then
      if Rlt_dec (divergence (or_empty swapped_probs) ap + 5 / 100) (divergence np ap)
      then Ok (or_empty swapped_probs) else Ok np
    else Ok np
  else Ok np.
Proof.
  intros Hn Hnne Ha Hane. unfold check_home_away_swap.
  rewrite Hn, Ha. cbn [bind].
  destruct np as [|x np]; [congruence|]. destruct ap as [|y ap]; [congruence|].
  reflexivity.
Qed.

Lemma check_home_away_swap_keeps (soft anchor : dict pyval) (np ap : dict num) :
  remove_vig_multiplicative soft = Ok (Some np) -> np <> [] ->
  remove_vig_multiplicative anchor = Ok (Some ap) -> ap <> [] ->
  dmem soft "home" && dmem soft "away" = false ->
  check_home_away_swap soft anchor = Ok np.
Proof.
  intros Hn Hnne Ha Hane Hkeys.
  rewrite (check_home_away_swap_unfold soft anchor np ap) by assumption.
  now rewrite Hkeys.
Qed.

Lemma check_home_away_swap_decides (soft anchor : dict pyval) (np ap sp : dict num) :
  remove_vig_multiplicative soft = Ok (Some np) -> np <> [] ->
  remove_vig_multiplicative anchor = Ok (Some ap) -> ap <> [] ->
  dmem soft "home" = true -> dmem soft "away" = true ->
  remove_vig_multiplicative (swapped_odds soft) = Ok (Some sp) -> sp <> [] ->
  check_home_away_swap soft anchor =
  Ok (if Rlt_dec (divergence sp ap + 5 / 100) (divergence np ap) then sp else np).
Proof.
  intros Hn Hnne Ha Hane Hh Haw Hs Hsne.
  rewrite (check_home_away_swap_unfold soft anchor np ap) by assumption.
  rewrite Hh, Haw, Hs. cbn [andb bind].
  destruct sp as [|z sp]; [congruence|]. cbn [truthy or_empty].
  now destruct (Rlt_dec _ _).
Qed.

Lemma num_abs_sub_self (v : num) : num_abs (num_sub v v) = 0.
Proof.
  destruct v as [x|re im]; simpl.
  - replace (x - x) with 0 by lra. apply Rabs_R0.
  - replace ((re - re) * (re - re) + (im - im) * (im - im)) with 0 by ring.
    apply sqrt_0.
Qed.

Lemma num_abs_nonneg (v : num) : 0 <= num_abs v.
Proof. destruct v; simpl; [apply Rabs_pos|apply sqrt_pos]. Qed.

Lemma divergence_self (d : dict num) : divergence d d = 0.
Proof.
  unfold divergence. rewrite sum_floats_Rsum.
  induction (dkeys d) as [|k ks IH]; simpl; [reflexivity|].
  rewrite num_abs_sub_self, IH. lra.
Qed.

Lemma devig_probability_ratio (odds : dict pyval) (k : string) :
  odds_above 0 odds -> outcome_keys odds <> [] ->
  let e := devig_exponent (List.length (outcome_keys odds)) in
  devig_probability odds k =
  Rpower (1 / odds_at odds k) e /
  Rsum (map (fun j => Rpower (1 / odds_at odds j) e) (outcome_keys odds)).
Proof.
  intros Hpos Hne e. unfold devig_probability, devig_adjusted. fold e.
  set (T := Rpower (Rsum _) e).
  rewrite (Rsum_map_div (fun j => Rpower (1 / odds_at odds j) e) T).
  assert (0 < T) by apply Rpower_pos.
  assert (0 < Rsum (map (fun j => Rpower (1 / odds_at odds j) e) (outcome_keys odds))).
  { apply Rsum_pos.
    - destruct (outcome_keys odds); [congruence|discriminate].
    - intros x Hx. apply in_map_iff in Hx. destruct Hx as (j & <- & _).
      apply Rpower_pos. }
  field. lra.
Qed.

(** With three outcomes the exponent of the power method is 3/2. *)
Lemma exponent_three : devig_exponent 3 = 3 / 2.
Proof. unfold devig_exponent. simpl. field. Qed.

Lemma Rpower_three_halves (x : R) : 0 < x -> Rpower x (3 / 2) = x * sqrt x.
Proof.
  intros Hx. replace (3 / 2) with (1 + / 2) by lra.
  rewrite Rpower_plus, Rpower_1, Rpower_sqrt by exact Hx. reflexivity.
Qed.

Lemma sqrt_lower (x c : R) : 0 <= c -> c * c <= x -> c <= sqrt x.
Proof.
  intros Hc H. rewrite <- (sqrt_square c Hc). now apply sqrt_le_1_alt.
Qed.

Lemma sqrt_upper (x c : R) : 0 <= c -> x <= c * c -> sqrt x <= c.
Proof.
  intros Hc H. rewrite <- (sqrt_square c Hc). now apply sqrt_le_1_alt.
Qed.

Lemma swap_example_anchor_pos : odds_above 0 swap_example_anchor.
Proof.
  intros k Hk. cbv in Hk.
  destruct Hk as [<-|[<-|[<-|[]]]]; eexists; (split; [reflexivity|lra]).
Qed.

Lemma swap_example_soft_pos : odds_above 0 swap_example_soft.
Proof.
  intros k Hk. cbv in Hk.
  destruct Hk as [<-|[<-|[<-|[]]]]; eexists; (split; [reflexivity|lra]).
Qed.

Lemma swap_example_wf :
  wf_dict swap_example_anchor /\ wf_dict swap_example_soft.
Proof.
  split; unfold wf_dict; simpl; repeat constructor; simpl; intuition discriminate.
Qed.

(** The de-vigged home probability of the anchor and of the soft book in the
    swap example, with [x ^ (3/2)] written as [x * sqrt x]. *)
Lemma swap_example_anchor_home :
  devig_probability swap_example_anchor "home" =
  2 / 3 * sqrt (2 / 3) /
  (2 / 3 * sqrt (2 / 3) + (1 / 4 * sqrt (1 / 4) + (1 / 6 * sqrt (1 / 6) + 0))).
Proof.
  rewrite (devig_probability_ratio swap_example_anchor _ swap_example_anchor_pos)
    by discriminate.
  change (outcome_keys swap_example_anchor) with ["home"; "draw"; "away"].
  change (List.length ["home"; "draw"; "away"]) with 3%nat.
  rewrite exponent_three. cbn [map Rsum fold_right].
  change (odds_at swap_example_anchor "home") with (3 / 2).
  change (odds_at swap_example_anchor "draw") with 4.
  change (odds_at swap_example_anchor "away") with 6.
  replace (1 / (3 / 2)) with (2 / 3) by field.
  rewrite !Rpower_three_halves by lra. reflexivity.
Qed.

Lemma swap_example_soft_home :
  devig_probability swap_example_soft "home" =
  1 / 6 * sqrt (1 / 6) /
  (1 / 6 * sqrt (1 / 6) + (1 / 4 * sqrt (1 / 4) + (2 / 3 * sqrt (2 / 3) + 0))).
Proof.
  rewrite (devig_probability_ratio swap_example_soft _ swap_example_soft_pos)
    by discriminate.
  change (outcome_keys swap_example_soft) with ["home"; "draw"; "away"].
  change (List.length ["home"; "draw"; "away"]) with 3%nat.
  rewrite exponent_three. cbn [map Rsum fold_right].
  change (odds_at swap_example_soft "home") with 6.
  change (odds_at swap_example_soft "draw") with 4.
  change (odds_at swap_example_soft "away") with (3 / 2).
  replace (1 / (3 / 2)) with (2 / 3) by field.
  rewrite !Rpower_three_halves by lra. reflexivity.
Qed.

Lemma swap_example_home_gap :
  5 / 100 <
  Rabs (devig_probability swap_example_soft "home"
        - devig_probability swap_example_anchor "home").
Proof.
  rewrite swap_example_anchor_home, swap_example_soft_home.
  set (h := 2 / 3 * sqrt (2 / 3)).
  set (d := 1 / 4 * sqrt (1 / 4)).
  set (a := 1 / 6 * sqrt (1 / 6)).
  assert (Hh : 1 / 2 <= h <= 2 / 3).
  { pose proof (sqrt_lower (2 / 3) (3 / 4)). pose proof (sqrt_upper (2 / 3) 1).
    unfold h. lra. }
  assert (Hd : 0 <= d <= 1 / 4).
  { pose proof (sqrt_pos (1 / 4)). pose proof (sqrt_upper (1 / 4) 1). unfold d. lra. }
  assert (Ha : 0 <= a <= 1 / 12).
  { pose proof (sqrt_pos (1 / 6)). pose proof (sqrt_upper (1 / 6) (1 / 2)).
    unfold a. lra. }
  replace (a / (a + (d + (h + 0))) - h / (h + (d + (a + 0))))
    with (- ((h - a) / (h + d + a))) by (field; lra).
  rewrite Rabs_Ropp, Rabs_pos_eq.
  - apply Rmult_lt_reg_r with (h + d + a); [lra|].
    unfold Rdiv at 2. rewrite Rmult_assoc, Rinv_l by lra. lra.
  - apply Rmult_le_pos; [lra|]. left. apply Rinv_0_lt_compat. lra.
Qed.

Lemma swap_example_divergence :
  divergence (devig_closed_form swap_example_anchor)
             (devig_closed_form swap_example_anchor) + 5 / 100
  < divergence (devig_closed_form swap_example_soft)
               (devig_closed_form swap_example_anchor).
Proof.
  rewrite divergence_self.
  unfold divergence. rewrite sum_floats_Rsum.
  change (dkeys (devig_closed_form swap_example_anchor)) with ["home"; "draw"; "away"].
  cbn [map Rsum fold_right].
  change (get_or_zero (devig_closed_form swap_example_soft) "home")
    with (Fl (devig_probability swap_example_soft "home")).
  change (get_or_zero (devig_closed_form swap_example_anchor) "home")
    with (Fl (devig_probability swap_example_anchor "home")).
  change (num_abs (num_sub (Fl (devig_probability swap_example_soft "home"))
                           (Fl (devig_probability swap_example_anchor "home"))))
    with (Rabs (devig_probability swap_example_soft "home"
                - devig_probability swap_example_anchor "home")).
  pose proof swap_example_home_gap as Hgap.
  pose proof (num_abs_nonneg
    (num_sub (get_or_zero (devig_closed_form swap_example_soft) "draw")
             (get_or_zero (devig_closed_form swap_example_anchor) "draw"))).
  pose proof (num_abs_nonneg
    (num_sub (get_or_zero (devig_closed_form swap_example_soft) "away")
             (get_or_zero (devig_closed_form swap_example_anchor) "away"))).
  lra.
Qed.

(** In the spec's example the swapped interpretation is adopted: the result
    is the de-vig of the soft odds with home and away exchanged, which is the
    anchor's own probability mapping. *)
Lemma swap_example_adopts_swapped :
  check_home_away_swap swap_example_soft swap_example_anchor =
  Ok (devig_closed_form (swapped_odds swap_example_soft)).
Proof.
  destruct swap_example_wf as [Hwa Hws].
  rewrite (check_home_away_swap_decides swap_example_soft swap_example_anchor
             (devig_closed_form swap_example_soft)
             (devig_closed_form swap_example_anchor)
             (devig_closed_form (swapped_odds swap_example_soft))).
  - change (swapped_odds swap_example_soft) with swap_example_anchor.
    destruct (Rlt_dec _ _) as [_|Hn]; [reflexivity|].
    exfalso. apply Hn. exact swap_example_divergence.
  - apply remove_vig_positive; [exact Hws|discriminate|exact swap_example_soft_pos].
  - discriminate.
  - apply remove_vig_positive; [exact Hwa|discriminate|exact swap_example_anchor_pos].
  - discriminate.
  - reflexivity.
  - reflexivity.
  - change (swapped_odds swap_example_soft) with swap_example_anchor.
    apply remove_vig_positive; [exact Hwa|discriminate|exact swap_example_anchor_pos].
  - discriminate.
Qed.

Lemma swap_example_changes_result :
  devig_closed_form (swapped_odds swap_example_soft)
  <> devig_closed_form swap_example_soft.
Proof.
  intros Heq.
  assert (H : get_or_zero (devig_closed_form (swapped_odds swap_example_soft)) "home"
              = get_or_zero (devig_closed_form swap_example_soft) "home")
    by now rewrite Heq.
  change (Fl (devig_probability swap_example_anchor "home")
          = Fl (devig_probability swap_example_soft "home")) in H.
  injection H as H. pose proof swap_example_home_gap as Hgap.
  rewrite H in Hgap.
  replace (devig_probability swap_example_soft "home"
           - devig_probability swap_example_soft "home") with 0 in Hgap by lra.
  rewrite Rabs_R0 in Hgap. lra.
Qed.

End ValueAnalyzerFacts.

(* ===================================================================== *)
(** * The odds engine in binary64 *)
(* ===================================================================== *)

Module FloatArithFacts.

Import Settings ValueAnalyzer Vocabulary ValueAnalyzerFacts FloatArith.
Local Open Scope R_scope.

(** ** Powers of two *)

Lemma pw_pos (k : Z) : 0 < pw k.
Proof. unfold pw, Rpower. apply exp_pos. Qed.

Lemma pw_add (a b : Z) : pw (a + b) = pw a * pw b.
Proof. unfold pw. rewrite plus_IZR. apply Rpower_plus. Qed.

Lemma pw_0 : pw 0 = 1.
Proof. unfold pw. apply Rpower_O. lra. Qed.

Lemma pw_1 : pw 1 = 2.
Proof. unfold pw. apply Rpower_1. lra. Qed.

Lemma pw_opp (k : Z) : pw (- k) = / pw k.
Proof. unfold pw. rewrite opp_IZR. apply Rpower_Ropp. Qed.

Lemma pw_le (a b : Z) : (a <= b)%Z -> pw a <= pw b.
Proof.
  intros H. unfold pw. apply Rle_Rpower; [lra|]. now apply IZR_le.
Qed.

Lemma pw_lt (a b : Z) : (a < b)%Z -> pw a < pw b.
Proof.
  intros H. unfold pw. apply Rpower_lt; [lra|]. now apply IZR_lt.
Qed.

Lemma pw_nat (n : nat) : pw (Z.of_nat n) = 2 ^ n.
Proof. unfold pw. rewrite <- INR_IZR_INZ. apply Rpower_pow. lra. Qed.

(** ** Sums of floats *)

Lemma sum_floats_from (xs : list R) (a : R) :
  fold_left Rplus xs a = a + sum_floats xs.
Proof.
  unfold sum_floats. revert a. induction xs as [|x xs IH]; intros a; cbn [fold_left].
  - lra.
  - rewrite (IH (a + x)), (IH (0 + x)). lra.
Qed.

Lemma sum_floats_cons (x : R) (xs : list R) :
  sum_floats (x :: xs) = x + sum_floats xs.
Proof.
  unfold sum_floats at 1. cbn [fold_left]. rewrite sum_floats_from. lra.
Qed.

Lemma sum_floats_nonneg (xs : list R) :
  (forall x, In x xs -> 0 <= x) -> 0 <= sum_floats xs.
Proof.
  induction xs as [|x xs IH]; intros H.
  - unfold sum_floats. cbn. lra.
  - rewrite sum_floats_cons.
    assert (0 <= x) by (apply H; now left).
    assert (0 <= sum_floats xs) by (apply IH; intros y Hy; apply H; now right).
    lra.
Qed.

(** ** Ranges of powers of two *)

Lemma rng_pos (a b : Z) (x : R) : rng a b x -> 0 < x.
Proof. intros [H _]. pose proof (pw_pos a). lra. Qed.

Lemma rng_weaken (a b a' b' : Z) (x : R) :
  rng a b x -> (a' <= a)%Z -> (b <= b')%Z -> rng a' b' x.
Proof.
  intros [H1 H2] Ha Hb. pose proof (pw_le _ _ Ha). pose proof (pw_le _ _ Hb).
  split; lra.
Qed.

Lemma pw_sub (a b : Z) : pw (a - b) = pw a / pw b.
Proof.
  replace (a - b)%Z with (a + - b)%Z by lia.
  now rewrite pw_add, pw_opp.
Qed.

Lemma rng_div (a b c d : Z) (x y : R) :
  rng a b x -> rng c d y -> rng (a - d) (b - c) (x / y).
Proof.
  intros [Hx1 Hx2] [Hy1 Hy2].
  pose proof (pw_pos a). pose proof (pw_pos b).
  pose proof (pw_pos c). pose proof (pw_pos d).
  assert (Hy : 0 < y) by lra.
  unfold rng. rewrite !pw_sub. split.
  - apply Rle_trans with (pw a / y).
    + unfold Rdiv. apply Rmult_le_compat_l; [lra|].
      apply Rinv_le_contravar; lra.
    + unfold Rdiv. apply Rmult_le_compat_r; [|lra].
      left. now apply Rinv_0_lt_compat.
  - apply Rle_trans with (pw b / y).
    + unfold Rdiv. apply Rmult_le_compat_r; [|lra].
      left. now apply Rinv_0_lt_compat.
    + unfold Rdiv. apply Rmult_le_compat_l; [lra|].
      apply Rinv_le_contravar; lra.
Qed.

Lemma pw_m1 : pw (-1) = / 2.
Proof. pose proof (pw_opp 1) as H. cbn [Z.opp] in H. now rewrite H, pw_1. Qed.

Lemma eps_small : eps <= / 16.
Proof.
  unfold eps. apply Rle_trans with (pw (-4)); [apply pw_le; lia|].
  pose proof (pw_opp 4) as H. cbn [Z.opp] in H. rewrite H.
  change 4%Z with (Z.of_nat 4). rewrite pw_nat. simpl. lra.
Qed.

Lemma eps_pos : 0 < eps.
Proof. apply pw_pos. Qed.

Lemma Rabs_bound (x c : R) : Rabs x <= c -> - c <= x <= c.
Proof. unfold Rabs. destruct (Rcase_abs x); lra. Qed.

(** A value within relative error [c <= 1/2] of [q] lies within a factor 2. *)
Lemma close_rng (a b : Z) (q r c : R) :
  rng a b q -> 0 <= c <= / 2 -> Rabs (r - q) <= c * q ->
  rng (a - 1) (b + 1) r.
Proof.
  intros [H1 H2] Hc Hr. pose proof (pw_pos a) as Ha.
  assert (Hq : 0 < q) by lra.
  apply Rabs_bound in Hr.
  unfold rng. rewrite pw_sub, pw_add, pw_1. split.
  - apply Rle_trans with (q / 2); [unfold Rdiv; apply Rmult_le_compat_r; lra|].
    nra.
  - apply Rle_trans with (q * 2); [nra|]. apply Rmult_le_compat_r; lra.
Qed.

Lemma rng_normal (a b : Z) (q : R) :
  rng a b q -> (-1022 <= a)%Z -> (b <= 1023)%Z -> tiny <= Rabs q <= huge.
Proof.
  intros H Ha Hb. pose proof (rng_pos _ _ _ H) as Hq.
  rewrite Rabs_pos_eq by lra.
  destruct (rng_weaken _ _ (-1022) 1023 _ H Ha Hb). now split.
Qed.

Lemma ln_pw (k : Z) : ln (pw k) = IZR k * ln 2.
Proof. unfold pw, Rpower. apply ln_exp. Qed.

Lemma ln_2_pos : 0 < ln 2.
Proof. rewrite <- ln_1. apply ln_increasing; lra. Qed.

Lemma exp_monotone (x y : R) : x <= y -> exp x <= exp y.
Proof.
  intros [H|H]; [left; now apply exp_increasing|right; now rewrite H].
Qed.

Lemma rng_pow (a b : Z) (x y : R) :
  rng a b x -> (a <= 0 <= b)%Z -> 0 <= y <= 3 ->
  rng (3 * a) (3 * b) (Rpower x y).
Proof.
  intros H [Ha Hb] [Hy0 Hy3]. pose proof (rng_pos _ _ _ H) as Hx.
  destruct H as [H1 H2].
  assert (L1 : IZR a * ln 2 <= ln x).
  { rewrite <- ln_pw. destruct H1 as [H1|H1];
      [left; apply ln_increasing; [apply pw_pos|exact H1]|right; now rewrite H1]. }
  assert (L2 : ln x <= IZR b * ln 2).
  { rewrite <- ln_pw. destruct H2 as [H2|H2];
      [left; apply ln_increasing; [exact Hx|exact H2]|right; now rewrite H2]. }
  pose proof ln_2_pos as Hl.
  assert (Ha' : IZR a <= 0) by now apply IZR_le.
  assert (Hb' : 0 <= IZR b) by now apply IZR_le.
  assert (Ha2 : IZR a * ln 2 <= 0) by nra.
  assert (Hb2 : 0 <= IZR b * ln 2) by nra.
  assert (E1 : 3 * (IZR a * ln 2) <= y * ln x).
  { destruct (Rle_lt_dec 0 (ln x)) as [Hp|Hn].
    - apply Rle_trans with 0; [lra|]. now apply Rmult_le_pos.
    - apply Rle_trans with (3 * ln x); [lra|]. nra. }
  assert (E2 : y * ln x <= 3 * (IZR b * ln 2)).
  { destruct (Rle_lt_dec 0 (ln x)) as [Hp|Hn].
    - apply Rle_trans with (3 * ln x); [nra|lra].
    - apply Rle_trans with 0; [nra|lra]. }
  unfold rng, pw, Rpower. rewrite !mult_IZR.
  split; apply exp_monotone; lra.
Qed.

(** ** Sums *)

Lemma sum_floats_le_member (xs : list R) (x : R) :
  (forall y, In y xs -> 0 <= y) -> In x xs -> x <= sum_floats xs.
Proof.
  induction xs as [|y ys IH]; intros Hpos Hin; [contradiction|].
  rewrite sum_floats_cons.
  assert (0 <= y) by (apply Hpos; now left).
  assert (0 <= sum_floats ys)
    by (apply sum_floats_nonneg; intros z Hz; apply Hpos; now right).
  destruct Hin as [->|Hin]; [lra|].
  assert (x <= sum_floats ys)
    by (apply IH; [intros z Hz; apply Hpos; now right|exact Hin]).
  lra.
Qed.

Lemma sum_floats_le_bound (xs : list R) (M : R) :
  (forall y, In y xs -> y <= M) ->
  sum_floats xs <= INR (List.length xs) * M.
Proof.
  induction xs as [|y ys IH]; intros Hb.
  - unfold sum_floats. cbn. lra.
  - rewrite sum_floats_cons. cbn [List.length]. rewrite S_INR.
    assert (y <= M) by (apply Hb; now left).
    assert (sum_floats ys <= INR (List.length ys) * M)
      by (apply IH; intros z Hz; apply Hb; now right).
    lra.
Qed.

Lemma rng_sum (a b : Z) (xs : list R) :
  xs <> [] -> (forall x, In x xs -> rng a b x) ->
  INR (List.length xs) <= pw 16 ->
  rng a (b + 16) (sum_floats xs).
Proof.
  intros Hne Hall Hn.
  assert (Hpos : forall y, In y xs -> 0 <= y).
  { intros y Hy. left. exact (rng_pos _ _ _ (Hall y Hy)). }
  split.
  - destruct xs as [|x xs]; [congruence|].
    apply Rle_trans with x; [apply (Hall x); now left|].
    apply sum_floats_le_member; [exact Hpos|now left].
  - apply Rle_trans with (INR (List.length xs) * pw b).
    + apply sum_floats_le_bound. intros y Hy. apply (Hall y Hy).
    + rewrite pw_add, (Rmult_comm (pw b)).
      apply Rmult_le_compat_r; [left; apply pw_pos|exact Hn].
Qed.

Lemma count_eps_small (n : nat) :
  INR n <= pw 16 -> 0 <= INR n * eps <= pw (-36).
Proof.
  intros Hn. split.
  - apply Rmult_le_pos; [apply pos_INR|left; apply eps_pos].
  - replace (-36)%Z with (16 + -52)%Z by lia. rewrite pw_add.
    apply Rmult_le_compat_r; [left; apply eps_pos|exact Hn].
Qed.

Lemma pw_m36_small : pw (-36) <= / 4.
Proof.
  apply Rle_trans with (pw (-2)); [apply pw_le; lia|].
  pose proof (pw_opp 2) as H. cbn [Z.opp] in H. rewrite H.
  change 2%Z with (Z.of_nat 2). rewrite pw_nat. simpl. lra.
Qed.

Lemma fsum_rng (fa : float_ops) (a b : Z) (xs : list R) :
  xs <> [] -> (forall x, In x xs -> rng a b x) ->
  INR (List.length xs) <= pw 16 -> (b + 16 <= 1023)%Z ->
  rng (a - 1) (b + 17) (fsum fa xs) /\
  Rabs (fsum fa xs - sum_floats xs)
  <= INR (List.length xs) * eps * sum_floats xs.
Proof.
  intros Hne Hall Hn Hb.
  pose proof (rng_sum a b xs Hne Hall Hn) as Hs.
  assert (Hclose : Rabs (fsum fa xs - sum_floats xs)
                   <= INR (List.length xs) * eps * sum_floats xs).
  { apply fsum_close.
    - intros y Hy. left. exact (rng_pos _ _ _ (Hall y Hy)).
    - apply Rle_trans with (pw (b + 16)); [apply Hs|]. apply pw_le. lia.
    - apply Rle_trans with (pw 16); [exact Hn|]. apply pw_le. lia. }
  split; [|exact Hclose].
  replace (b + 17)%Z with (b + 16 + 1)%Z by lia.
  apply (close_rng a (b + 16) (sum_floats xs) _ (INR (List.length xs) * eps));
    [exact Hs| |exact Hclose].
  pose proof (count_eps_small _ Hn). pose proof pw_m36_small. lra.
Qed.

(** ** The exponent of the power method *)

Lemma le_inverse (a e : R) : 0 < e -> a * e <= 1 -> a <= 1 / e.
Proof.
  intros He H. replace a with (a * e / e) by (field; lra).
  unfold Rdiv. apply Rmult_le_compat_r; [left; now apply Rinv_0_lt_compat|exact H].
Qed.

Lemma inverse_le (a e : R) : 0 < e -> 1 <= a * e -> 1 / e <= a.
Proof.
  intros He H. replace a with (a * e / e) by (field; lra).
  unfold Rdiv. apply Rmult_le_compat_r; [left; now apply Rinv_0_lt_compat|exact H].
Qed.

Lemma rng_half_one (n : nat) :
  (2 <= n)%nat -> / 2 <= (INR n - 1) / INR n <= 1.
Proof.
  intros Hn. assert (H2 : 2 <= INR n) by (change 2 with (INR 2); now apply le_INR).
  split.
  - apply Rmult_le_reg_r with (INR n); [lra|].
    replace ((INR n - 1) / INR n * INR n) with (INR n - 1) by (field; lra). lra.
  - apply Rmult_le_reg_r with (INR n); [lra|].
    replace ((INR n - 1) / INR n * INR n) with (INR n - 1) by (field; lra). lra.
Qed.

Lemma fdiv_rng (fa : float_ops) (a b c d : Z) (x y : R) :
  rng a b x -> rng c d y -> (-1022 <= a - d)%Z -> (b - c <= 1023)%Z ->
  rng (a - d - 1) (b - c + 1) (fdiv fa x y) /\
  Rabs (fdiv fa x y - x / y) <= eps * (x / y).
Proof.
  intros Hx Hy Hlo Hhi.
  pose proof (rng_div _ _ _ _ _ _ Hx Hy) as Hq.
  pose proof (rng_pos _ _ _ Hq) as Hqp.
  pose proof (rng_pos _ _ _ Hy) as Hyp.
  assert (Hclose : Rabs (fdiv fa x y - x / y) <= eps * (x / y)).
  { rewrite <- (Rabs_pos_eq (x / y)) at 2 by lra.
    apply fdiv_close; [lra|]. now apply (rng_normal (a - d) (b - c)). }
  split; [|exact Hclose].
  apply (close_rng _ _ (x / y) _ eps); [exact Hq| |exact Hclose].
  pose proof eps_small. pose proof eps_pos. lra.
Qed.

Lemma exponent_inverse (fa : float_ops) (n : nat) :
  (2 <= n)%nat ->
  fdiv fa (INR n - 1) (INR n) <> 0 /\
  0 <= fdiv fa 1 (fdiv fa (INR n - 1) (INR n)) <= 3.
Proof.
  intros Hn. pose proof (rng_half_one n Hn) as [Hq1 Hq2].
  set (q := (INR n - 1) / INR n) in *.
  assert (H2 : 2 <= INR n) by (change 2 with (INR 2); now apply le_INR).
  pose proof eps_small as He. pose proof eps_pos as Hep.
  assert (Hc : Rabs (fdiv fa (INR n - 1) (INR n) - q) <= eps * Rabs q).
  { apply fdiv_close; [lra|]. fold q. rewrite Rabs_pos_eq by lra. split.
    - apply Rle_trans with (/ 2); [|exact Hq1]. rewrite <- pw_m1.
      apply pw_le. lia.
    - apply Rle_trans with 1; [exact Hq2|]. rewrite <- pw_0. apply pw_le. lia. }
  rewrite (Rabs_pos_eq q) in Hc by lra. apply Rabs_bound in Hc.
  set (e := fdiv fa (INR n - 1) (INR n)) in *.
  assert (He1 : 15 / 32 <= e) by nra.
  assert (He2 : e <= 17 / 16) by nra.
  split; [lra|].
  assert (Hi1 : 16 / 17 <= 1 / e) by (apply le_inverse; lra).
  assert (Hi2 : 1 / e <= 32 / 15) by (apply inverse_le; lra).
  assert (Hc2 : Rabs (fdiv fa 1 e - 1 / e) <= eps * Rabs (1 / e)).
  { apply fdiv_close; [lra|]. rewrite Rabs_pos_eq by lra. split.
    - apply Rle_trans with (/ 2); [|lra]. rewrite <- pw_m1. apply pw_le. lia.
    - apply Rle_trans with 4; [lra|].
      replace 4 with (pw 2)
        by (change 2%Z with (Z.of_nat 2); rewrite pw_nat; simpl; lra).
      apply pw_le. lia. }
  rewrite (Rabs_pos_eq (1 / e)) in Hc2 by lra. apply Rabs_bound in Hc2.
  split; nra.
Qed.

(** ** The power method on odds between 2^lo and 2^hi *)

Lemma fl_result_two (fa : float_ops) (odds : dict pyval) :
  (2 <= List.length (outcome_keys odds))%nat ->
  fl_result fa odds
  = map (fun k => (k, Fl (fl_probability fa odds k))) (outcome_keys odds).
Proof.
  unfold fl_result.
  destruct (outcome_keys odds) as [|? [|? ?]]; cbn [List.length]; intros;
    try lia; reflexivity.
Qed.

Lemma two_or_more {A B : Type} (l : list A) (a : B) (f : A -> B) (g : B) :
  (2 <= List.length l)%nat ->
  match l with [] => a | [k] => f k | _ :: _ :: _ => g end = g.
Proof. destruct l as [|? [|? ?]]; cbn; intros; try lia; reflexivity. Qed.

Lemma map_nonempty {A B} (f : A -> B) (l : list A) : l <> [] -> map f l <> [].
Proof. destruct l; [congruence|discriminate]. Qed.

Lemma rng_one : rng 0 0 1.
Proof. unfold rng. rewrite pw_0. lra. Qed.

(** Values each within relative error [e] of their targets sum to within
    relative error [e] of the targets' sum. *)
Lemma Rsum_close {A} (f g : A -> R) (e : R) (l : list A) :
  (forall k, In k l -> Rabs (f k - g k) <= e * g k) ->
  Rabs (Rsum (map f l) - Rsum (map g l)) <= e * Rsum (map g l).
Proof.
  induction l as [|k l IH]; intros H; cbn [map Rsum fold_right].
  - rewrite Rminus_diag, Rabs_R0. lra.
  - fold (Rsum (map f l)). fold (Rsum (map g l)).
    assert (Hk := H k (or_introl eq_refl)).
    assert (Hl := IH (fun k' Hk' => H k' (or_intror Hk'))).
    replace (f k + Rsum (map f l) - (g k + Rsum (map g l)))
      with ((f k - g k) + (Rsum (map f l) - Rsum (map g l))) by ring.
    eapply Rle_trans; [apply Rabs_triang|]. lra.
Qed.

Lemma Rsum_div (xs : list R) (t : R) :
  Rsum (map (fun x => x / t) xs) = Rsum xs / t.
Proof.
  induction xs as [|x xs IH]; cbn [map Rsum fold_right].
  - unfold Rdiv. now rewrite Rmult_0_l.
  - fold (Rsum (map (fun x => x / t) xs)). fold (Rsum xs). rewrite IH.
    unfold Rdiv. ring.
Qed.

Section InRange.

Variable fa : float_ops.
Variable odds : dict pyval.
Variables lo hi : Z.

Hypothesis Hlo : (lo <= 0)%Z.
Hypothesis Hhi : (0 <= hi)%Z.
Hypothesis Hspan : (hi - lo <= 155)%Z.
Hypothesis Hnd : NoDup (outcome_keys odds).
Hypothesis Hodds : odds_within (pw lo) (pw hi) odds.
Hypothesis Hcount : INR (List.length (outcome_keys odds)) <= pw 16.
Hypothesis Htwo : (2 <= List.length (outcome_keys odds))%nat.

Lemma odds_within_at (k : string) :
  In k (outcome_keys odds) ->
  dget odds k = Some (VFloat (odds_at odds k)) /\ rng lo hi (odds_at odds k).
Proof.
  intros Hk. destruct (Hodds k Hk) as (o & Hget & Ho).
  unfold odds_at. rewrite Hget. now split.
Qed.

Lemma keys_nonempty : outcome_keys odds <> [].
Proof. intros E. pose proof Htwo as H. rewrite E in H. cbn in H. lia. Qed.

Lemma fl_implied_rng (k : string) :
  In k (outcome_keys odds) -> rng (- hi - 1) (- lo + 1) (fl_implied fa odds k).
Proof.
  intros Hk. destruct (odds_within_at k Hk) as [_ Ho].
  destruct (fdiv_rng fa 0 0 lo hi 1 _ rng_one Ho) as [H _]; try lia.
  eapply rng_weaken; [exact H|lia|lia].
Qed.

Lemma fl_total_rng : rng (- hi - 2) (- lo + 18) (fl_total fa odds).
Proof.
  unfold fl_total.
  destruct (fsum_rng fa (- hi - 1) (- lo + 1)
              (map (fl_implied fa odds) (outcome_keys odds))
              (map_nonempty _ _ keys_nonempty)) as [H _]; try lia.
  - intros x Hx. apply in_map_iff in Hx. destruct Hx as (k & <- & Hk).
    now apply fl_implied_rng.
  - now rewrite length_map.
  - eapply rng_weaken; [exact H|lia|lia].
Qed.

Lemma fl_exponent_inverse :
  fl_exponent fa odds <> 0 /\
  0 <= fdiv fa 1 (fl_exponent fa odds) <= 3.
Proof. unfold fl_exponent. apply exponent_inverse. exact Htwo. Qed.

Lemma fl_power_rng (a b : Z) (x : R) :
  rng a b x -> (a <= 0 <= b)%Z -> (-1022 <= 3 * a)%Z -> (3 * b <= 1023)%Z ->
  fpow fa x (fdiv fa 1 (fl_exponent fa odds)) = Ok (Fl (fl_power fa odds x)) /\
  rng (3 * a - 1) (3 * b + 1) (fl_power fa odds x).
Proof.
  intros Hx Hab Ha Hb. destruct fl_exponent_inverse as [_ Hinv].
  pose proof (rng_pow a b x _ Hx Hab Hinv) as Hp.
  pose proof (rng_pos _ _ _ Hp) as Hpp.
  destruct (fpow_close fa x (fdiv fa 1 (fl_exponent fa odds))
              (rng_pos _ _ _ Hx)) as (r & Hr & Hc).
  { pose proof (rng_normal _ _ _ Hp Ha Hb) as Hn.
    now rewrite Rabs_pos_eq in Hn by lra. }
  unfold fl_power. rewrite Hr. split; [reflexivity|].
  apply (close_rng _ _ _ _ eps Hp); [|exact Hc].
  pose proof eps_small. pose proof eps_pos. lra.
Qed.

Lemma fl_power_implied (k : string) :
  In k (outcome_keys odds) ->
  fpow fa (fl_implied fa odds k) (fdiv fa 1 (fl_exponent fa odds))
  = Ok (Fl (fl_power fa odds (fl_implied fa odds k))) /\
  rng (- 3 * hi - 4) (- 3 * lo + 4) (fl_power fa odds (fl_implied fa odds k)).
Proof.
  intros Hk.
  destruct (fl_power_rng _ _ _ (fl_implied_rng k Hk)) as [H1 H2]; try lia.
  split; [exact H1|]. eapply rng_weaken; [exact H2|lia|lia].
Qed.

Lemma fl_power_total :
  fpow fa (fl_total fa odds) (fdiv fa 1 (fl_exponent fa odds))
  = Ok (Fl (fl_power fa odds (fl_total fa odds))) /\
  rng (- 3 * hi - 7) (- 3 * lo + 55) (fl_power fa odds (fl_total fa odds)).
Proof.
  destruct (fl_power_rng _ _ _ fl_total_rng) as [H1 H2]; try lia.
  split; [exact H1|]. eapply rng_weaken; [exact H2|lia|lia].
Qed.

Lemma fl_adjusted_rng (k : string) :
  In k (outcome_keys odds) ->
  rng (- 3 * (hi - lo) - 60) (3 * (hi - lo) + 12) (fl_adjusted fa odds k).
Proof.
  intros Hk. unfold fl_adjusted.
  destruct (fdiv_rng fa _ _ _ _ _ _ (proj2 (fl_power_implied k Hk))
              (proj2 fl_power_total)) as [H _]; try lia.
  eapply rng_weaken; [exact H|lia|lia].
Qed.

Lemma fl_adjusted_total_rng :
  rng (- 3 * (hi - lo) - 61) (3 * (hi - lo) + 29) (fl_adjusted_total fa odds) /\
  Rabs (fl_adjusted_total fa odds
        - sum_floats (map (fl_adjusted fa odds) (outcome_keys odds)))
  <= INR (List.length (outcome_keys odds)) * eps
     * sum_floats (map (fl_adjusted fa odds) (outcome_keys odds)).
Proof.
  unfold fl_adjusted_total.
  destruct (fsum_rng fa (- 3 * (hi - lo) - 60) (3 * (hi - lo) + 12)
              (map (fl_adjusted fa odds) (outcome_keys odds))
              (map_nonempty _ _ keys_nonempty)) as [H1 H2]; try lia.
  - intros x Hx. apply in_map_iff in Hx. destruct Hx as (k & <- & Hk).
    now apply fl_adjusted_rng.
  - now rewrite length_map.
  - rewrite length_map in H2. split; [|exact H2].
    eapply rng_weaken; [exact H1|lia|lia].
Qed.

Lemma fl_probability_close (k : string) :
  In k (outcome_keys odds) ->
  0 < fl_probability fa odds k /\
  Rabs (fl_probability fa odds k
        - fl_adjusted fa odds k / fl_adjusted_total fa odds)
  <= eps * (fl_adjusted fa odds k / fl_adjusted_total fa odds).
Proof.
  intros Hk. unfold fl_probability.
  destruct (fdiv_rng fa _ _ _ _ _ _ (fl_adjusted_rng k Hk)
              (proj1 fl_adjusted_total_rng)) as [H1 H2]; try lia.
  split; [exact (rng_pos _ _ _ H1)|exact H2].
Qed.

(** No step raises, and the result is [fl_result]. *)
Lemma remove_vig_fl_in_range :
  remove_vig_multiplicative_fl fa odds = Ok (Some (fl_result fa odds)).
Proof.
  pose proof fl_exponent_inverse as [He0 _].
  rewrite (fl_result_two fa odds Htwo).
  unfold remove_vig_multiplicative_fl, remove_vig_body_fl.
  rewrite (dict_build_fresh (fun k => k) _ (fl_implied fa odds) _ []);
    [|now rewrite map_id|intros ? ? []|].
  2:{ intros k Hk. destruct (odds_within_at k Hk) as [Hget Ho].
      unfold getitem. rewrite Hget. cbn [bind inverse_odds_fl].
      unfold float_div_fl. pose proof (rng_pos _ _ _ Ho).
      destruct (Req_dec_T (odds_at odds k) 0); [lra|reflexivity]. }
  cbn [app bind].
  assert (Hvals : dvalues (map (fun k => (k, fl_implied fa odds k)) (outcome_keys odds))
                  = map (fl_implied fa odds) (outcome_keys odds)).
  { unfold dvalues. rewrite map_map. reflexivity. }
  rewrite Hvals. fold (fl_total fa odds).
  rewrite (two_or_more (outcome_keys odds)) by exact Htwo.
  unfold float_div_fl at 1.
  assert (Hn0 : INR (List.length (outcome_keys odds)) <> 0).
  { apply Rgt_not_eq. apply lt_0_INR. pose proof Htwo. lia. }
  destruct (Req_dec_T (INR (List.length (outcome_keys odds))) 0); [contradiction|].
  cbn [bind]. fold (fl_exponent fa odds).
  rewrite (dict_build_fresh (fun k => k) _
             (fun k => Fl (fl_adjusted fa odds k)) _ []);
    [|now rewrite map_id|intros ? ? []|].
  2:{ intros k Hk. unfold getitem.
      rewrite (dget_map_keys (fl_implied fa odds) _ k Hk). cbn [bind].
      unfold float_div_fl.
      destruct (Req_dec_T (fl_exponent fa odds) 0); [contradiction|]. cbn [bind].
      destruct (fl_power_implied k Hk) as [Ha _].
      destruct fl_power_total as [Ht Htr].
      rewrite Ha. cbn [bind]. rewrite Ht. cbn [bind num_div_fl].
      pose proof (rng_pos _ _ _ Htr).
      destruct (Req_dec_T (fl_power fa odds (fl_total fa odds)) 0); [lra|].
      reflexivity. }
  cbn [app bind].
  assert (Hadj : dvalues (map (fun k => (k, Fl (fl_adjusted fa odds k)))
                            (outcome_keys odds))
                 = map Fl (map (fl_adjusted fa odds) (outcome_keys odds))).
  { unfold dvalues. now rewrite !map_map. }
  rewrite Hadj, fsum_nums_floats. fold (fl_adjusted_total fa odds).
  rewrite dict_build_map.
  rewrite (dict_build_fresh _ _ (fun k => Fl (fl_probability fa odds k)) _ []);
    [|cbn [fst]; now rewrite map_id|intros ? ? []|].
  2:{ intros k Hk. cbn [snd num_div_fl].
      pose proof (rng_pos _ _ _ (proj1 fl_adjusted_total_rng)).
      destruct (Req_dec_T (fl_adjusted_total fa odds) 0); [lra|reflexivity]. }
  cbn [app try_except bind fst]. reflexivity.
Qed.

(** The returned values are positive and sum to 1 within
    [2 * (n + 1) * eps]. *)
Lemma fl_result_sum :
  (forall k v, In (k, v) (fl_result fa odds) -> exists p, v = Fl p /\ 0 < p) /\
  Rabs (Rsum (float_values (fl_result fa odds)) - 1)
  <= 2 * (INR (List.length (outcome_keys odds)) + 1) * eps.
Proof.
  rewrite (fl_result_two fa odds Htwo). split.
  - intros k v Hin. apply in_map_iff in Hin. destruct Hin as (k' & E & Hk').
    inversion E; subst. eexists. split; [reflexivity|].
    now apply fl_probability_close.
  - unfold float_values. rewrite map_map. cbn [snd].
    set (n := INR (List.length (outcome_keys odds))).
    set (T := fl_adjusted_total fa odds).
    set (S := sum_floats (map (fl_adjusted fa odds) (outcome_keys odds))).
    destruct fl_adjusted_total_rng as [HT HTS]. fold T S n in HT, HTS.
    pose proof (rng_pos _ _ _ HT) as HTpos.
    pose proof (count_eps_small _ Hcount) as [Hd0 Hd]. fold n in Hd0, Hd.
    pose proof pw_m36_small as H36. pose proof eps_pos as Hep.
    pose proof eps_small as Hes.
    assert (Hsum : Rabs (Rsum (map (fl_probability fa odds) (outcome_keys odds))
                         - S / T) <= eps * (S / T)).
    { unfold S. rewrite sum_floats_Rsum, <- Rsum_div, map_map.
      apply (Rsum_close (fl_probability fa odds)
               (fun k => fl_adjusted fa odds k / T) eps).
      intros k Hk. now apply fl_probability_close. }
    apply Rabs_bound in HTS. apply Rabs_bound in Hsum.
    assert (HS : 0 < S) by nra.
    assert (Hq1 : S / T <= 1 + 2 * (n * eps)).
    { apply Rmult_le_reg_r with T; [exact HTpos|].
      replace (S / T * T) with S by (field; lra). nra. }
    assert (Hq2 : 1 - 2 * (n * eps) <= S / T).
    { apply Rmult_le_reg_r with T; [exact HTpos|].
      replace (S / T * T) with S by (field; lra). nra. }
    assert (Hq3 : S / T <= 3 / 2) by lra.
    assert (Hq4 : eps * (S / T) <= 3 / 2 * eps) by nra.
    change (fun x : string => fl_probability fa odds x)
      with (fl_probability fa odds).
    replace (2 * (n + 1) * eps) with (2 * (n * eps) + 2 * eps) by ring.
    apply Rabs_le. split; lra.
Qed.

End InRange.

Lemma fl_result_keys (fa : float_ops) (odds : dict pyval) :
  dkeys (fl_result fa odds) = outcome_keys odds.
Proof.
  unfold fl_result.
  destruct (outcome_keys odds) as [|k1 [|k2 rest]]; [reflexivity|reflexivity|].
  unfold dkeys. rewrite map_map. cbn [fst]. now rewrite map_id.
Qed.

Lemma remove_vig_fl_single (fa : float_ops) (odds : dict pyval) (k : string) (o : R) :
  outcome_keys odds = [k] -> dget odds k = Some (VFloat o) -> o <> 0 ->
  remove_vig_multiplicative_fl fa odds = Ok (Some [(k, Fl 1)]).
Proof.
  intros E Hget Ho. unfold remove_vig_multiplicative_fl, remove_vig_body_fl.
  rewrite E. cbn [dict_build bind]. unfold getitem. rewrite Hget.
  cbn [bind inverse_odds_fl]. unfold float_div_fl.
  destruct (Req_dec_T o 0); [contradiction|reflexivity].
Qed.

Lemma count_bound (n : nat) : (Z.of_nat n <= 2 ^ 16)%Z -> INR n <= pw 16.
Proof.
  intros H. rewrite INR_IZR_INZ.
  change 16%Z with (Z.of_nat 16). rewrite pw_nat, (pow_IZR 2 16).
  apply IZR_le. exact H.
Qed.

Lemma odds_within_pw (lo hi : nat) (odds : dict pyval) :
  odds_within (/ 2 ^ lo) (2 ^ hi) odds ->
  odds_within (pw (- Z.of_nat lo)) (pw (Z.of_nat hi)) odds.
Proof.
  intros H k Hk. destruct (H k Hk) as (o & Hget & Ho).
  exists o. split; [exact Hget|]. now rewrite pw_opp, !pw_nat.
Qed.

(** On odds between [2^lo] and [2^hi] with [hi - lo <= 155], and at most
    [2^16] outcomes, the code over binary64 returns a mapping over the
    outcome keys whose values are positive floats that sum to 1 within
    [2 * (n + 1) * eps]. *)
Lemma remove_vig_fl_result (fa : float_ops) (odds : dict pyval) (lo hi : Z) :
  (lo <= 0 <= hi)%Z -> (hi - lo <= 155)%Z ->
  NoDup (outcome_keys odds) -> outcome_keys odds <> [] ->
  odds_within (pw lo) (pw hi) odds ->
  INR (List.length (outcome_keys odds)) <= pw 16 ->
  remove_vig_multiplicative_fl fa odds = Ok (Some (fl_result fa odds)) /\
  dkeys (fl_result fa odds) = outcome_keys odds /\
  (forall k v, In (k, v) (fl_result fa odds) -> exists p, v = Fl p /\ 0 < p) /\
  Rabs (Rsum (float_values (fl_result fa odds)) - 1)
  <= 2 * (INR (List.length (outcome_keys odds)) + 1) * eps.
Proof.
  intros [Hlo Hhi] Hspan Hwf Hne Hodds Hcount.
  split; [|split; [apply fl_result_keys|]].
  - destruct (le_lt_dec 2 (List.length (outcome_keys odds))) as [Htwo|Hone].
    + apply (remove_vig_fl_in_range fa odds lo hi); assumption.
    + unfold fl_result.
      destruct (outcome_keys odds) as [|k [|k2 rest]] eqn:E;
        [congruence| |cbn in Hone; lia].
      destruct (Hodds k) as (o & Hget & Ho); [rewrite E; now left|].
      apply (remove_vig_fl_single fa odds k o E Hget).
      pose proof (pw_pos lo). lra.
  - destruct (le_lt_dec 2 (List.length (outcome_keys odds))) as [Htwo|Hone].
    + apply (fl_result_sum fa odds lo hi); assumption.
    + unfold fl_result.
      destruct (outcome_keys odds) as [|k [|k2 rest]] eqn:E;
        [congruence| |cbn in Hone; lia].
      split.
      * intros k' v [[= <- <-]|[]]. exists 1. split; [reflexivity|lra].
      * cbn. replace (1 + 0 - 1) with 0 by ring. rewrite Rabs_R0.
        pose proof eps_pos. nra.
Qed.

(** ** Odds out of range: underflow and overflow *)

(** With two outcomes the inverse of the exponent is about 2. *)
Lemma exponent_inverse_two (fa : float_ops) :
  fdiv fa (INR 2 - 1) (INR 2) <> 0 /\
  7 / 4 <= fdiv fa 1 (fdiv fa (INR 2 - 1) (INR 2)).
Proof.
  pose proof eps_small as He. pose proof eps_pos as Hep.
  assert (Hq : (INR 2 - 1) / INR 2 = / 2) by (simpl; field).
  assert (Hc : Rabs (fdiv fa (INR 2 - 1) (INR 2) - (INR 2 - 1) / INR 2)
               <= eps * Rabs ((INR 2 - 1) / INR 2)).
  { apply fdiv_close; [simpl; lra|]. rewrite Hq, Rabs_pos_eq by lra. split.
    - rewrite <- pw_m1. apply pw_le. lia.
    - apply Rle_trans with 1; [lra|]. rewrite <- pw_0. apply pw_le. lia. }
  rewrite Hq, (Rabs_pos_eq (/ 2)) in Hc by lra. apply Rabs_bound in Hc.
  set (e := fdiv fa (INR 2 - 1) (INR 2)) in *.
  assert (He1 : 15 / 32 <= e) by nra.
  assert (He2 : e <= 17 / 32) by nra.
  split; [lra|].
  assert (Hi1 : 32 / 17 <= 1 / e) by (apply le_inverse; lra).
  assert (Hi2 : 1 / e <= 32 / 15) by (apply inverse_le; lra).
  assert (Hc2 : Rabs (fdiv fa 1 e - 1 / e) <= eps * Rabs (1 / e)).
  { apply fdiv_close; [lra|]. rewrite Rabs_pos_eq by lra. split.
    - apply Rle_trans with (/ 2); [|lra]. rewrite <- pw_m1. apply pw_le. lia.
    - apply Rle_trans with 4; [lra|].
      replace 4 with (pw 2)
        by (change 2%Z with (Z.of_nat 2); rewrite pw_nat; simpl; lra).
      apply pw_le. lia. }
  rewrite (Rabs_pos_eq (1 / e)) in Hc2 by lra. apply Rabs_bound in Hc2.
  nra.
Qed.

Lemma ln_le_pw (x : R) (b : Z) : 0 < x -> x <= pw b -> ln x <= IZR b * ln 2.
Proof.
  intros Hx H. rewrite <- ln_pw. destruct H as [H|H];
    [left; now apply ln_increasing|right; now rewrite H].
Qed.

Lemma pw_le_ln (x : R) (a : Z) : pw a <= x -> IZR a * ln 2 <= ln x.
Proof.
  intros H. rewrite <- ln_pw. destruct H as [H|H];
    [left; apply ln_increasing; [apply pw_pos|exact H]|right; now rewrite H].
Qed.

(** A small base to a power of at least 7/4. *)
Lemma rpower_below (b b' : Z) (x y : R) :
  0 < x -> x <= pw b -> (b <= 0)%Z -> 7 / 4 <= y -> (7 * b <= 4 * b')%Z ->
  Rpower x y <= pw b'.
Proof.
  intros Hx Hb Hb0 Hy Hbb.
  pose proof (ln_le_pw x b Hx Hb) as Hl. pose proof ln_2_pos as H2.
  assert (Hb' : IZR b <= 0) by now apply IZR_le.
  assert (Hz : 7 * IZR b <= 4 * IZR b').
  { rewrite <- !mult_IZR. now apply IZR_le. }
  assert (Hl0 : ln x <= 0) by nra.
  assert (S1 : y * ln x <= 7 / 4 * ln x) by nra.
  assert (S2 : 7 / 4 * (IZR b * ln 2) <= IZR b' * ln 2) by nra.
  unfold pw, Rpower. apply exp_monotone. lra.
Qed.

(** A large base to a power of at least 7/4. *)
Lemma rpower_above (a a' : Z) (x y : R) :
  pw a <= x -> (0 <= a)%Z -> 7 / 4 <= y -> (4 * a' <= 7 * a)%Z ->
  pw a' <= Rpower x y.
Proof.
  intros Ha Ha0 Hy Haa.
  pose proof (pw_le_ln x a Ha) as Hl. pose proof ln_2_pos as H2.
  assert (Ha' : 0 <= IZR a) by now apply IZR_le.
  assert (Hz : 4 * IZR a' <= 7 * IZR a).
  { rewrite <- !mult_IZR. now apply IZR_le. }
  assert (Hl0 : 0 <= ln x) by nra.
  assert (S1 : 7 / 4 * ln x <= y * ln x) by nra.
  assert (S2 : IZR a' * ln 2 <= 7 / 4 * (IZR a * ln 2)) by nra.
  unfold pw, Rpower. apply exp_monotone. lra.
Qed.

Lemma rng_pow2 (n : nat) : rng (Z.of_nat n) (Z.of_nat n) (2 ^ n).
Proof. unfold rng. rewrite pw_nat. lra. Qed.

Lemma rng_inv_pow2 (n : nat) : rng (- Z.of_nat n) (- Z.of_nat n) (/ 2 ^ n).
Proof. unfold rng. rewrite pw_opp, pw_nat. lra. Qed.

Ltac fl_eval :=
  cbn [dict_build bind getitem dget String.eqb Ascii.eqb Bool.eqb
       inverse_odds_fl dset List.length dvalues dkeys map snd fst
       try_except vig_handled].

Lemma market_2_700_keys : outcome_keys market_2_700 = ["home"; "away"].
Proof. reflexivity. Qed.

Lemma market_2_m600_keys : outcome_keys market_2_m600 = ["home"; "away"].
Proof. reflexivity. Qed.

(** Odds of 2^700 on both outcomes: both powers underflow to 0.0 and the
    division raises [ZeroDivisionError], which is caught. *)
Lemma remove_vig_fl_underflow (fa : float_ops) :
  remove_vig_multiplicative_fl fa market_2_700 = Ok None.
Proof.
  pose proof (rng_pow2 700) as Ho. cbn [Z.of_nat Pos.of_succ_nat] in Ho.
  change (Z.of_nat 700) with 700%Z in Ho.
  pose proof (rng_pos _ _ _ Ho) as Hop.
  destruct (fdiv_rng fa 0 0 700 700 1 _ rng_one Ho) as [Hp _]; try lia.
  set (p := fdiv fa 1 (2 ^ 700)) in *. cbn [Z.sub Z.add Z.opp Z.pos_sub] in Hp.
  assert (Hp' : rng (-701) (-699) p).
  { eapply rng_weaken; [exact Hp|lia|lia]. }
  destruct (fsum_rng fa (-701) (-699) [p; p]) as [Ht _]; try lia.
  { discriminate. }
  { intros x [<-|[<-|[]]]; exact Hp'. }
  { cbn [List.length]. change (INR 2) with (1 + 1).
    apply Rle_trans with (pw 1); [rewrite pw_1; lra|apply pw_le; lia]. }
  set (total := fsum fa [p; p]) in *.
  destruct (exponent_inverse_two fa) as [He0 Hy].
  set (e := fdiv fa (INR 2 - 1) (INR 2)) in *.
  set (y := fdiv fa 1 e) in *.
  assert (Hpu : fpow fa p y = Ok (Fl 0)).
  { apply fpow_underflow; [exact (rng_pos _ _ _ Hp')|].
    apply (rpower_below (-699)); [exact (rng_pos _ _ _ Hp')|apply Hp'|lia|exact Hy|lia]. }
  assert (Htu : fpow fa total y = Ok (Fl 0)).
  { apply fpow_underflow; [exact (rng_pos _ _ _ Ht)|].
    apply (rpower_below (-682)); [exact (rng_pos _ _ _ Ht)| |lia|exact Hy|lia].
    eapply Rle_trans; [apply Ht|]. apply pw_le. lia. }
  unfold remove_vig_multiplicative_fl, remove_vig_body_fl.
  rewrite market_2_700_keys. unfold market_2_700. fl_eval.
  unfold float_div_fl at 1.
  destruct (Req_dec_T (2 ^ 700) 0) as [E|_]; [lra|]. fl_eval.
  unfold float_div_fl at 1.
  destruct (Req_dec_T (2 ^ 700) 0) as [E|_]; [lra|]. fl_eval.
  fold p. fold total.
  unfold float_div_fl at 1.
  destruct (Req_dec_T (INR 2) 0) as [E|_]; [simpl in E; lra|]. fl_eval.
  fold e. unfold float_div_fl at 1.
  destruct (Req_dec_T e 0) as [E|_]; [contradiction|]. fl_eval.
  fold y. rewrite Hpu. fl_eval.
  unfold float_div_fl at 1.
  destruct (Req_dec_T e 0) as [E|_]; [contradiction|]. fl_eval.
  fold y. rewrite Htu. fl_eval.
  unfold num_div_fl.
  destruct (Req_dec_T 0 0) as [_|E]; [|contradiction]. reflexivity.
Qed.

(** Odds of 2^-600 on the first outcome: its power overflows, and
    [OverflowError] is not among the exceptions the function catches. *)
Lemma remove_vig_fl_overflow (fa : float_ops) :
  remove_vig_multiplicative_fl fa market_2_m600 = Raise OverflowError.
Proof.
  pose proof (rng_inv_pow2 600) as Ho.
  change (Z.of_nat 600) with 600%Z in Ho.
  pose proof (rng_pos _ _ _ Ho) as Hop.
  destruct (fdiv_rng fa 0 0 (-600) (-600) 1 _ rng_one Ho) as [Hp _]; try lia.
  set (p := fdiv fa 1 (/ 2 ^ 600)) in *.
  assert (Hp' : rng 599 601 p).
  { eapply rng_weaken; [exact Hp|lia|lia]. }
  destruct (exponent_inverse_two fa) as [He0 Hy].
  set (e := fdiv fa (INR 2 - 1) (INR 2)) in *.
  set (y := fdiv fa 1 e) in *.
  assert (Hpo : fpow fa p y = Raise OverflowError).
  { apply fpow_overflow; [exact (rng_pos _ _ _ Hp')|].
    apply (rpower_above 599); [apply Hp'|lia|exact Hy|lia]. }
  unfold remove_vig_multiplicative_fl, remove_vig_body_fl.
  rewrite market_2_m600_keys. unfold market_2_m600. fl_eval.
  unfold float_div_fl at 1.
  destruct (Req_dec_T (/ 2 ^ 600) 0) as [E|_]; [lra|]. fl_eval.
  unfold float_div_fl at 1.
  destruct (Req_dec_T 3 0) as [E|_]; [lra|]. fl_eval.
  fold p.
  unfold float_div_fl at 1.
  destruct (Req_dec_T (INR 2) 0) as [E|_]; [simpl in E; lra|]. fl_eval.
  fold e. unfold float_div_fl at 1.
  destruct (Req_dec_T e 0) as [E|_]; [contradiction|]. fl_eval.
  fold y. rewrite Hpo. reflexivity.
Qed.

(** ** The round trip through [calculate_edge] in binary64 *)

Lemma Rabs_le_sum (x y a b : R) :
  Rabs x <= a -> Rabs y <= b -> Rabs (x + y) <= a + b.
Proof. intros Hx Hy. eapply Rle_trans; [apply Rabs_triang|lra]. Qed.

Lemma eta_le_eps : eta <= eps.
Proof. apply pw_le. lia. Qed.

Lemma pw_1000_huge : 2 * pw 1000 <= huge.
Proof.
  rewrite <- pw_1, <- pw_add. apply pw_le. lia.
Qed.

Lemma pw_1000_large : 4 <= pw 1000.
Proof.
  replace 4 with (pw 2)
    by (change 2%Z with (Z.of_nat 2); rewrite pw_nat; simpl; lra).
  apply pw_le. lia.
Qed.

(** A product or quotient is rounded within [eps * |q| + eta]. *)
Lemma fmul_error (fa : float_ops) (x y : R) :
  Rabs (x * y) <= huge ->
  Rabs (fmul fa x y - x * y) <= eps * Rabs (x * y) + eta.
Proof.
  intros H. pose proof eps_pos. pose proof (pw_pos (-1074)) as Heta. fold eta in Heta.
  pose proof (Rabs_pos (x * y)).
  destruct (Rle_lt_dec tiny (Rabs (x * y))) as [Ht|Ht].
  - pose proof (fmul_close fa x y (conj Ht H)). lra.
  - pose proof (fmul_small fa x y (Rlt_le _ _ Ht)). nra.
Qed.

Lemma fdiv_error (fa : float_ops) (x y : R) :
  y <> 0 -> Rabs (x / y) <= huge ->
  Rabs (fdiv fa x y - x / y) <= eps * Rabs (x / y) + eta.
Proof.
  intros Hy H. pose proof eps_pos. pose proof (pw_pos (-1074)) as Heta. fold eta in Heta.
  pose proof (Rabs_pos (x / y)).
  destruct (Rle_lt_dec tiny (Rabs (x / y))) as [Ht|Ht].
  - pose proof (fdiv_close fa x y Hy (conj Ht H)). lra.
  - pose proof (fdiv_small fa x y Hy (Rlt_le _ _ Ht)). nra.
Qed.

(** For a probability [p] and decimal odds [o] between 1 and 2^1000, the
    probability backed out of the edge is within [8 * eps] of [p]. *)
Lemma kelly_roundtrip_fl (fa : float_ops) (p o : R) :
  0 <= p <= 1 -> 1 <= o <= pw 1000 ->
  exists p',
    kelly_probability_fl fa (calculate_edge_fl fa p o) o = Ok p' /\
    Rabs (p' - p) <= 8 * eps.
Proof.
  intros [Hp0 Hp1] [Ho1 HoP].
  pose proof eps_pos as Hep. pose proof eps_small as Hes.
  pose proof eta_le_eps as Hee. pose proof (pw_pos (-1074)) as Heta. fold eta in Heta.
  pose proof pw_1000_huge as HP. pose proof pw_1000_large as HP4.
  set (P := pw 1000) in *.
  unfold kelly_probability_fl, calculate_edge_fl, float_div_fl.
  destruct (Req_dec_T o 0) as [E|_]; [lra|].
  eexists. split; [reflexivity|].
  set (m := p * o).
  assert (Hm0 : 0 <= m) by (unfold m; nra).
  assert (HmP : m <= P) by (unfold m; nra).
  set (m1 := fmul fa p o).
  set (e := fsub fa m1 1).
  set (s := fadd fa 1 e).
  set (u := / o).
  assert (Hu0 : 0 < u) by (unfold u; apply Rinv_0_lt_compat; lra).
  assert (Hu1 : u <= 1).
  { unfold u. rewrite <- Rinv_1. apply Rinv_le_contravar; lra. }
  assert (Hmu : m * u = p) by (unfold m, u; field; lra).
  (* the product *)
  assert (H1 : Rabs (m1 - m) <= eps * m + eta).
  { unfold m1, m. pose proof (fmul_error fa p o) as H.
    fold m in H |- *. rewrite (Rabs_pos_eq m) in H by lra. apply H. lra. }
  set (a1 := Rabs (m1 - m)) in *.
  assert (Ha1 : 0 <= a1) by apply Rabs_pos.
  assert (Hm1 : Rabs m1 <= m + a1).
  { replace m1 with (m + (m1 - m)) by ring.
    apply Rabs_le_sum; [rewrite Rabs_pos_eq; lra|unfold a1; lra]. }
  assert (Ha1P : a1 <= P / 16 + 1) by nra.
  (* the subtraction *)
  assert (Hsub : Rabs (m1 - 1) <= m + a1 + 1).
  { unfold Rminus. eapply Rle_trans; [apply Rabs_triang|].
    rewrite Rabs_Ropp, Rabs_R1. lra. }
  assert (H2 : Rabs (e - (m1 - 1)) <= eps * (m + a1 + 1)).
  { unfold e. eapply Rle_trans; [apply fsub_close; lra|].
    apply Rmult_le_compat_l; lra. }
  set (a2 := Rabs (e - (m1 - 1))) in *.
  assert (Ha2 : 0 <= a2) by apply Rabs_pos.
  assert (Ha2P : a2 <= P / 8) by nra.
  (* the addition *)
  assert (Hadd : Rabs (1 + e) <= m + a1 + a2).
  { replace (1 + e) with (m1 + (e - (m1 - 1))) by ring.
    apply Rabs_le_sum; [exact Hm1|unfold a2; lra]. }
  assert (H3 : Rabs (s - (1 + e)) <= eps * (m + a1 + a2)).
  { unfold s. eapply Rle_trans; [apply fadd_close; lra|].
    apply Rmult_le_compat_l; lra. }
  set (a3 := Rabs (s - (1 + e))) in *.
  assert (Ha3 : 0 <= a3) by apply Rabs_pos.
  (* scaled by 1 / o *)
  assert (X1 : a1 * u <= 2 * eps).
  { apply Rle_trans with ((eps * m + eta) * u);
      [apply Rmult_le_compat_r; lra|].
    replace ((eps * m + eta) * u) with (eps * (m * u) + eta * u) by ring.
    rewrite Hmu. nra. }
  assert (X1' : 0 <= a1 * u) by (apply Rmult_le_pos; lra).
  assert (X2 : a2 * u <= 17 / 8 * eps).
  { apply Rle_trans with (eps * (m + a1 + 1) * u);
      [apply Rmult_le_compat_r; lra|].
    replace (eps * (m + a1 + 1) * u) with (eps * (m * u + a1 * u + u)) by ring.
    rewrite Hmu. rewrite (Rmult_comm (17 / 8)).
    apply Rmult_le_compat_l; lra. }
  assert (X2' : 0 <= a2 * u) by (apply Rmult_le_pos; lra).
  assert (X3 : a3 * u <= 161 / 128 * eps).
  { apply Rle_trans with (eps * (m + a1 + a2) * u);
      [apply Rmult_le_compat_r; lra|].
    replace (eps * (m + a1 + a2) * u) with (eps * (m * u + a1 * u + a2 * u)) by ring.
    rewrite Hmu. rewrite (Rmult_comm (161 / 128)).
    apply Rmult_le_compat_l; lra. }
  assert (X3' : 0 <= a3 * u) by (apply Rmult_le_pos; lra).
  (* the quotient *)
  assert (Hq : Rabs (s / o - p) <= a1 * u + (a2 * u + a3 * u)).
  { replace (s / o - p)
      with ((m1 - m) * u + ((e - (m1 - 1)) * u + (s - (1 + e)) * u))
      by (unfold u, m; field; lra).
    apply Rabs_le_sum; [|apply Rabs_le_sum];
      rewrite Rabs_mult, (Rabs_pos_eq u) by lra; unfold a1, a2, a3; lra. }
  assert (Hqa : Rabs (s / o) <= p + (a1 * u + (a2 * u + a3 * u))).
  { replace (s / o) with (p + (s / o - p)) by ring.
    apply Rabs_le_sum; [rewrite Rabs_pos_eq; lra|exact Hq]. }
  assert (H4 : Rabs (fdiv fa s o - s / o) <= eps * Rabs (s / o) + eta).
  { apply fdiv_error; lra. }
  assert (H4' : eps * Rabs (s / o) <= 11 / 8 * eps).
  { rewrite (Rmult_comm (11 / 8)). apply Rmult_le_compat_l; lra. }
  replace (fdiv fa s o - p) with ((fdiv fa s o - s / o) + (s / o - p)) by ring.
  eapply Rle_trans; [apply Rabs_triang|]. lra.
Qed.

(** ** The claims on de-vigging and on the round trip *)

Lemma odds_within_one (hi : nat) (odds : dict pyval) :
  odds_within 1 (2 ^ hi) odds -> odds_within (pw 0) (pw (Z.of_nat hi)) odds.
Proof.
  intros H k Hk. destruct (H k Hk) as (o & Hget & Ho).
  exists o. split; [exact Hget|]. now rewrite pw_0, pw_nat.
Qed.

(** C1 (as stated) fails: 2^700 on both outcomes are odds above 1.0 in a
    well-formed market of two outcomes, and over every binary64 arithmetic
    the code returns None for it (both powers underflow to 0.0, the
    division by zero is caught). *)
Lemma remove_vig_underflow_returns_none :
  wf_dict market_2_700 /\
  outcome_keys market_2_700 <> [] /\
  odds_above 1 market_2_700 /\
  forall fa : float_ops,
    remove_vig_multiplicative_fl fa market_2_700 = Ok None.
Proof.
  split; [|split; [|split]].
  - unfold wf_dict, market_2_700. cbn [dkeys map fst].
    repeat constructor; cbn [In]; intuition discriminate.
  - rewrite market_2_700_keys. discriminate.
  - intros k Hk. rewrite market_2_700_keys in Hk.
    assert (H : 1 < 2 ^ 700) by (apply Rlt_pow_R1; [lra|lia]).
    destruct Hk as [<-|[<-|[]]]; eexists; (split; [reflexivity|exact H]).
  - exact remove_vig_fl_underflow.
Qed.

(** C1 (amended).  A well-formed odds mapping with at least one outcome left
    after dropping "margin" and "line", all of whose outcomes have decimal
    odds above 1.0, is de-vigged in exact arithmetic to a mapping over
    exactly those outcome keys whose values sum to exactly 1; and when the
    odds are at most 2^128 and there are at most 2^16 outcomes, the code
    over every binary64 arithmetic returns a mapping over exactly those
    outcome keys whose values are positive floats summing to 1 within
    [2 * (n + 1) * 2^-52]. *)
Theorem remove_vig_sums_to_one (odds : dict pyval) :
  wf_dict odds ->
  outcome_keys odds <> [] ->
  odds_above 1 odds ->
  (exists probs : dict num,
     remove_vig_multiplicative odds = Ok (Some probs) /\
     dkeys probs = outcome_keys odds /\
     (forall k v, In (k, v) probs -> exists p, v = Fl p /\ 0 < p <= 1) /\
     sum_nums (dvalues probs) = Fl 1) /\
  (odds_within 1 (2 ^ 128) odds ->
   (Z.of_nat (List.length (outcome_keys odds)) <= 2 ^ 16)%Z ->
   forall fa : float_ops,
   exists probs : dict num,
     remove_vig_multiplicative_fl fa odds = Ok (Some probs) /\
     dkeys probs = outcome_keys odds /\
     (forall k v, In (k, v) probs -> exists p, v = Fl p /\ 0 < p) /\
     Rabs (Rsum (float_values probs) - 1)
     <= 2 * (INR (List.length (outcome_keys odds)) + 1) * eps).
Proof.
  intros Hwf Hne Habove. split.
  - now apply remove_vig_exact_sums_to_one.
  - intros Hin Hcount fa. exists (fl_result fa odds).
    apply (remove_vig_fl_result fa odds 0 (Z.of_nat 128));
      [lia|lia|now apply outcome_keys_NoDup|exact Hne|now apply odds_within_one
      |now apply count_bound].
Qed.

Lemma example_market_within : odds_within 1 (2 ^ 128) example_market.
Proof.
  assert (H : 4 <= 2 ^ 128).
  { replace 4 with (2 ^ 2) by (simpl; lra). apply Rle_pow; [lra|lia]. }
  intros k Hk. cbv in Hk.
  destruct Hk as [<-|[<-|[<-|[]]]]; eexists; (split; [reflexivity|lra]).
Defined.

Lemma remove_vig_sums_to_one_witness :
  (exists probs : dict num,
     remove_vig_multiplicative example_market = Ok (Some probs) /\
     dkeys probs = ["home"; "draw"; "away"] /\
     (forall k v, In (k, v) probs -> exists p, v = Fl p /\ 0 < p <= 1) /\
     sum_nums (dvalues probs) = Fl 1) /\
  (exists probs : dict num,
     remove_vig_multiplicative_fl exact_in_range example_market
     = Ok (Some probs) /\
     dkeys probs = ["home"; "draw"; "away"] /\
     (forall k v, In (k, v) probs -> exists p, v = Fl p /\ 0 < p) /\
     Rabs (Rsum (float_values probs) - 1) <= 2 * (INR 3 + 1) * eps).
Proof.
  destruct (remove_vig_sums_to_one example_market) as [Hexact Hfloat].
  - exact example_market_wf.
  - discriminate.
  - exact example_market_above_1.
  - split; [exact Hexact|].
    apply (Hfloat example_market_within).
    change (Z.of_nat (List.length (outcome_keys example_market))) with 3%Z.
    lia.
Defined.

(** C4 (the code at the failing inputs).  The claim has non-positive odds
    answered by None and no exception reaching the caller.  The market
    {home: -2, away: 3} is de-vigged instead, to {home: 9/13, away: 4/13};
    and on {home: 2^-600, away: 3} the first power overflows over every
    binary64 arithmetic, so that [OverflowError], which the function does
    not catch, reaches the caller. *)
Theorem remove_vig_lets_failures_through :
  remove_vig_multiplicative [("home", VFloat (-2)); ("away", VFloat 3)]
  = Ok (Some [("home", Fl (9 / 13)); ("away", Fl (4 / 13))]) /\
  forall fa : float_ops,
    remove_vig_multiplicative_fl fa market_2_m600 = Raise OverflowError.
Proof.
  split; [exact negative_odds_de_vigged|exact remove_vig_fl_overflow].
Qed.

(** C10 (as stated) fails: in binary64, for the probability 0.11 and the
    odds 9.1, the probability backed out of the edge is not 0.11. *)
Lemma kelly_roundtrip_not_exact :
  Binary64.kelly_probability_b64
    (Binary64.calculate_edge_b64 (Binary64.decimal 11 2) (Binary64.decimal 91 1))
    (Binary64.decimal 91 1)
  <> Ok (Binary64.decimal 11 2).
Proof. vm_compute. discriminate. Qed.

(** C10 (amended).  For odds > 0 the probability [kelly_stake] backs out of
    [calculate_edge true_prob odds] at the same odds is [true_prob] in exact
    arithmetic, and past the guard the stake is sized with the Kelly
    fraction of [true_prob] itself; over every binary64 arithmetic, for a
    probability in [0, 1] and decimal odds between 1 and 2^1000, the
    probability backed out is within [8 * 2^-52] of [true_prob]. *)
Theorem calculate_edge_kelly_roundtrip (true_prob odds : R) :
  0 < odds ->
  (kelly_probability (calculate_edge true_prob odds) odds = Ok true_prob /\
   forall bankroll kelly_fraction,
     0 < calculate_edge true_prob odds -> 1 < odds ->
     kelly_stake (calculate_edge true_prob odds) odds bankroll kelly_fraction =
     Ok (Rmin (Rmax 0 (((odds - 1) * true_prob - (1 - true_prob)) / (odds - 1)
                       * kelly_fraction) * bankroll)
              (bankroll * MAX_STAKE_PERCENTAGE))) /\
  (0 <= true_prob <= 1 -> 1 <= odds <= 2 ^ 1000 ->
   forall fa : float_ops,
   exists p : R,
     kelly_probability_fl fa (calculate_edge_fl fa true_prob odds) odds = Ok p /\
     Rabs (p - true_prob) <= 8 * eps).
Proof.
  intros Ho. split.
  - now apply kelly_roundtrip_exact.
  - intros Hp Hodds fa. apply kelly_roundtrip_fl; [exact Hp|].
    change 1000%Z with (Z.of_nat 1000). now rewrite pw_nat.
Qed.

Lemma calculate_edge_kelly_roundtrip_witness :
  (kelly_probability (calculate_edge (11 / 20) 2) 2 = Ok (11 / 20) /\
   forall bankroll kelly_fraction,
     0 < calculate_edge (11 / 20) 2 -> 1 < 2 ->
     kelly_stake (calculate_edge (11 / 20) 2) 2 bankroll kelly_fraction =
     Ok (Rmin (Rmax 0 (((2 - 1) * (11 / 20) - (1 - 11 / 20)) / (2 - 1)
                       * kelly_fraction) * bankroll)
              (bankroll * MAX_STAKE_PERCENTAGE))) /\
  (exists p : R,
     kelly_probability_fl exact_in_range
       (calculate_edge_fl exact_in_range (11 / 20) 2) 2 = Ok p /\
     Rabs (p - 11 / 20) <= 8 * eps).
Proof.
  destruct (calculate_edge_kelly_roundtrip (11 / 20) 2) as [Hexact Hfloat].
  - lra.
  - split; [exact Hexact|]. apply Hfloat; [lra|].
    split; [lra|]. replace 2 with (2 ^ 1) at 1 by (simpl; lra).
    apply Rle_pow; [lra|lia].
Defined.

End FloatArithFacts.

(* ===================================================================== *)
(** * Properties of the team normalizer *)
(* ===================================================================== *)

Module TeamNormalizerFacts.

Import TeamNormalizer Vocabulary.

Lemma pystr_eqb_eq (a b : pystr) : pystr_eqb a b = true <-> a = b.
Proof.
  revert b; induction a as [|x a IH]; intros [|y b]; simpl;
    try (split; [discriminate|discriminate]); [tauto|].
  rewrite andb_true_iff, N.eqb_eq, IH. split.
  - intros [-> ->]. reflexivity.
  - intros [= -> ->]. now split.
Qed.

Lemma alias_lookup_in_value (table : list (string * string)) (key v : pystr) :
  alias_lookup_in table key = Some v ->
  exists k w, In (k, w) table /\ u k = key /\ v = u w.
Proof.
  induction table as [|[k w] table IH]; simpl; [discriminate|].
  destruct (pystr_eqb (u k) key) eqn:E.
  - intros [= <-]. exists k, w. apply pystr_eqb_eq in E. now repeat split; [left|..].
  - intros H. destruct (IH H) as (k' & w' & Hin & Hk & Hv).
    exists k', w'. repeat split; [now right|assumption..].
Qed.

(** No canonical name of the alias table is empty, and the empty string is
    not one of its keys. *)
Lemma alias_values_nonempty :
  forallb (fun kv => negb (pystr_eqb (u (snd kv)) [])) TEAM_ALIASES = true.
Proof. vm_compute. reflexivity. Qed.

Lemma alias_lookup_empty_key : alias_lookup [] = None.
Proof. vm_compute. reflexivity. Qed.

Lemma alias_lookup_nonempty (key v : pystr) :
  alias_lookup key = Some v -> v <> [].
Proof.
  intros H. unfold alias_lookup in H. apply alias_lookup_in_value in H.
  destruct H as (k & w & Hin & _ & ->).
  pose proof alias_values_nonempty as Hall. rewrite forallb_forall in Hall.
  specialize (Hall (k, w) Hin). simpl in Hall.
  intros Hempty. rewrite Hempty in Hall. discriminate.
Qed.

Lemma alias_lookup_value (key v : pystr) :
  alias_lookup key = Some v ->
  exists k w, In (k, w) TEAM_ALIASES /\ u k = key /\ v = u w.
Proof. apply alias_lookup_in_value. Qed.

Lemma normalize_team_name_cases (lib : Library) (name : pystr) :
  name <> [] ->
  normalize_team_name lib name = basic_normalize lib name \/
  exists k w, In (k, w) TEAM_ALIASES /\ normalize_team_name lib name = u w.
Proof.
  intros Hne. unfold normalize_team_name.
  destruct name as [|c name]; [congruence|].
  repeat match goal with
         | |- context [alias_lookup ?x] =>
             let E := fresh "E" in
             destruct (alias_lookup x) eqn:E;
             [right; apply alias_lookup_value in E;
              destruct E as (k & w & Hin & _ & ->); exists k, w;
              split; [exact Hin|reflexivity]|]
         end.
  now left.
Qed.

Lemma normalize_team_name_empty_iff (lib : Library) (name : pystr) :
  normalize_team_name lib name = [] <->
  name = [] \/ basic_normalize lib name = [].
Proof.
  split.
  - intros H. destruct name as [|c name]; [now left|right].
    unfold normalize_team_name in H.
    repeat match type of H with
           | context [alias_lookup ?x] =>
               let E := fresh "E" in
               destruct (alias_lookup x) eqn:E;
               [apply alias_lookup_nonempty in E; contradiction|]
           end.
    exact H.
  - intros [->|H]; [reflexivity|].
    unfold normalize_team_name. destruct name as [|c name]; [reflexivity|].
    rewrite H. reflexivity.
Qed.

(** C9 (as stated) fails whatever the Unicode tables are: the one-space
    string is not empty and normalizes to the empty string. *)
Lemma normalize_blank_is_empty :
  ~ (exists lib : Library,
       forall name : pystr, name <> [] -> normalize_team_name lib name <> []).
Proof.
  intros [lib H]. apply (H (u " ")); [discriminate|]. vm_compute. reflexivity.
Qed.

(** C9 (amended).  [normalize_team_name] is total; it maps the empty string
    to the empty string, and returns the empty string exactly when the input
    is empty or its basic normalization is empty; the result is the basic
    normalization or a canonical name of the alias table; and when the
    three alias lookups fail it is the normalized-but-unmapped string. *)
Theorem normalize_team_name_result (lib : Library) (name : pystr) :
  normalize_team_name lib [] = [] /\
  (normalize_team_name lib name = [] <->
   name = [] \/ basic_normalize lib name = []) /\
  (name <> [] ->
   normalize_team_name lib name = basic_normalize lib name \/
   exists k w, In (k, w) TEAM_ALIASES /\ normalize_team_name lib name = u w) /\
  (name <> [] ->
   alias_lookup (basic_normalize lib name) = None ->
   alias_lookup (strip_prefix_token PREFIXES (basic_normalize lib name)) = None ->
   alias_lookup (strip_suffix_token SUFFIXES (basic_normalize lib name)) = None ->
   normalize_team_name lib name = basic_normalize lib name).
Proof.
  split; [reflexivity|]. split; [apply normalize_team_name_empty_iff|].
  split; [apply normalize_team_name_cases|].
  intros Hne H1 H2 H3. unfold normalize_team_name.
  destruct name as [|c name]; [congruence|]. now rewrite H1, H2, H3.
Qed.

End TeamNormalizerFacts.

(* ===================================================================== *)
(** * Properties of the event matcher *)
(* ===================================================================== *)

Module EventMatcherFacts.

Import Settings TeamNormalizer DatetimeUtils EventMatcher Vocabulary.
Local Open Scope Q_scope.

Lemma existsb_eqb_false (n : nat) (l : list nat) :
  existsb (Nat.eqb n) l = false -> ~ In n l.
Proof.
  intros H Hin. assert (existsb (Nat.eqb n) l = true); [|congruence].
  apply existsb_exists. exists n. split; [exact Hin|apply Nat.eqb_refl].
Qed.

Lemma total_seconds_opp (d : Z) : total_seconds (- d) = - total_seconds d.
Proof. reflexivity. Qed.

Lemma gap_symmetric (a b : Z) :
  Qabs (total_seconds (a - b)) == Qabs (total_seconds (b - a)).
Proof.
  replace (a - b)%Z with (- (b - a))%Z by lia.
  rewrite total_seconds_opp. apply Qabs_opp.
Qed.

Lemma within_time_window_gap (dt1 dt2 : datetime) (minutes : Z) :
  within_time_window dt1 dt2 minutes = true ->
  Qabs (total_seconds (dt2 - dt1)) <= inject_Z (minutes * 60).
Proof.
  unfold within_time_window. intros H. apply Qle_bool_iff in H.
  now rewrite gap_symmetric.
Qed.

(** Every candidate the inner loop records is an unused right event of the
    left event's league, at the recorded position, whose kickoff parses and
    lies within the window; its score is the gap, plus 1000 when the match
    is not exact. *)
Lemma scan_candidates_sound (lib : Library) (left_event : UnifiedEvent)
    (left_kickoff : datetime) (left_home left_away : pystr)
    (used : list nat) (tol : Z) (min_sim : Q) :
  forall (right : list UnifiedEvent) (idx : nat) (cands : list candidate),
    scan_candidates lib left_event left_kickoff left_home left_away used tol
      min_sim idx right = Some cands ->
    forall c, In c cands ->
      (idx <= cand_idx c)%nat /\
      nth_error right (cand_idx c - idx) = Some (cand_event c) /\
      ~ In (cand_idx c) used /\
      league (cand_event c) = league left_event /\
      cand_exact c =
        (pystr_eqb left_home (normalize_team_name lib (home (cand_event c)))
         && pystr_eqb left_away (normalize_team_name lib (away (cand_event c)))) /\
      exists tr,
        parse_datetime lib (kickoff_utc (cand_event c)) = Some tr /\
        Qabs (total_seconds (tr - left_kickoff)) <= inject_Z (tol * 60) /\
        cand_score c =
          if cand_exact c then Qabs (total_seconds (tr - left_kickoff))
          else Qabs (total_seconds (tr - left_kickoff)) + 1000.
Proof.
  induction right as [|r rest IH]; intros idx cands Hscan c Hin.
  - simpl in Hscan. injection Hscan as <-. contradiction.
  - assert (Hlater : forall cs,
              scan_candidates lib left_event left_kickoff left_home left_away
                used tol min_sim (S idx) rest = Some cs ->
              In c cs ->
              (idx <= cand_idx c)%nat /\
              nth_error (r :: rest) (cand_idx c - idx) = Some (cand_event c) /\
              ~ In (cand_idx c) used /\
              league (cand_event c) = league left_event /\
              cand_exact c =
                (pystr_eqb left_home (normalize_team_name lib (home (cand_event c)))
                 && pystr_eqb left_away
                      (normalize_team_name lib (away (cand_event c)))) /\
              exists tr,
                parse_datetime lib (kickoff_utc (cand_event c)) = Some tr /\
                Qabs (total_seconds (tr - left_kickoff)) <= inject_Z (tol * 60) /\
                cand_score c =
                  if cand_exact c then Qabs (total_seconds (tr - left_kickoff))
                  else Qabs (total_seconds (tr - left_kickoff)) + 1000).
    { intros cs Hcs Hc. destruct (IH (S idx) cs Hcs c Hc) as (Hle & Hnth & Hrest).
      split; [lia|]. split; [|exact Hrest].
      replace (cand_idx c - idx)%nat with (S (cand_idx c - S idx)) by lia.
      exact Hnth. }
    cbn [scan_candidates] in Hscan. cbv zeta in Hscan.
    destruct (existsb (Nat.eqb idx) used) eqn:Eused;
      [now apply (Hlater cands)|].
    destruct (String.eqb_spec (league r) (league left_event)) as [Elg|Elg];
      [|now apply (Hlater cands)].
    cbn [orb negb] in Hscan.
    destruct (_ || Qle_bool min_sim _) eqn:Equal in Hscan;
      [|now apply (Hlater cands)].
    destruct (parse_datetime lib (kickoff_utc r)) as [rk|] eqn:Eparse;
      [|discriminate].
    destruct (within_time_window left_kickoff rk tol) eqn:Ewin;
      [|now apply (Hlater cands)].
    destruct (scan_candidates lib left_event left_kickoff left_home left_away
                used tol min_sim (S idx) rest) as [more|] eqn:Emore;
      [|discriminate].
    injection Hscan as <-. destruct Hin as [<-|Hin]; [|now apply (Hlater more)].
    cbn [cand_idx cand_event cand_exact cand_score].
    split; [lia|]. rewrite Nat.sub_diag. split; [reflexivity|].
    split; [now apply existsb_eqb_false|]. split; [exact Elg|].
    split; [reflexivity|]. exists rk. split; [exact Eparse|].
    split; [now apply within_time_window_gap|reflexivity].
Qed.

Lemma candidates_for_sound (lib : Library) (left_event : UnifiedEvent)
    (right : list UnifiedEvent) (used : list nat) (tol : Z) (min_sim : Q)
    (cands : list candidate) :
  candidates_for lib left_event right used tol min_sim = Some cands ->
  forall c, In c cands -> candidate_ok lib left_event right used tol c.
Proof.
  unfold candidates_for. intros Hc c Hin.
  destruct (parse_datetime lib (kickoff_utc left_event)) as [lk|] eqn:El;
    [|discriminate].
  destruct (scan_candidates_sound _ _ _ _ _ _ _ _ _ _ _ Hc c Hin)
    as (_ & Hnth & Hused & Hlg & Hex & tr & Hp & Hgap & Hscore).
  rewrite Nat.sub_0_r in Hnth.
  unfold candidate_ok, kickoff_gap, exact_names. rewrite El, Hp.
  repeat split; try assumption. now exists lk, tr.
Qed.

Lemma Qlt_bool_iff (x y : Q) : Qlt_bool x y = true <-> x < y.
Proof.
  unfold Qlt_bool. rewrite negb_true_iff. split.
  - intros H. apply Qnot_le_lt. intros Hle. apply Qle_bool_iff in Hle. congruence.
  - intros H. destruct (Qle_bool y x) eqn:E; [|reflexivity].
    apply Qle_bool_iff in E. exfalso. exact (Qlt_not_le _ _ H E).
Qed.

Lemma min_by_score_spec (rest : list candidate) :
  forall best,
    In (min_by_score best rest) (best :: rest) /\
    cand_score (min_by_score best rest) <= cand_score best /\
    forall c, In c rest -> cand_score (min_by_score best rest) <= cand_score c.
Proof.
  induction rest as [|c rest IH]; intros best; simpl.
  - split; [now left|]. split; [apply Qle_refl|intros c []].
  - destruct (Qlt_bool (cand_score c) (cand_score best)) eqn:E.
    + destruct (IH c) as (Hin & Hle & Hall). apply Qlt_bool_iff in E.
      split; [right; exact Hin|]. split.
      * apply Qle_trans with (cand_score c); [exact Hle|now apply Qlt_le_weak].
      * intros c' [<-|Hc']; [exact Hle|now apply Hall].
    + destruct (IH best) as (Hin & Hle & Hall).
      assert (Hbc : cand_score best <= cand_score c).
      { apply Qnot_lt_le. intros Hlt. apply Qlt_bool_iff in Hlt. congruence. }
      split; [destruct Hin as [Hin|Hin]; [now left|right; now right]|].
      split; [exact Hle|].
      intros c' [<-|Hc']; [now apply Qle_trans with (cand_score best)|now apply Hall].
Qed.

Lemma scan_candidates_take (lib : Library) (left_event : UnifiedEvent)
    (lk : datetime) (lh la : pystr) (used : list nat) (tol : Z) (min_sim : Q)
    (idx : nat) (r : UnifiedEvent) (rest : list UnifiedEvent) (rk : datetime) :
  existsb (Nat.eqb idx) used = false ->
  String.eqb (league r) (league left_event) = true ->
  (pystr_eqb lh (normalize_team_name lib (home r))
   && pystr_eqb la (normalize_team_name lib (away r)))
  || Qle_bool min_sim
       ((team_similarity lib lh (normalize_team_name lib (home r))
         + team_similarity lib la (normalize_team_name lib (away r))) / 2) = true ->
  parse_datetime lib (kickoff_utc r) = Some rk ->
  within_time_window lk rk tol = true ->
  scan_candidates lib left_event lk lh la used tol min_sim idx (r :: rest) =
  match scan_candidates lib left_event lk lh la used tol min_sim (S idx) rest with
  | Some more =>
      Some ({| cand_idx := idx; cand_event := r;
               cand_score :=
                 if pystr_eqb lh (normalize_team_name lib (home r))
                    && pystr_eqb la (normalize_team_name lib (away r))
                 then Qabs (total_seconds (rk - lk))
                 else Qabs (total_seconds (rk - lk)) + 1000;
               cand_exact :=
                 pystr_eqb lh (normalize_team_name lib (home r))
                 && pystr_eqb la (normalize_team_name lib (away r));
               cand_similarity :=
                 (team_similarity lib lh (normalize_team_name lib (home r))
                  + team_similarity lib la (normalize_team_name lib (away r))) / 2
            |} :: more)
  | None => None
  end.
Proof.
  intros Hused Hlg Hq Hp Hw. cbn [scan_candidates]. cbv zeta.
  rewrite Hused, Hlg. cbn [orb negb]. rewrite Hq, Hp, Hw. reflexivity.
Qed.




Lemma kickoff_gap_nonneg (lib : Library) (l r : UnifiedEvent) :
  0 <= kickoff_gap lib l r.
Proof.
  unfold kickoff_gap.
  destruct (parse_datetime lib (kickoff_utc l));
    [destruct (parse_datetime lib (kickoff_utc r))|];
    [apply Qabs_nonneg|apply Qle_refl|apply Qle_refl].
Qed.






(** ** The pairing is one to one *)

Lemma match_loop_sound (lib : Library) (right : list UnifiedEvent)
    (tol : Z) (min_sim : Q) :
  forall (left : list UnifiedEvent) (li : nat) (used : list nat) (m : matched),
    In m (match_loop lib right tol min_sim li left used) ->
    (li <= left_index m)%nat /\
    nth_error left (left_index m - li) = Some (left_event_of m) /\
    exists c used',
      incl used used' /\
      candidate_ok lib (left_event_of m) right used' tol c /\
      cand_idx c = right_index m /\ cand_event c = right_event_of m.
Proof.
  induction left as [|l rest IH]; intros li used m Hin; [contradiction|].
  assert (Hlater : forall used',
            incl used used' ->
            In m (match_loop lib right tol min_sim (S li) rest used') ->
            (li <= left_index m)%nat /\
            nth_error (l :: rest) (left_index m - li) = Some (left_event_of m) /\
            exists c used'',
              incl used used'' /\
              candidate_ok lib (left_event_of m) right used'' tol c /\
              cand_idx c = right_index m /\ cand_event c = right_event_of m).
  { intros used' Hincl Hm.
    destruct (IH (S li) used' m Hm) as (Hle & Hnth & c & used'' & Hi & Hrest).
    split; [lia|]. split.
    - replace (left_index m - li)%nat with (S (left_index m - S li)) by lia.
      exact Hnth.
    - exists c, used''. split; [|exact Hrest].
      intros x Hx. apply Hi, Hincl, Hx. }
  cbn [match_loop] in Hin.
  destruct (candidates_for lib l right used tol min_sim) as [[|c cs]|] eqn:Ec;
    try (apply (Hlater used); [apply incl_refl|exact Hin]).
  destruct Hin as [<-|Hin].
  - cbn [left_index left_event_of right_index right_event_of].
    split; [lia|]. rewrite Nat.sub_diag. split; [reflexivity|].
    exists (min_by_score c cs), used. split; [apply incl_refl|].
    split; [|split; reflexivity].
    apply (candidates_for_sound _ _ _ _ _ _ _ Ec).
    apply (min_by_score_spec cs c).
  - apply (Hlater (cand_idx (min_by_score c cs) :: used)); [|exact Hin].
    intros x Hx. now right.
Qed.

Lemma match_loop_right_fresh (lib : Library) (right : list UnifiedEvent)
    (tol : Z) (min_sim : Q) (left : list UnifiedEvent) (li : nat)
    (used : list nat) (m : matched) :
  In m (match_loop lib right tol min_sim li left used) ->
  ~ In (right_index m) used.
Proof.
  intros Hin. destruct (match_loop_sound _ _ _ _ _ _ _ _ Hin)
    as (_ & _ & c & used' & Hincl & (_ & Hfresh & _) & Hidx & _).
  rewrite <- Hidx. intros Hu. apply Hfresh, Hincl, Hu.
Qed.

Lemma match_loop_right_NoDup (lib : Library) (right : list UnifiedEvent)
    (tol : Z) (min_sim : Q) :
  forall (left : list UnifiedEvent) (li : nat) (used : list nat),
    NoDup (map right_index (match_loop lib right tol min_sim li left used)).
Proof.
  induction left as [|l rest IH]; intros li used; [constructor|].
  cbn [match_loop].
  destruct (candidates_for lib l right used tol min_sim) as [[|c cs]|];
    try apply IH.
  cbn [map right_index]. constructor; [|apply IH].
  intros Hin. apply in_map_iff in Hin. destruct Hin as (m & Hidx & Hm).
  apply match_loop_right_fresh in Hm. apply Hm. rewrite Hidx. now left.
Qed.

Lemma match_loop_left_NoDup (lib : Library) (right : list UnifiedEvent)
    (tol : Z) (min_sim : Q) :
  forall (left : list UnifiedEvent) (li : nat) (used : list nat),
    NoDup (map left_index (match_loop lib right tol min_sim li left used)).
Proof.
  induction left as [|l rest IH]; intros li used; [constructor|].
  cbn [match_loop].
  destruct (candidates_for lib l right used tol min_sim) as [[|c cs]|];
    try apply IH.
  cbn [map left_index]. constructor; [|apply IH].
  intros Hin. apply in_map_iff in Hin. destruct Hin as (m & Hidx & Hm).
  destruct (match_loop_sound _ _ _ _ _ _ _ _ Hm) as (Hle & _). lia.
Qed.

(** C6.  The pairs [match_events] returns are those of its trace, in order;
    each pair joins the left event at one position with the right event at
    one position, of the same league, whose kickoffs both parse and lie at
    most [time_tolerance_minutes * 60] seconds apart; no right position and
    no left position occurs in two pairs. *)
Theorem match_events_one_to_one (lib : Library) (left right : list UnifiedEvent)
    (tol : Z) (min_sim : Q) :
  let trace := match_trace lib left right tol min_sim in
  match_events lib left right tol min_sim
    = map (fun m => (left_event_of m, right_event_of m)) trace /\
  (forall m, In m trace ->
     nth_error left (left_index m) = Some (left_event_of m) /\
     nth_error right (right_index m) = Some (right_event_of m) /\
     league (left_event_of m) = league (right_event_of m) /\
     exists tl tr,
       parse_datetime lib (kickoff_utc (left_event_of m)) = Some tl /\
       parse_datetime lib (kickoff_utc (right_event_of m)) = Some tr /\
       Qabs (total_seconds (tr - tl)) <= inject_Z (tol * 60)) /\
  NoDup (map right_index trace) /\
  NoDup (map left_index trace).
Proof.
  cbv zeta. unfold match_trace. split; [reflexivity|]. split; [|split].
  - intros m Hm.
    destruct (match_loop_sound _ _ _ _ _ _ _ _ Hm)
      as (_ & Hnth & c & used' & _ & Hok & Hidx & Hev).
    rewrite Nat.sub_0_r in Hnth.
    destruct Hok as (Hr & _ & Hlg & _ & (tl & tr & Hl & Hrp) & Hgap & _).
    rewrite Hidx, Hev in *. split; [exact Hnth|]. split; [exact Hr|].
    split; [now symmetry|]. exists tl, tr.
    unfold kickoff_gap in Hgap. rewrite Hl, Hrp in Hgap. now repeat split.
  - apply match_loop_right_NoDup.
  - apply match_loop_left_NoDup.
Qed.

End EventMatcherFacts.

(* ===================================================================== *)
(** * Properties of the pipeline *)
(* ===================================================================== *)

Module PipelineFacts.

Import Settings ValueAnalyzer TeamNormalizer DatetimeUtils EventMatcher Pipeline.
Import Vocabulary ValueAnalyzerFacts.
Local Open Scope R_scope.

(** ** The final sort *)

Lemma insert_by_edge_perm (b : ValueBet) (l : list ValueBet) :
  Permutation (b :: l) (insert_by_edge b l).
Proof.
  induction l as [|x l IH]; simpl; [apply Permutation_refl|].
  destruct (Rlt_dec (edge_percentage b) (edge_percentage x)).
  - apply perm_trans with (x :: b :: l); [apply perm_swap|now apply perm_skip].
  - apply Permutation_refl.
Qed.

Lemma sort_by_edge_desc_perm (l : list ValueBet) :
  Permutation l (sort_by_edge_desc l).
Proof.
  induction l as [|b l IH]; simpl; [apply perm_nil|].
  apply perm_trans with (b :: sort_by_edge_desc l);
    [now apply perm_skip|apply insert_by_edge_perm].
Qed.

Lemma insert_by_edge_sorted (b : ValueBet) (l : list ValueBet) :
  StronglySorted edge_desc l -> StronglySorted edge_desc (insert_by_edge b l).
Proof.
  induction 1 as [|x l Hs IH Hall]; simpl.
  - constructor; constructor.
  - destruct (Rlt_dec (edge_percentage b) (edge_percentage x)) as [Hlt|Hge].
    + constructor; [exact IH|].
      apply Forall_forall. intros y Hy.
      apply (Permutation_in _ (Permutation_sym (insert_by_edge_perm b l))) in Hy.
      destruct Hy as [<-|Hy]; [unfold edge_desc; lra|].
      rewrite Forall_forall in Hall. now apply Hall.
    + constructor; [now constructor|].
      constructor; [unfold edge_desc; lra|].
      apply Forall_forall. intros y Hy. rewrite Forall_forall in Hall.
      specialize (Hall y Hy). unfold edge_desc in *. lra.
Qed.

Lemma sort_by_edge_desc_sorted (l : list ValueBet) :
  StronglySorted edge_desc (sort_by_edge_desc l).
Proof.
  induction l as [|b l IH]; simpl; [constructor|].
  now apply insert_by_edge_sorted.
Qed.

(** Inserting a bet leaves the bets of every edge value in their order, the
    new bet first among those of its own edge. *)
Lemma insert_by_edge_stable (e : R) (b : ValueBet) (l : list ValueBet) :
  filter (has_edge e) (insert_by_edge b l) = filter (has_edge e) (b :: l).
Proof.
  induction l as [|x l IH]; [reflexivity|].
  cbn [insert_by_edge].
  destruct (Rlt_dec (edge_percentage b) (edge_percentage x)) as [Hlt|Hge];
    [|reflexivity].
  cbn [filter] in *. rewrite IH.
  unfold has_edge.
  destruct (Req_dec_T (edge_percentage x) e) as [Hx|Hx];
    destruct (Req_dec_T (edge_percentage b) e) as [Hb|Hb];
    try reflexivity. lra.
Qed.

Lemma sort_by_edge_desc_stable (e : R) (l : list ValueBet) :
  filter (has_edge e) (sort_by_edge_desc l) = filter (has_edge e) l.
Proof.
  induction l as [|b l IH]; [reflexivity|].
  cbn [sort_by_edge_desc fold_right]. fold (sort_by_edge_desc l).
  rewrite insert_by_edge_stable. cbn [filter]. now rewrite IH.
Qed.

(** C8.  Whenever [generate_value_bets] returns, its list is the emitted
    bets rearranged, sorted by edge percentage in descending order, and the
    bets of any one edge percentage keep the order in which they were
    emitted. *)
Theorem generate_value_bets_sorted_stable (lib : Library)
    (anchor_events : list UnifiedEvent) (soft_books : dict (list UnifiedEvent))
    (time_tolerance : Z) (min_edge bankroll : R) (bets : list ValueBet) :
  generate_value_bets lib anchor_events soft_books time_tolerance min_edge bankroll
    = Ok bets ->
  exists emitted,
    emit_value_bets lib anchor_events soft_books time_tolerance min_edge bankroll
      = Ok emitted /\
    Permutation emitted bets /\
    StronglySorted edge_desc bets /\
    forall e, filter (has_edge e) bets = filter (has_edge e) emitted.
Proof.
  unfold generate_value_bets. intros H.
  destruct (emit_value_bets lib anchor_events soft_books time_tolerance
              min_edge bankroll) as [emitted|e]; [|discriminate].
  injection H as <-. exists emitted. split; [reflexivity|].
  split; [apply sort_by_edge_desc_perm|].
  split; [apply sort_by_edge_desc_sorted|].
  intros e. apply sort_by_edge_desc_stable.
Qed.

(** ** Running the pipeline on the example batch *)

Lemma example_markets_positive :
  odds_above 0 anchor_market_1x2 /\ odds_above 0 partial_market_1x2 /\
  odds_above 0 anchor_market_btts /\ odds_above 0 soft_market_btts.
Proof.
  repeat split; intros k Hk; cbv in Hk;
    repeat (destruct Hk as [<-|Hk]; [eexists; split; [reflexivity|lra]|]);
    contradiction.
Qed.

Lemma example_markets_wf :
  wf_dict anchor_market_1x2 /\ wf_dict partial_market_1x2 /\
  wf_dict anchor_market_btts /\ wf_dict soft_market_btts.
Proof.
  repeat split; unfold wf_dict; simpl; repeat constructor; simpl;
    intuition discriminate.
Qed.

Lemma example_events_match (lib : Library) (soft : UnifiedEvent) :
  soft = soft_event_btts \/ soft = soft_event_partial ->
  match_events lib [soft] [anchor_event_full] 12 TEAM_SIMILARITY_THRESHOLD
  = [(soft, anchor_event_full)].
Proof. intros [->| ->]; reflexivity. Qed.

(** The fair two-way anchor market de-vigs to one half each. *)
Lemma anchor_btts_half (k : string) :
  In k ["yes"; "no"] -> devig_probability anchor_market_btts k = 1 / 2.
Proof.
  intros Hk. destruct example_markets_positive as (_ & _ & Hpos & _).
  rewrite (devig_probability_ratio anchor_market_btts _ Hpos) by discriminate.
  change (outcome_keys anchor_market_btts) with ["yes"; "no"].
  change (List.length ["yes"; "no"]) with 2%nat.
  unfold devig_exponent. rewrite exponent_two. cbn [map Rsum fold_right].
  change (odds_at anchor_market_btts "yes") with 2.
  change (odds_at anchor_market_btts "no") with 2.
  destruct Hk as [<-|[<-|[]]].
  - change (odds_at anchor_market_btts "yes") with 2.
    rewrite !Rpower_two by lra. field.
  - change (odds_at anchor_market_btts "no") with 2.
    rewrite !Rpower_two by lra. field.
Qed.

Lemma example_btts_bets (book : string) :
  market_bets book soft_event_btts anchor_event_full (25 / 1000) 1000 "btts"
  = Ok [example_bet book].
Proof.
  destruct example_markets_positive as (_ & _ & Hpa & Hps).
  destruct example_markets_wf as (_ & _ & Hwa & Hws).
  unfold market_bets.
  change (dget (markets soft_event_btts) "btts") with (Some soft_market_btts).
  change (dget (markets anchor_event_full) "btts") with (Some anchor_market_btts).
  cbv iota beta. change ("btts" =? "1x2")%string with false. cbv iota.
  rewrite (remove_vig_positive soft_market_btts Hws) by (discriminate || exact Hps).
  rewrite (remove_vig_positive anchor_market_btts Hwa) by (discriminate || exact Hpa).
  cbn [bind].
  change (devig_closed_form anchor_market_btts) with
    [("yes", Fl (devig_probability anchor_market_btts "yes"));
     ("no", Fl (devig_probability anchor_market_btts "no"))].
  change (devig_closed_form soft_market_btts) with
    [("yes", Fl (devig_probability soft_market_btts "yes"));
     ("no", Fl (devig_probability soft_market_btts "no"))].
  cbn [truthy negb orb or_empty dkeys map fst for_each].
  unfold outcome_bets.
  change (dmem soft_market_btts "yes") with true.
  change (dmem soft_market_btts "no") with true.
  cbn [negb].
  cbn [getitem dget String.eqb Ascii.eqb Bool.eqb bind
       soft_market_btts anchor_market_btts].
  assert (Hy : devig_probability anchor_market_btts "yes" = 1 / 2)
    by (apply anchor_btts_half; now left).
  assert (Hn : devig_probability anchor_market_btts "no" = 1 / 2)
    by (apply anchor_btts_half; right; now left).
  destruct (Rle_dec (25 / 1000)
              (calculate_edge (devig_probability anchor_market_btts "yes") (11 / 5)))
    as [_|Hc]; [|exfalso; apply Hc; rewrite Hy; unfold calculate_edge; lra].
  destruct (Rle_dec (25 / 1000)
              (calculate_edge (devig_probability anchor_market_btts "no") (17 / 10)))
    as [Hc|_]; [exfalso; rewrite Hn in Hc; unfold calculate_edge in Hc; lra|].
  rewrite kelly_stake_sized by (try (rewrite Hy; unfold calculate_edge); lra).
  cbn [bind app]. reflexivity.
Qed.

Lemma example_pair_bets (book : string) :
  for_each (market_bets book soft_event_btts anchor_event_full (25 / 1000) 1000)
           SUPPORTED_MARKETS
  = Ok [example_bet book].
Proof.
  unfold SUPPORTED_MARKETS. cbn [for_each].
  rewrite example_btts_bets.
  change (market_bets book soft_event_btts anchor_event_full (25 / 1000) 1000 "1x2")
    with (@Ok (list ValueBet) []).
  change (market_bets book soft_event_btts anchor_event_full (25 / 1000) 1000 "ou_2_5")
    with (@Ok (list ValueBet) []).
  reflexivity.
Qed.

(** Two books quoting the same value: both bets have the same edge and come
    out in the order of the books. *)
Lemma example_batch_runs :
  generate_value_bets plain_library [anchor_event_full]
    [("jacks", [soft_event_btts]); ("toto", [soft_event_btts])] 12 (25 / 1000) 1000
  = Ok [example_bet "jacks"; example_bet "toto"].
Proof.
  unfold generate_value_bets, emit_value_bets. cbn [for_each].
  rewrite (example_events_match plain_library soft_event_btts) by now left.
  cbn [for_each]. rewrite !example_pair_bets. cbn [bind app].
  unfold sort_by_edge_desc. cbn [fold_right insert_by_edge].
  destruct (Rlt_dec _ _) as [Hlt|_]; [|reflexivity].
  exfalso. cbn [edge_percentage example_bet] in Hlt. lra.
Qed.

Lemma generate_value_bets_sorted_stable_witness :
  exists emitted,
    emit_value_bets plain_library [anchor_event_full]
      [("jacks", [soft_event_btts]); ("toto", [soft_event_btts])] 12 (25 / 1000) 1000
      = Ok emitted /\
    Permutation emitted [example_bet "jacks"; example_bet "toto"] /\
    StronglySorted edge_desc [example_bet "jacks"; example_bet "toto"] /\
    forall e, filter (has_edge e) [example_bet "jacks"; example_bet "toto"]
              = filter (has_edge e) emitted.
Proof.
  apply (generate_value_bets_sorted_stable plain_library [anchor_event_full]
           [("jacks", [soft_event_btts]); ("toto", [soft_event_btts])]
           12 (25 / 1000) 1000).
  exact example_batch_runs.
Defined.

(** ** A partial 1x2 market aborts the batch *)

Lemma partial_market_swap_raises :
  check_home_away_swap partial_market_1x2 anchor_market_1x2 = Raise TypeError.
Proof.
  destruct example_markets_positive as (Hpa & Hpp & _).
  destruct example_markets_wf as (Hwa & Hwp & _).
  rewrite (check_home_away_swap_unfold _ _
             (devig_closed_form partial_market_1x2)
             (devig_closed_form anchor_market_1x2)).
  - change (dmem partial_market_1x2 "home" && dmem partial_market_1x2 "away")
      with true. cbv iota.
    change (swapped_odds partial_market_1x2)
      with [("home", VFloat 4); ("draw", VNone); ("away", VFloat (23 / 10))].
    unfold remove_vig_multiplicative at 1. unfold remove_vig_body.
    change (outcome_keys _) with ["home"; "draw"; "away"].
    py_eval. repeat decide_real. reflexivity.
  - apply remove_vig_positive; [exact Hwp|discriminate|exact Hpp].
  - discriminate.
  - apply remove_vig_positive; [exact Hwa|discriminate|exact Hpa].
  - discriminate.
Qed.

(** C7 (the code at the failing inputs).  The claim has the normal
    orientation kept whenever the swapped one is not adopted.  For a soft
    market that quotes "home" and "away" but no "draw", with both de-vigs
    done, the swapped market is built with [soft_odds.get("draw")], that is
    None, and de-vigging it raises [TypeError]: [check_home_away_swap]
    raises instead of returning the normal probabilities. *)
Theorem check_home_away_swap_raises_without_draw
    (soft anchor : dict pyval) (np ap : dict num) (o : R) :
  remove_vig_multiplicative soft = Ok (Some np) -> np <> [] ->
  remove_vig_multiplicative anchor = Ok (Some ap) -> ap <> [] ->
  dmem soft "home" = true ->
  dget soft "away" = Some (VFloat o) -> o <> 0 ->
  dget soft "draw" = None ->
  check_home_away_swap soft anchor = Raise TypeError.
Proof.
  intros Hn Hnne Ha Hane Hh Haw Ho Hd.
  rewrite (check_home_away_swap_unfold soft anchor np ap) by assumption.
  assert (Hm : dmem soft "away" = true) by (unfold dmem; now rewrite Haw).
  rewrite Hh, Hm. cbn [andb].
  unfold swapped_odds, get_or_none. rewrite Haw, Hd.
  unfold remove_vig_multiplicative at 1. unfold remove_vig_body.
  change (outcome_keys _) with ["home"; "draw"; "away"].
  py_eval. repeat decide_real. reflexivity.
Qed.

Lemma check_home_away_swap_raises_without_draw_witness :
  check_home_away_swap partial_market_1x2 anchor_market_1x2 = Raise TypeError.
Proof.
  destruct example_markets_positive as (Hpa & Hpp & _).
  destruct example_markets_wf as (Hwa & Hwp & _).
  apply (check_home_away_swap_raises_without_draw partial_market_1x2
           anchor_market_1x2 (devig_closed_form partial_market_1x2)
           (devig_closed_form anchor_market_1x2) 4).
  - apply remove_vig_positive; [exact Hwp|discriminate|exact Hpp].
  - discriminate.
  - apply remove_vig_positive; [exact Hwa|discriminate|exact Hpa].
  - discriminate.
  - reflexivity.
  - reflexivity.
  - lra.
  - reflexivity.
Defined.

(** C3 (the code at the failing input).  For every library, threshold and
    bankroll: the soft 1x2 market {home: 2.3, away: 4.0} (no "draw") makes
    [check_home_away_swap] raise [TypeError], and [generate_value_bets]
    raises it to its caller, although the second provider of the batch alone
    yields a value bet. *)
Theorem partial_market_aborts_batch (lib : Library) :
  check_home_away_swap partial_market_1x2 anchor_market_1x2 = Raise TypeError /\
  (forall min_edge bankroll,
     generate_value_bets lib [anchor_event_full]
       [("jacks", [soft_event_partial]); ("toto", [soft_event_btts])]
       12 min_edge bankroll = Raise TypeError) /\
  generate_value_bets lib [anchor_event_full] [("toto", [soft_event_btts])]
    12 (25 / 1000) 1000 = Ok [example_bet "toto"].
Proof.
  split; [exact partial_market_swap_raises|]. split.
  - intros min_edge bankroll.
    unfold generate_value_bets, emit_value_bets. cbn [for_each].
    rewrite (example_events_match lib soft_event_partial) by now right.
    cbn [for_each SUPPORTED_MARKETS].
    unfold market_bets at 1.
    change (dget (markets soft_event_partial) "1x2") with (Some partial_market_1x2).
    change (dget (markets anchor_event_full) "1x2") with (Some anchor_market_1x2).
    cbv iota beta. change ("1x2" =? "1x2")%string with true. cbv iota.
    rewrite partial_market_swap_raises. reflexivity.
  - unfold generate_value_bets, emit_value_bets. cbn [for_each].
    rewrite (example_events_match lib soft_event_btts) by now left.
    cbn [for_each]. rewrite example_pair_bets. reflexivity.
Qed.

End PipelineFacts.

(* ===================================================================== *)
(** * More on the odds engine *)
(* ===================================================================== *)

Module OddsEngineExtras.

Import Settings ValueAnalyzer Vocabulary ValueAnalyzerFacts.
Import FloatArith FloatArithFacts.
Local Open Scope R_scope.

(** ** The result depends on the outcome entries only *)

Lemma dict_build_ext {A V} (key : A -> string) (f g : A -> result V)
    (xs : list A) (acc : dict V) :
  (forall x, In x xs -> f x = g x) ->
  dict_build key f xs acc = dict_build key g xs acc.
Proof.
  revert acc; induction xs as [|x xs IH]; intros acc H; simpl; [reflexivity|].
  rewrite (H x) by now left. destruct (g x); simpl; [|reflexivity].
  apply IH. intros y Hy. apply H. now right.
Qed.

Lemma remove_vig_body_ext (o1 o2 : dict pyval) :
  outcome_keys o1 = outcome_keys o2 ->
  (forall k, In k (outcome_keys o1) -> dget o1 k = dget o2 k) ->
  remove_vig_body o1 = remove_vig_body o2.
Proof.
  intros Hk Hv. unfold remove_vig_body. rewrite <- Hk.
  rewrite (dict_build_ext (fun k => k)
             (fun k => v <- getitem o1 k ;; inverse_odds v)
             (fun k => v <- getitem o2 k ;; inverse_odds v)).
  - reflexivity.
  - intros k Hin. unfold getitem. now rewrite (Hv k Hin).
Qed.

Lemma list_mem_In (x : string) (l : list string) :
  list_mem x l = true <-> In x l.
Proof.
  unfold list_mem. rewrite existsb_exists. split.
  - intros (y & Hy & E). apply String.eqb_eq in E. now subst.
  - intros H. exists x. split; [exact H|apply String.eqb_refl].
Qed.

Lemma list_remove_absent (x : string) (l : list string) :
  ~ In x l -> list_remove x l = l.
Proof.
  induction l as [|y l IH]; intros H; simpl; [reflexivity|].
  destruct (String.eqb_spec y x) as [->|Hne]; [exfalso; apply H; now left|].
  rewrite IH; [reflexivity|]. intros Hin. apply H. now right.
Qed.

Lemma list_remove_filter (x : string) (l : list string) :
  NoDup l -> list_remove x l = filter (fun y => negb (String.eqb y x)) l.
Proof.
  induction 1 as [|y l Hy Hnd IH]; simpl; [reflexivity|].
  destruct (String.eqb_spec y x) as [->|Hne]; simpl.
  - rewrite <- IH. symmetry. now apply list_remove_absent.
  - now rewrite IH.
Qed.

Lemma outcome_keys_filter (odds : dict pyval) :
  wf_dict odds ->
  outcome_keys odds = filter (fun k => negb (is_aux_key k)) (dkeys odds).
Proof.
  unfold wf_dict, outcome_keys. intros Hnd.
  set (l1 := if list_mem "margin" (dkeys odds)
             then list_remove "margin" (dkeys odds) else dkeys odds).
  assert (H1 : l1 = filter (fun y => negb (String.eqb y "margin")) (dkeys odds)).
  { unfold l1. destruct (list_mem "margin" (dkeys odds)) eqn:E.
    - now apply list_remove_filter.
    - rewrite <- list_remove_filter by exact Hnd. symmetry.
      apply list_remove_absent. intros Hin. apply list_mem_In in Hin. congruence. }
  assert (Hnd1 : NoDup l1) by (rewrite H1; now apply NoDup_filter).
  assert (H2 : (if list_mem "line" l1 then list_remove "line" l1 else l1)
               = filter (fun y => negb (String.eqb y "line")) l1).
  { destruct (list_mem "line" l1) eqn:E.
    - now apply list_remove_filter.
    - rewrite <- list_remove_filter by exact Hnd1. symmetry.
      apply list_remove_absent. intros Hin. apply list_mem_In in Hin. congruence. }
  rewrite H2, H1. clear. induction (dkeys odds) as [|k l IH]; simpl; [reflexivity|].
  unfold is_aux_key.
  destruct (String.eqb k "margin"); simpl; [exact IH|].
  destruct (String.eqb k "line"); simpl; [exact IH|]. now rewrite IH.
Qed.

Lemma dkeys_strip_aux (odds : dict pyval) :
  dkeys (strip_aux odds) = filter (fun k => negb (is_aux_key k)) (dkeys odds).
Proof.
  unfold strip_aux, dkeys. induction odds as [|[k v] odds IH]; simpl; [reflexivity|].
  destruct (is_aux_key k); simpl; [exact IH|now rewrite IH].
Qed.

Lemma dget_strip_aux (odds : dict pyval) (k : string) :
  is_aux_key k = false -> dget (strip_aux odds) k = dget odds k.
Proof.
  intros Hk. unfold strip_aux. induction odds as [|[k' v] odds IH]; simpl; [reflexivity|].
  destruct (is_aux_key k') eqn:E; simpl.
  - destruct (String.eqb_spec k' k) as [->|_]; [congruence|exact IH].
  - destruct (String.eqb k' k); [reflexivity|exact IH].
Qed.

Lemma filter_idem {A} (p : A -> bool) (l : list A) :
  filter p (filter p l) = filter p l.
Proof.
  induction l as [|x l IH]; simpl; [reflexivity|].
  destruct (p x) eqn:E; simpl; [rewrite E, IH; reflexivity|exact IH].
Qed.

(** X1.  [remove_vig_multiplicative] reads the outcome entries only: a
    market gives the same result with and without its "margin" and "line"
    entries, whatever their values. *)
Theorem remove_vig_ignores_margin_and_line (odds : dict pyval) :
  wf_dict odds ->
  remove_vig_multiplicative odds = remove_vig_multiplicative (strip_aux odds).
Proof.
  intros Hwf.
  assert (Hwf' : wf_dict (strip_aux odds)).
  { unfold wf_dict. rewrite dkeys_strip_aux. now apply NoDup_filter. }
  unfold remove_vig_multiplicative. f_equal.
  apply remove_vig_body_ext.
  - rewrite !outcome_keys_filter by assumption.
    now rewrite dkeys_strip_aux, filter_idem.
  - intros k Hk. rewrite outcome_keys_filter in Hk by assumption.
    apply filter_In in Hk. destruct Hk as [_ Hk]. apply negb_true_iff in Hk.
    symmetry. now apply dget_strip_aux.
Qed.

Lemma remove_vig_ignores_margin_and_line_witness :
  remove_vig_multiplicative example_market
  = remove_vig_multiplicative (strip_aux example_market).
Proof.
  apply (remove_vig_ignores_margin_and_line example_market).
  exact example_market_wf.
Defined.

(** ** Closed forms *)

Lemma Rsum_map_const {A} (f : A -> R) (c : R) (xs : list A) :
  (forall x, In x xs -> f x = c) -> Rsum (map f xs) = INR (List.length xs) * c.
Proof.
  induction xs as [|x xs IH]; intros H.
  - simpl. lra.
  - cbn [map Rsum fold_right List.length]. rewrite S_INR.
    rewrite (H x) by now left.
    change (fold_right Rplus 0 (map f xs)) with (Rsum (map f xs)).
    rewrite IH by (intros y Hy; apply H; now right). lra.
Qed.

Lemma dget_closed_form (odds : dict pyval) (k : string) :
  (2 <= List.length (outcome_keys odds))%nat -> In k (outcome_keys odds) ->
  dget (devig_closed_form odds) k = Some (Fl (devig_probability odds k)).
Proof.
  intros Hlen Hk. unfold devig_closed_form.
  destruct (outcome_keys odds) as [|k1 [|k2 rest]] eqn:E;
    [simpl in Hlen; lia|simpl in Hlen; lia|].
  rewrite <- E in *. now apply (dget_map_keys (fun k => Fl (devig_probability odds k))).
Qed.

(** In exact arithmetic, when every outcome has the same positive odds, each
    of the n outcomes gets probability 1/n. *)
Lemma remove_vig_equal_odds_exact (odds : dict pyval) (o : R) :
  wf_dict odds -> outcome_keys odds <> [] -> 0 < o ->
  (forall k, In k (outcome_keys odds) -> dget odds k = Some (VFloat o)) ->
  exists probs,
    remove_vig_multiplicative odds = Ok (Some probs) /\
    dkeys probs = outcome_keys odds /\
    forall k v, In (k, v) probs ->
      exists p, v = Fl p /\ p = 1 / INR (List.length (outcome_keys odds)).
Proof.
  intros Hwf Hne Ho Hall.
  assert (Hpos : odds_above 0 odds).
  { intros k Hk. exists o. split; [now apply Hall|exact Ho]. }
  exists (devig_closed_form odds).
  split; [now apply remove_vig_positive|].
  split; [apply devig_closed_form_keys|].
  intros k v Hin. unfold devig_closed_form in Hin.
  destruct (outcome_keys odds) as [|k1 [|k2 rest]] eqn:E; [contradiction| |].
  - destruct Hin as [[= <- <-]|[]]. exists 1. split; [reflexivity|]. simpl. field.
  - rewrite <- E in *. apply in_map_iff in Hin.
    destruct Hin as (k' & [= <- <-] & Hk').
    exists (devig_probability odds k'). split; [reflexivity|].
    rewrite (devig_probability_ratio odds k' Hpos Hne).
    assert (Hat : forall j, In j (outcome_keys odds) -> odds_at odds j = o).
    { intros j Hj. unfold odds_at. now rewrite (Hall j Hj). }
    rewrite (Rsum_map_const _ (Rpower (1 / o)
               (devig_exponent (List.length (outcome_keys odds))))).
    + rewrite (Hat k' Hk').
      pose proof (Rpower_pos (1 / o)
                    (devig_exponent (List.length (outcome_keys odds)))) as Hp.
      assert (0 < INR (List.length (outcome_keys odds))).
      { apply lt_0_INR. rewrite E. simpl. lia. }
      field. lra.
    + intros j Hj. now rewrite (Hat j Hj).
Qed.

Lemma fl_result_equal_odds (fa : float_ops) (odds : dict pyval) (o : R) :
  outcome_keys odds <> [] ->
  (forall k, In k (outcome_keys odds) -> dget odds k = Some (VFloat o)) ->
  exists r, fl_result fa odds = map (fun k => (k, Fl r)) (outcome_keys odds).
Proof.
  intros Hne Hall. unfold fl_result.
  destruct (outcome_keys odds) as [|k1 [|k2 rest]] eqn:E; [congruence| |].
  - exists 1. reflexivity.
  - rewrite <- E in *. exists (fl_probability fa odds k1).
    apply map_ext_in. intros k Hk. do 2 f_equal.
    assert (Hat : forall j, In j (outcome_keys odds) -> odds_at odds j = o).
    { intros j Hj. unfold odds_at. now rewrite (Hall j Hj). }
    unfold fl_probability, fl_adjusted, fl_implied.
    rewrite (Hat k Hk), (Hat k1) by (rewrite E; now left). reflexivity.
Qed.

(** X2.  When every outcome has the same odds o, between 2^-64 and 2^64,
    and there are at most 2^16 outcomes: in exact arithmetic each of the n
    outcomes gets probability 1/n, and over every binary64 arithmetic the
    code returns one and the same float r for every outcome, with
    [n * r] within [2 * (n + 1) * 2^-52] of 1. *)
Theorem remove_vig_equal_odds (odds : dict pyval) (o : R) :
  wf_dict odds -> outcome_keys odds <> [] ->
  / 2 ^ 64 <= o <= 2 ^ 64 ->
  (Z.of_nat (List.length (outcome_keys odds)) <= 2 ^ 16)%Z ->
  (forall k, In k (outcome_keys odds) -> dget odds k = Some (VFloat o)) ->
  (exists probs,
     remove_vig_multiplicative odds = Ok (Some probs) /\
     dkeys probs = outcome_keys odds /\
     forall k v, In (k, v) probs ->
       exists p, v = Fl p /\ p = 1 / INR (List.length (outcome_keys odds))) /\
  (forall fa : float_ops,
   exists r,
     remove_vig_multiplicative_fl fa odds
     = Ok (Some (map (fun k => (k, Fl r)) (outcome_keys odds))) /\
     Rabs (INR (List.length (outcome_keys odds)) * r - 1)
     <= 2 * (INR (List.length (outcome_keys odds)) + 1) * eps).
Proof.
  intros Hwf Hne Ho Hcount Hall.
  assert (Hop : 0 < o).
  { assert (0 < / 2 ^ 64) by (apply Rinv_0_lt_compat, pow_lt; lra). lra. }
  split; [now apply (remove_vig_equal_odds_exact odds o)|].
  intros fa.
  destruct (fl_result_equal_odds fa odds o Hne Hall) as (r & Hr).
  exists r.
  destruct (remove_vig_fl_result fa odds (- Z.of_nat 64) (Z.of_nat 64))
    as (Hrun & _ & _ & Hsum);
    [lia|lia|now apply outcome_keys_NoDup|exact Hne| |now apply count_bound|].
  { apply odds_within_pw. intros k Hk. exists o. split; [now apply Hall|exact Ho]. }
  rewrite Hr in Hrun, Hsum. split; [exact Hrun|].
  unfold float_values in Hsum. rewrite map_map in Hsum. cbn [snd] in Hsum.
  now rewrite (Rsum_map_const _ r) in Hsum by reflexivity.
Qed.

Lemma remove_vig_equal_odds_witness :
  (exists probs,
     remove_vig_multiplicative three_way_evens = Ok (Some probs) /\
     dkeys probs = outcome_keys three_way_evens /\
     forall k v, In (k, v) probs ->
       exists p, v = Fl p /\ p = 1 / INR (List.length (outcome_keys three_way_evens))) /\
  (forall fa : float_ops,
   exists r,
     remove_vig_multiplicative_fl fa three_way_evens
     = Ok (Some (map (fun k => (k, Fl r)) (outcome_keys three_way_evens))) /\
     Rabs (INR (List.length (outcome_keys three_way_evens)) * r - 1)
     <= 2 * (INR (List.length (outcome_keys three_way_evens)) + 1) * eps).
Proof.
  apply (remove_vig_equal_odds three_way_evens 3).
  - unfold wf_dict; simpl; repeat constructor; simpl; intuition discriminate.
  - discriminate.
  - split.
    + apply Rle_trans with 1; [|lra].
      rewrite <- Rinv_1. apply Rinv_le_contravar; [lra|].
      apply pow_R1_Rle. lra.
    + replace 3 with (3 * 1) by ring. replace (2 ^ 64) with (2 ^ 2 * 2 ^ 62)
        by (rewrite <- pow_add; reflexivity).
      apply Rmult_le_compat; [lra|lra|simpl; lra|apply pow_R1_Rle; lra].
  - change (Z.of_nat (List.length (outcome_keys three_way_evens))) with 3%Z. lia.
  - intros k Hk. cbv in Hk. destruct Hk as [<-|[<-|[<-|[]]]]; reflexivity.
Defined.

(** In exact arithmetic, in a market of two outcomes with odds a and b that
    are not zero, the probabilities are b^2/(a^2+b^2) and a^2/(a^2+b^2);
    when a + b = 0 the division by zero is caught and the result is
    [None]. *)
Lemma remove_vig_two_way_exact (odds : dict pyval) (k1 k2 : string) (a b : R) :
  outcome_keys odds = [k1; k2] -> k1 <> k2 ->
  dget odds k1 = Some (VFloat a) -> dget odds k2 = Some (VFloat b) ->
  a <> 0 -> b <> 0 ->
  (a + b <> 0 ->
   remove_vig_multiplicative odds =
   Ok (Some [(k1, Fl (b * b / (a * a + b * b))); (k2, Fl (a * a / (a * a + b * b)))])) /\
  (a + b = 0 -> remove_vig_multiplicative odds = Ok None).
Proof.
  intros Hk Hne H1 H2 Ha Hb.
  assert (Hbody : remove_vig_body odds =
    (a1 <- float_pow (1 / a) 2 ;; t1 <- float_pow (1 / a + 1 / b) 2 ;;
     v1 <- num_div a1 t1 ;;
     a2 <- float_pow (1 / b) 2 ;; t2 <- float_pow (1 / a + 1 / b) 2 ;;
     v2 <- num_div a2 t2 ;;
     normalized <- dict_build fst
        (fun kv => num_div (snd kv) (sum_nums [v1; v2])) [(k1, v1); (k2, v2)] [] ;;
     Ok (Some normalized))).
  { unfold remove_vig_body. rewrite Hk.
    cbn [dict_build bind]. unfold getitem at 1 2. rewrite H1, H2.
    cbn [bind inverse_odds].
    destruct (Req_dec_T a 0); [contradiction|].
    destruct (Req_dec_T b 0); [contradiction|].
    cbn [bind dset List.length]. rewrite exponent_two.
    assert (Ek : (k1 =? k2)%string = false) by now apply String.eqb_neq.
    rewrite !Ek. unfold getitem. cbn [dget fst snd]. rewrite !String.eqb_refl, !Ek.
    cbn [bind dvalues map snd sum_floats fold_left].
    replace (0 + 1 / a + 1 / b) with (1 / a + 1 / b) by lra.
    destruct (float_pow (1 / a) 2) as [a1|]; [|reflexivity]. cbn [bind].
    destruct (float_pow (1 / a + 1 / b) 2) as [t1|]; [|reflexivity]. cbn [bind].
    destruct (num_div a1 t1) as [v1|]; [|reflexivity]. cbn [bind].
    destruct (float_pow (1 / b) 2) as [a2|]; [|reflexivity]. cbn [bind].
    destruct (num_div a2 t1) as [v2|]; [|reflexivity]. cbn [bind dict_build dset fst snd].
    rewrite ?Ek. reflexivity. }
  assert (Hia : 1 / a <> 0).
  { unfold Rdiv. rewrite Rmult_1_l. now apply Rinv_neq_0_compat. }
  assert (Hib : 1 / b <> 0).
  { unfold Rdiv. rewrite Rmult_1_l. now apply Rinv_neq_0_compat. }
  unfold remove_vig_multiplicative. rewrite Hbody.
  rewrite (float_pow_two (1 / a) Hia), (float_pow_two (1 / b) Hib).
  assert (Hsum : 1 / a + 1 / b = (a + b) / (a * b)) by (field; now split).
  assert (Hab0 : a * b <> 0) by now apply Rmult_integral_contrapositive_currified.
  split.
  - intros Hab.
    assert (HT : 1 / a + 1 / b <> 0).
    { rewrite Hsum. unfold Rdiv. apply Rmult_integral_contrapositive_currified;
        [exact Hab|now apply Rinv_neq_0_compat]. }
    rewrite (float_pow_two _ HT). cbn [bind num_div].
    set (T2 := (1 / a + 1 / b) * (1 / a + 1 / b)).
    assert (HT2 : 0 < T2) by (unfold T2; nra).
    destruct (Req_dec_T T2 0); [lra|]. cbn [bind].
    assert (Ek : (k1 =? k2)%string = false) by now apply String.eqb_neq.
    cbn [dict_build fst snd sum_nums fold_left num_add num_div].
    set (S := 0 + 1 / a * (1 / a) / T2 + 1 / b * (1 / b) / T2).
    assert (HS : 0 < S).
    { unfold S.
      assert (0 < 1 / a * (1 / a)) by nra.
      assert (0 < 1 / b * (1 / b)) by nra.
      assert (0 < 1 / a * (1 / a) / T2) by now apply Rdiv_lt_0_compat.
      assert (0 < 1 / b * (1 / b) / T2) by now apply Rdiv_lt_0_compat.
      lra. }
    destruct (Req_dec_T S 0); [lra|]. cbn [bind dset].
    rewrite Ek. cbn [try_except].
    assert (Hden : a * a + b * b <> 0) by nra.
    assert (E1 : 1 / a * (1 / a) / T2 / S = b * b / (a * a + b * b)).
    { unfold S, T2. rewrite Hsum. field. repeat split; assumption. }
    assert (E2 : 1 / b * (1 / b) / T2 / S = a * a / (a * a + b * b)).
    { unfold S, T2. rewrite Hsum. field. repeat split; assumption. }
    now rewrite E1, E2.
  - intros Hab.
    assert (HT : 1 / a + 1 / b = 0) by (rewrite Hsum, Hab; unfold Rdiv; ring).
    rewrite HT. unfold float_pow.
    destruct (Req_dec_T 2 0); [lra|]. destruct (Req_dec_T 0 0); [|lra].
    destruct (Rlt_dec 2 0); [lra|]. cbn [bind num_div].
    destruct (Req_dec_T 0 0); [|lra]. reflexivity.
Qed.


(** X4.  In a market of two outcomes with odds a and b between 2^-64 and
    2^64: in exact arithmetic the probabilities are b^2/(a^2+b^2) and
    a^2/(a^2+b^2), and over every binary64 arithmetic the code returns a
    mapping over the two outcomes with positive floats that sum to 1 within
    [6 * 2^-52]. *)
Theorem remove_vig_two_way (odds : dict pyval) (k1 k2 : string) (a b : R) :
  outcome_keys odds = [k1; k2] -> k1 <> k2 ->
  dget odds k1 = Some (VFloat a) -> dget odds k2 = Some (VFloat b) ->
  / 2 ^ 64 <= a <= 2 ^ 64 -> / 2 ^ 64 <= b <= 2 ^ 64 ->
  remove_vig_multiplicative odds =
  Ok (Some [(k1, Fl (b * b / (a * a + b * b))); (k2, Fl (a * a / (a * a + b * b)))]) /\
  forall fa : float_ops,
  exists p1 p2,
    remove_vig_multiplicative_fl fa odds = Ok (Some [(k1, Fl p1); (k2, Fl p2)]) /\
    0 < p1 /\ 0 < p2 /\ Rabs (p1 + p2 - 1) <= 6 * eps.
Proof.
  intros Hk Hne H1 H2 Ha Hb.
  assert (Hlow : 0 < / 2 ^ 64) by (apply Rinv_0_lt_compat, pow_lt; lra).
  split.
  - apply (remove_vig_two_way_exact odds k1 k2 a b Hk Hne H1 H2); lra.
  - intros fa.
    destruct (remove_vig_fl_result fa odds (- Z.of_nat 64) (Z.of_nat 64))
      as (Hrun & _ & Hpos & Hsum); [lia|lia| | | | |].
    + rewrite Hk. repeat constructor; cbn [In]; intuition congruence.
    + rewrite Hk. discriminate.
    + apply odds_within_pw. intros k Hin. rewrite Hk in Hin.
      destruct Hin as [<-|[<-|[]]]; eexists; (split; [eassumption|assumption]).
    + rewrite Hk. cbn [List.length]. apply Rle_trans with (pw 1).
      * rewrite pw_1. simpl. lra.
      * apply pw_le. lia.
    + rewrite Hk in Hsum. unfold fl_result in Hrun, Hpos, Hsum.
      rewrite Hk in Hrun, Hpos, Hsum. cbn [map] in Hrun, Hpos, Hsum.
      exists (fl_probability fa odds k1), (fl_probability fa odds k2).
      split; [exact Hrun|].
      destruct (Hpos k1 _ (or_introl eq_refl)) as (p1 & [= <-] & Hp1).
      destruct (Hpos k2 _ (or_intror (or_introl eq_refl))) as (p2 & [= <-] & Hp2).
      split; [exact Hp1|]. split; [exact Hp2|].
      cbn [float_values map snd Rsum fold_right List.length] in Hsum.
      replace (fl_probability fa odds k1 + fl_probability fa odds k2 - 1)
        with (fl_probability fa odds k1 + (fl_probability fa odds k2 + 0) - 1)
        by ring.
      eapply Rle_trans; [exact Hsum|]. simpl. pose proof eps_pos. lra.
Qed.

Lemma remove_vig_two_way_witness :
  remove_vig_multiplicative soft_market_btts =
  Ok (Some [("yes", Fl (17 / 10 * (17 / 10) / (11 / 5 * (11 / 5) + 17 / 10 * (17 / 10))));
            ("no", Fl (11 / 5 * (11 / 5) / (11 / 5 * (11 / 5) + 17 / 10 * (17 / 10))))]) /\
  forall fa : float_ops,
  exists p1 p2,
    remove_vig_multiplicative_fl fa soft_market_btts
    = Ok (Some [("yes", Fl p1); ("no", Fl p2)]) /\
    0 < p1 /\ 0 < p2 /\ Rabs (p1 + p2 - 1) <= 6 * eps.
Proof.
  assert (Hlo : / 2 ^ 64 <= 1).
  { rewrite <- Rinv_1. apply Rinv_le_contravar; [lra|]. apply pow_R1_Rle. lra. }
  assert (Hhi : 4 <= 2 ^ 64).
  { replace 4 with (2 ^ 2) by (simpl; lra). apply Rle_pow; [lra|lia]. }
  apply (remove_vig_two_way soft_market_btts "yes" "no" (11 / 5) (17 / 10));
    try reflexivity; try discriminate; lra.
Defined.

(** ** Markets that are not de-vigged *)

Lemma dict_build_raises_first {A V} (key : A -> string) (f : A -> result V)
    (xs : list A) (acc : dict V) (e : exn) :
  (forall x, In x xs -> (exists v, f x = Ok v) \/ f x = Raise e) ->
  (exists x, In x xs /\ f x = Raise e) ->
  dict_build key f xs acc = Raise e.
Proof.
  revert acc. induction xs as [|y xs IH]; intros acc Hall (x & Hin & Hx);
    [contradiction|].
  cbn [dict_build].
  destruct (Hall y (or_introl eq_refl)) as [[v Hv]|Hy].
  - rewrite Hv. cbn [bind]. apply IH.
    + intros z Hz. apply Hall. now right.
    + destruct Hin as [->|Hin]; [congruence|]. now exists x.
  - now rewrite Hy.
Qed.

(** X28.  The markets [remove_vig_multiplicative] does not de-vig, in exact
    arithmetic and over every binary64 arithmetic alike: with no outcome
    left after dropping "margin" and "line" the result is None; with exactly
    one outcome, of non-zero float odds, it is {outcome: 1.0}; and when every
    outcome has float odds and one of them has odds 0, the division by zero
    is caught and the result is None. *)
Theorem remove_vig_degenerate_markets (odds : dict pyval) :
  (outcome_keys odds = [] ->
   remove_vig_multiplicative odds = Ok None /\
   forall fa : float_ops, remove_vig_multiplicative_fl fa odds = Ok None) /\
  (forall k o,
     outcome_keys odds = [k] -> dget odds k = Some (VFloat o) -> o <> 0 ->
     remove_vig_multiplicative odds = Ok (Some [(k, Fl 1)]) /\
     forall fa : float_ops,
       remove_vig_multiplicative_fl fa odds = Ok (Some [(k, Fl 1)])) /\
  ((forall k, In k (outcome_keys odds) -> exists o, dget odds k = Some (VFloat o)) ->
   (exists k, In k (outcome_keys odds) /\ dget odds k = Some (VFloat 0)) ->
   remove_vig_multiplicative odds = Ok None /\
   forall fa : float_ops, remove_vig_multiplicative_fl fa odds = Ok None).
Proof.
  split; [|split].
  - intros E. split; [now apply remove_vig_no_outcome|].
    intros fa. unfold remove_vig_multiplicative_fl, remove_vig_body_fl.
    rewrite E. reflexivity.
  - intros k o E Hget Ho. split; [now apply (remove_vig_single_outcome odds k o)|].
    intros fa. now apply (remove_vig_fl_single fa odds k o).
  - intros Hfl (k & Hk & Hz). split.
    + unfold remove_vig_multiplicative, remove_vig_body.
      rewrite (dict_build_raises_first _ _ _ _ ZeroDivisionError); [reflexivity| |].
      * intros j Hj. destruct (Hfl j Hj) as (o & Hget).
        unfold getitem. rewrite Hget. cbn [bind inverse_odds]. unfold float_div.
        destruct (Req_dec_T o 0); [now right|left; eexists; reflexivity].
      * exists k. split; [exact Hk|]. unfold getitem. rewrite Hz.
        cbn [bind inverse_odds]. unfold float_div.
        destruct (Req_dec_T 0 0); [reflexivity|contradiction].
    + intros fa. unfold remove_vig_multiplicative_fl, remove_vig_body_fl.
      rewrite (dict_build_raises_first _ _ _ _ ZeroDivisionError); [reflexivity| |].
      * intros j Hj. destruct (Hfl j Hj) as (o & Hget).
        unfold getitem. rewrite Hget. cbn [bind inverse_odds_fl].
        unfold float_div_fl.
        destruct (Req_dec_T o 0); [now right|left; eexists; reflexivity].
      * exists k. split; [exact Hk|]. unfold getitem. rewrite Hz.
        cbn [bind inverse_odds_fl]. unfold float_div_fl.
        destruct (Req_dec_T 0 0); [reflexivity|contradiction].
Qed.

(** ** The Kelly stake *)

(** X5.  For a positive edge, odds above 1 and a bankroll and Kelly fraction
    that are not negative, the stake is the bankroll times the smaller of
    edge / (odds - 1) * kelly_fraction and MAX_STAKE_PERCENTAGE, with the
    uncapped and the capped case told apart by
    edge * kelly_fraction <= MAX_STAKE_PERCENTAGE * (odds - 1). *)
Theorem kelly_stake_share (edge odds bankroll kelly_fraction : R) :
  0 < edge -> 1 < odds -> 0 <= bankroll -> 0 <= kelly_fraction ->
  kelly_stake edge odds bankroll kelly_fraction =
    Ok (bankroll * Rmin (edge / (odds - 1) * kelly_fraction) MAX_STAKE_PERCENTAGE) /\
  (edge * kelly_fraction <= MAX_STAKE_PERCENTAGE * (odds - 1) ->
   kelly_stake edge odds bankroll kelly_fraction =
     Ok (edge / (odds - 1) * kelly_fraction * bankroll)) /\
  (MAX_STAKE_PERCENTAGE * (odds - 1) <= edge * kelly_fraction ->
   kelly_stake edge odds bankroll kelly_fraction =
     Ok (bankroll * MAX_STAKE_PERCENTAGE)).
Proof.
  intros He Ho Hb Hk. rewrite kelly_stake_sized by assumption.
  set (f := edge / (odds - 1) * kelly_fraction).
  assert (Hf : 0 <= f).
  { unfold f. apply Rmult_le_pos; [|exact Hk]. left. apply Rdiv_lt_0_compat; lra. }
  rewrite (Rmax_right 0 f Hf).
  assert (Hfd : f * (odds - 1) = edge * kelly_fraction) by (unfold f; field; lra).
  assert (Hcmp : f <= MAX_STAKE_PERCENTAGE <->
                 edge * kelly_fraction <= MAX_STAKE_PERCENTAGE * (odds - 1)).
  { rewrite <- Hfd. split; intros H; nra. }
  assert (Hcmp' : MAX_STAKE_PERCENTAGE <= f <->
                  MAX_STAKE_PERCENTAGE * (odds - 1) <= edge * kelly_fraction).
  { rewrite <- Hfd. split; intros H; nra. }
  split; [|split].
  - f_equal. destruct (Rle_dec f MAX_STAKE_PERCENTAGE) as [Hle|Hgt].
    + rewrite (Rmin_left f _ Hle). rewrite Rmin_left; [ring|].
      rewrite (Rmult_comm bankroll). now apply Rmult_le_compat_r.
    + rewrite (Rmin_right f MAX_STAKE_PERCENTAGE) by lra.
      rewrite Rmin_right; [ring|].
      rewrite (Rmult_comm bankroll). apply Rmult_le_compat_r; lra.
  - intros H. apply Hcmp in H. f_equal. apply Rmin_left.
    rewrite (Rmult_comm bankroll). now apply Rmult_le_compat_r.
  - intros H. apply Hcmp' in H. f_equal. apply Rmin_right.
    rewrite (Rmult_comm bankroll). now apply Rmult_le_compat_r.
Qed.

Lemma kelly_stake_share_witness :
  kelly_stake (1 / 10) 2 1000 KELLY_FRACTION =
    Ok (1000 * Rmin (1 / 10 / (2 - 1) * KELLY_FRACTION) MAX_STAKE_PERCENTAGE) /\
  (1 / 10 * KELLY_FRACTION <= MAX_STAKE_PERCENTAGE * (2 - 1) ->
   kelly_stake (1 / 10) 2 1000 KELLY_FRACTION =
     Ok (1 / 10 / (2 - 1) * KELLY_FRACTION * 1000)) /\
  (MAX_STAKE_PERCENTAGE * (2 - 1) <= 1 / 10 * KELLY_FRACTION ->
   kelly_stake (1 / 10) 2 1000 KELLY_FRACTION =
     Ok (1000 * MAX_STAKE_PERCENTAGE)).
Proof.
  apply (kelly_stake_share (1 / 10) 2 1000 KELLY_FRACTION);
    unfold KELLY_FRACTION; lra.
Defined.

(** ** Swap detection *)

Lemma divergence_nonneg (p q : dict num) : 0 <= divergence p q.
Proof.
  unfold divergence. rewrite sum_floats_Rsum. apply Rsum_nonneg.
  intros x Hx. apply in_map_iff in Hx. destruct Hx as (k & <- & _).
  apply num_abs_nonneg.
Qed.

(** X6.  When the de-vigged soft market is within 0.05 (total absolute
    difference) of the de-vigged anchor market, [check_home_away_swap]
    returns the soft probabilities in their stated orientation, whatever
    the swapped market gives. *)
Theorem check_home_away_swap_keeps_close_market
    (soft anchor : dict pyval) (np ap : dict num) (r : option (dict num)) :
  remove_vig_multiplicative soft = Ok (Some np) -> np <> [] ->
  remove_vig_multiplicative anchor = Ok (Some ap) -> ap <> [] ->
  remove_vig_multiplicative (swapped_odds soft) = Ok r ->
  divergence np ap <= 5 / 100 ->
  check_home_away_swap soft anchor = Ok np.
Proof.
  intros Hn Hnne Ha Hane Hs Hd.
  rewrite (check_home_away_swap_unfold soft anchor np ap) by assumption.
  destruct (dmem soft "home" && dmem soft "away"); [|reflexivity].
  rewrite Hs. cbn [bind]. destruct (truthy r); [|reflexivity].
  destruct (Rlt_dec _ _) as [Hlt|_]; [|reflexivity].
  pose proof (divergence_nonneg (or_empty r) ap). lra.
Qed.

Lemma check_home_away_swap_keeps_close_market_witness :
  check_home_away_swap swap_example_anchor swap_example_anchor
  = Ok (devig_closed_form swap_example_anchor).
Proof.
  apply (check_home_away_swap_keeps_close_market swap_example_anchor
           swap_example_anchor (devig_closed_form swap_example_anchor)
           (devig_closed_form swap_example_anchor)
           (Some (devig_closed_form swap_example_soft))).
  - apply remove_vig_positive;
      [exact (proj1 swap_example_wf)|discriminate|exact swap_example_anchor_pos].
  - discriminate.
  - apply remove_vig_positive;
      [exact (proj1 swap_example_wf)|discriminate|exact swap_example_anchor_pos].
  - discriminate.
  - change (swapped_odds swap_example_anchor) with swap_example_soft.
    apply remove_vig_positive;
      [exact (proj2 swap_example_wf)|discriminate|exact swap_example_soft_pos].
  - rewrite divergence_self. lra.
Defined.

(** ** The swap rule *)

Lemma divergence_total_absolute_difference (p q : dict num) :
  divergence p q = total_absolute_difference p q.
Proof. unfold divergence. now rewrite sum_floats_Rsum. Qed.

(** X27.  When the soft market, the anchor market and the soft market with
    its home and away odds exchanged (draw unchanged) are each de-vigged to
    a non-empty mapping, [check_home_away_swap] returns the probabilities of
    the exchanged market exactly when their total absolute difference to the
    anchor's, plus 0.05, is below that of the normal probabilities, and the
    normal probabilities otherwise.  For anchor {home: 1.5, draw: 4, away: 6}
    and soft {home: 6, draw: 4, away: 1.5} the exchanged market is adopted,
    and its probabilities are not the normal ones. *)
Theorem check_home_away_swap_threshold_rule
    (soft anchor : dict pyval) (np ap sp : dict num) (h a : pyval) :
  remove_vig_multiplicative soft = Ok (Some np) -> np <> [] ->
  remove_vig_multiplicative anchor = Ok (Some ap) -> ap <> [] ->
  dget soft "home" = Some h -> dget soft "away" = Some a ->
  remove_vig_multiplicative
    [ ("home", a);
      ("draw", match dget soft "draw" with Some d => d | None => VNone end);
      ("away", h) ] = Ok (Some sp) ->
  sp <> [] ->
  check_home_away_swap soft anchor
  = Ok (if Rlt_dec (total_absolute_difference sp ap + 5 / 100)
                   (total_absolute_difference np ap)
        then sp else np) /\
  check_home_away_swap swap_example_soft swap_example_anchor
  = Ok (devig_closed_form swap_example_anchor) /\
  devig_closed_form swap_example_anchor <> devig_closed_form swap_example_soft.
Proof.
  intros Hn Hnne Ha Hane Hh Haw Hs Hsne. split; [|split].
  - rewrite <- !divergence_total_absolute_difference.
    apply check_home_away_swap_decides; try assumption.
    + unfold dmem. now rewrite Hh.
    + unfold dmem. now rewrite Haw.
    + unfold swapped_odds, get_or_none. now rewrite Hh, Haw.
  - exact swap_example_adopts_swapped.
  - exact swap_example_changes_result.
Qed.

Lemma check_home_away_swap_threshold_rule_witness :
  check_home_away_swap swap_example_soft swap_example_anchor
  = Ok (if Rlt_dec (total_absolute_difference
                      (devig_closed_form swap_example_anchor)
                      (devig_closed_form swap_example_anchor) + 5 / 100)
                   (total_absolute_difference
                      (devig_closed_form swap_example_soft)
                      (devig_closed_form swap_example_anchor))
        then devig_closed_form swap_example_anchor
        else devig_closed_form swap_example_soft) /\
  check_home_away_swap swap_example_soft swap_example_anchor
  = Ok (devig_closed_form swap_example_anchor) /\
  devig_closed_form swap_example_anchor <> devig_closed_form swap_example_soft.
Proof.
  apply (check_home_away_swap_threshold_rule swap_example_soft swap_example_anchor
           (devig_closed_form swap_example_soft)
           (devig_closed_form swap_example_anchor)
           (devig_closed_form swap_example_anchor) (VFloat 6) (VFloat (3 / 2))).
  - apply remove_vig_positive;
      [exact (proj2 swap_example_wf)|discriminate|exact swap_example_soft_pos].
  - discriminate.
  - apply remove_vig_positive;
      [exact (proj1 swap_example_wf)|discriminate|exact swap_example_anchor_pos].
  - discriminate.
  - reflexivity.
  - reflexivity.
  - apply (remove_vig_positive swap_example_anchor);
      [exact (proj1 swap_example_wf)|discriminate|exact swap_example_anchor_pos].
  - discriminate.
Defined.

End OddsEngineExtras.

(* ===================================================================== *)
(** * More on the pipeline *)
(* ===================================================================== *)

Module PipelineExtras.

Import Settings ValueAnalyzer TeamNormalizer DatetimeUtils EventMatcher Pipeline.
Import Vocabulary ValueAnalyzerFacts PipelineFacts.
Local Open Scope R_scope.

Lemma for_each_In {A B} (body : A -> result (list B)) (xs : list A)
    (l : list B) (b : B) :
  for_each body xs = Ok l -> In b l ->
  exists x lx, In x xs /\ body x = Ok lx /\ In b lx.
Proof.
  revert l; induction xs as [|x xs IH]; intros l H Hin; simpl in H.
  - injection H as <-. contradiction.
  - destruct (body x) as [lx|] eqn:Ex; [|discriminate]. cbn [bind] in H.
    destruct (for_each body xs) as [more|] eqn:Em; [|discriminate].
    cbn [bind] in H. injection H as <-.
    apply in_app_or in Hin. destruct Hin as [Hin|Hin].
    + exists x, lx. now repeat split; [left|..].
    + destruct (IH more eq_refl Hin) as (y & ly & Hy & Hb & Hl).
      exists y, ly. now repeat split; [right|..].
Qed.

Lemma outcome_bets_sound (book : string) (soft anchor : UnifiedEvent)
    (mt : string) (sm am : dict pyval) (sp ap : dict num)
    (min_edge bankroll : R) (outcome : string) (l : list ValueBet) (b : ValueBet) :
  outcome_bets book soft anchor mt sm am sp ap min_edge bankroll outcome = Ok l ->
  In b l ->
  bet_valid_for book soft anchor mt sm am ap min_edge bankroll b.
Proof.
  unfold outcome_bets. intros H Hin.
  destruct (dmem sm outcome); cbn [negb] in H; [|injection H as <-; contradiction].
  unfold getitem at 1 2 3 in H.
  destruct (dget ap outcome) as [tp|] eqn:Etp; [|discriminate]. cbn [bind] in H.
  destruct (dget sm outcome) as [so|] eqn:Eso; [|discriminate]. cbn [bind] in H.
  destruct (dget am outcome) as [ao|] eqn:Eao; [|discriminate]. cbn [bind] in H.
  destruct tp as [p|]; [|discriminate]. destruct so as [o|]; [|discriminate].
  destruct (Rle_dec min_edge (calculate_edge p o)) as [Hle|];
    [|injection H as <-; contradiction].
  destruct (kelly_stake (calculate_edge p o) o bankroll KELLY_FRACTION)
    as [stake|] eqn:Ek; [|discriminate]. cbn [bind] in H.
  destruct (getitem sp outcome) as [spv|]; [|discriminate]. cbn [bind] in H.
  injection H as <-. destruct Hin as [<-|[]].
  unfold bet_valid_for. cbn.
  repeat split; try assumption; try reflexivity. lra.
Qed.

Lemma market_bets_sound (book : string) (soft anchor : UnifiedEvent)
    (min_edge bankroll : R) (mt : string) (l : list ValueBet) (b : ValueBet) :
  market_bets book soft anchor min_edge bankroll mt = Ok l -> In b l ->
  exists sm am ap,
    dget (markets soft) mt = Some sm /\
    dget (markets anchor) mt = Some am /\
    remove_vig_multiplicative am = Ok (Some ap) /\
    bet_valid_for book soft anchor mt sm am ap min_edge bankroll b.
Proof.
  unfold market_bets. intros H Hin.
  destruct (dget (markets soft) mt) as [sm|]; [|injection H as <-; contradiction].
  destruct (dget (markets anchor) mt) as [am|]; [|injection H as <-; contradiction].
  destruct (if (mt =? "1x2")%string
            then probs <- check_home_away_swap sm am ;; Ok (Some probs)
            else remove_vig_multiplicative sm) as [sp|]; [|discriminate].
  cbn [bind] in H.
  destruct (remove_vig_multiplicative am) as [oap|] eqn:Eap; [|discriminate].
  cbn [bind] in H.
  destruct (negb (truthy sp) || negb (truthy oap)) eqn:Et;
    [injection H as <-; contradiction|].
  apply orb_false_iff in Et. destruct Et as [_ Et]. apply negb_false_iff in Et.
  destruct oap as [[|x ap]|]; try discriminate.
  destruct (for_each_In _ _ _ _ H Hin) as (outcome & lo & _ & Ho & Hb).
  exists sm, am, (x :: ap).
  split; [reflexivity|]. split; [reflexivity|]. split; [exact Eap|].
  apply (outcome_bets_sound _ _ _ _ _ _ _ _ _ _ _ _ _ Ho Hb).
Qed.

Lemma emitted_bet_sound (lib : Library) (anchors : list UnifiedEvent)
    (soft_books : dict (list UnifiedEvent)) (tol : Z) (min_edge bankroll : R)
    (emitted : list ValueBet) (b : ValueBet) :
  emit_value_bets lib anchors soft_books tol min_edge bankroll = Ok emitted ->
  In b emitted ->
  exists book_events soft anchor sm am ap,
    In (bet_bookmaker b, book_events) soft_books /\
    In (soft, anchor)
       (match_events lib book_events anchors tol TEAM_SIMILARITY_THRESHOLD) /\
    In (bet_market b) SUPPORTED_MARKETS /\
    dget (markets soft) (bet_market b) = Some sm /\
    dget (markets anchor) (bet_market b) = Some am /\
    remove_vig_multiplicative am = Ok (Some ap) /\
    bet_valid_for (bet_bookmaker b) soft anchor (bet_market b) sm am ap
      min_edge bankroll b.
Proof.
  unfold emit_value_bets. intros H Hin.
  destruct (for_each_In _ _ _ _ H Hin) as ([book events] & lb & Hbook & Hb & Hinb).
  destruct (for_each_In _ _ _ _ Hb Hinb) as ([soft anchor] & lp & Hpair & Hp & Hinp).
  destruct (for_each_In _ _ _ _ Hp Hinp) as (mt & lm & Hmt & Hm & Hinm).
  destruct (market_bets_sound _ _ _ _ _ _ _ _ Hm Hinm)
    as (sm & am & ap & Hsm & Ham & Hap & Hv).
  pose proof Hv as (Hbk & Hmk & _). subst book mt.
  exists events, soft, anchor, sm, am, ap.
  exact (conj Hbook (conj Hpair (conj Hmt (conj Hsm (conj Ham (conj Hap Hv)))))).
Qed.

Lemma generated_bet_sound (lib : Library)
    (anchors : list UnifiedEvent) (soft_books : dict (list UnifiedEvent))
    (tol : Z) (min_edge bankroll : R) (bets : list ValueBet) (b : ValueBet) :
  generate_value_bets lib anchors soft_books tol min_edge bankroll = Ok bets ->
  In b bets ->
  exists book_events soft anchor sm am ap,
    In (bet_bookmaker b, book_events) soft_books /\
    In (soft, anchor)
       (match_events lib book_events anchors tol TEAM_SIMILARITY_THRESHOLD) /\
    In (bet_market b) SUPPORTED_MARKETS /\
    dget (markets soft) (bet_market b) = Some sm /\
    dget (markets anchor) (bet_market b) = Some am /\
    remove_vig_multiplicative am = Ok (Some ap) /\
    bet_valid_for (bet_bookmaker b) soft anchor (bet_market b) sm am ap
      min_edge bankroll b.
Proof.
  unfold generate_value_bets. intros H Hin.
  destruct (emit_value_bets lib anchors soft_books tol min_edge bankroll)
    as [emitted|] eqn:Ee; [|discriminate].
  injection H as <-.
  apply (emitted_bet_sound lib anchors soft_books tol min_edge bankroll emitted b Ee).
  apply (Permutation_in _ (Permutation_sym (sort_by_edge_desc_perm emitted))).
  exact Hin.
Qed.

(** X7.  Every bet that [generate_value_bets] returns was emitted for a pair
    that [match_events] formed from the bet's bookmaker and the anchor, in a
    supported market present on both sides; its odds are those of the two
    markets for its outcome, its anchor probability is the anchor's
    de-vigged probability, and edge, stake and expected value are computed
    from these, the edge reaching the threshold. *)
Theorem value_bets_come_from_matches (lib : Library)
    (anchors : list UnifiedEvent) (soft_books : dict (list UnifiedEvent))
    (tol : Z) (min_edge bankroll : R) (bets : list ValueBet) (b : ValueBet) :
  generate_value_bets lib anchors soft_books tol min_edge bankroll = Ok bets ->
  In b bets ->
  exists book_events soft anchor sm am ap,
    In (bet_bookmaker b, book_events) soft_books /\
    In (soft, anchor)
       (match_events lib book_events anchors tol TEAM_SIMILARITY_THRESHOLD) /\
    In (bet_market b) SUPPORTED_MARKETS /\
    dget (markets soft) (bet_market b) = Some sm /\
    dget (markets anchor) (bet_market b) = Some am /\
    remove_vig_multiplicative am = Ok (Some ap) /\
    bet_valid_for (bet_bookmaker b) soft anchor (bet_market b) sm am ap
      min_edge bankroll b.
Proof. apply generated_bet_sound. Qed.

Lemma value_bets_come_from_matches_witness :
  exists book_events soft anchor sm am ap,
    In (bet_bookmaker (example_bet "jacks"), book_events)
       [("jacks", [soft_event_btts]); ("toto", [soft_event_btts])] /\
    In (soft, anchor)
       (match_events plain_library book_events [anchor_event_full] 12
          TEAM_SIMILARITY_THRESHOLD) /\
    In (bet_market (example_bet "jacks")) SUPPORTED_MARKETS /\
    dget (markets soft) (bet_market (example_bet "jacks")) = Some sm /\
    dget (markets anchor) (bet_market (example_bet "jacks")) = Some am /\
    remove_vig_multiplicative am = Ok (Some ap) /\
    bet_valid_for (bet_bookmaker (example_bet "jacks")) soft anchor
      (bet_market (example_bet "jacks")) sm am ap (25 / 1000) 1000
      (example_bet "jacks").
Proof.
  apply (value_bets_come_from_matches plain_library [anchor_event_full]
           [("jacks", [soft_event_btts]); ("toto", [soft_event_btts])]
           12 (25 / 1000) 1000 [example_bet "jacks"; example_bet "toto"]).
  - exact example_batch_runs.
  - now left.
Defined.

(** X8.  With a bankroll that is not negative, every returned bet has a stake
    between 0 and MAX_STAKE_PERCENTAGE of the bankroll, a stake of 0 when its
    edge is not positive, and an expected value that is not negative. *)
Theorem value_bets_risk_bounds (lib : Library)
    (anchors : list UnifiedEvent) (soft_books : dict (list UnifiedEvent))
    (tol : Z) (min_edge bankroll : R) (bets : list ValueBet) (b : ValueBet) :
  generate_value_bets lib anchors soft_books tol min_edge bankroll = Ok bets ->
  In b bets -> 0 <= bankroll ->
  0 <= recommended_stake b <= bankroll * MAX_STAKE_PERCENTAGE /\
  (edge_percentage b <= 0 -> recommended_stake b = 0) /\
  0 <= expected_value b /\
  min_edge * 100 <= edge_percentage b.
Proof.
  intros H Hin Hb.
  destruct (generated_bet_sound _ _ _ _ _ _ _ _ H Hin)
    as (_ & soft & anchor & sm & am & ap & _ & _ & _ & _ & _ & _ & Hv).
  destruct Hv as (_ & _ & _ & _ & _ & _ & _ & _ & _ & Hedge & Hmin & Hk & Hev).
  set (e := calculate_edge (bet_anchor_prob b) (bet_soft_odds b)) in *.
  set (o := bet_soft_odds b) in *.
  destruct (Rle_dec e 0) as [He|He]; [|destruct (Rle_dec o 1) as [Ho|Ho]].
  - rewrite kelly_stake_guard in Hk by now left. injection Hk as Hs.
    rewrite Hev, <- Hs. unfold MAX_STAKE_PERCENTAGE. repeat split; try lra.
  - rewrite kelly_stake_guard in Hk by now right. injection Hk as Hs.
    rewrite Hev, <- Hs. unfold MAX_STAKE_PERCENTAGE. repeat split; try lra.
  - rewrite kelly_stake_sized in Hk by lra. injection Hk as Hs.
    assert (Hf : 0 <= Rmax 0 (e / (o - 1) * KELLY_FRACTION)) by apply Rmax_l.
    assert (Hlo : 0 <= recommended_stake b).
    { rewrite <- Hs. apply Rmin_glb; [now apply Rmult_le_pos|].
      unfold MAX_STAKE_PERCENTAGE. lra. }
    assert (Hhi : recommended_stake b <= bankroll * MAX_STAKE_PERCENTAGE)
      by (rewrite <- Hs; apply Rmin_r).
    repeat split; try assumption.
    + intros Hneg. lra.
    + rewrite Hev. apply Rmult_le_pos; lra.
Qed.

Lemma value_bets_risk_bounds_witness :
  0 <= recommended_stake (example_bet "jacks") <= 1000 * MAX_STAKE_PERCENTAGE /\
  (edge_percentage (example_bet "jacks") <= 0 ->
   recommended_stake (example_bet "jacks") = 0) /\
  0 <= expected_value (example_bet "jacks") /\
  25 / 1000 * 100 <= edge_percentage (example_bet "jacks").
Proof.
  apply (value_bets_risk_bounds plain_library [anchor_event_full]
           [("jacks", [soft_event_btts]); ("toto", [soft_event_btts])]
           12 (25 / 1000) 1000 [example_bet "jacks"; example_bet "toto"]).
  - exact example_batch_runs.
  - now left.
  - lra.
Defined.

(** ** No anchor, no bets *)

Lemma match_loop_no_right (lib : Library) (tol : Z) (min_sim : Q) :
  forall (left : list UnifiedEvent) (li : nat) (used : list nat),
    match_loop lib [] tol min_sim li left used = [].
Proof.
  induction left as [|l rest IH]; intros li used; [reflexivity|].
  cbn [match_loop]. unfold candidates_for.
  destruct (parse_datetime lib (kickoff_utc l)); cbn [scan_candidates]; apply IH.
Qed.

Lemma for_each_nil_bodies {A B} (body : A -> result (list B)) (xs : list A) :
  (forall x, In x xs -> body x = Ok []) -> for_each body xs = Ok [].
Proof.
  induction xs as [|x xs IH]; intros H; [reflexivity|].
  cbn [for_each]. rewrite (H x) by now left. cbn [bind].
  rewrite IH by (intros y Hy; apply H; now right). reflexivity.
Qed.

(** X9.  Without anchor events, and likewise when no book has an event, the
    pipeline returns the empty list, whatever the other arguments. *)
Theorem generate_value_bets_nothing_to_match (lib : Library)
    (anchors : list UnifiedEvent) (soft_books : dict (list UnifiedEvent))
    (tol : Z) (min_edge bankroll : R) :
  anchors = [] \/ (forall book, In book soft_books -> snd book = []) ->
  generate_value_bets lib anchors soft_books tol min_edge bankroll = Ok [].
Proof.
  intros H. unfold generate_value_bets, emit_value_bets.
  rewrite for_each_nil_bodies; [reflexivity|].
  intros [name events] Hin.
  assert (Hm : match_events lib events anchors tol TEAM_SIMILARITY_THRESHOLD = []).
  { destruct H as [->|H].
    - unfold match_events, match_trace. now rewrite match_loop_no_right.
    - specialize (H _ Hin). simpl in H. subst events. reflexivity. }
  rewrite Hm. reflexivity.
Qed.

Lemma generate_value_bets_nothing_to_match_witness :
  generate_value_bets plain_library []
    [("jacks", [soft_event_btts]); ("toto", [soft_event_partial])] 12 (25 / 1000) 1000
  = Ok [].
Proof.
  apply (generate_value_bets_nothing_to_match plain_library []
           [("jacks", [soft_event_btts]); ("toto", [soft_event_partial])]).
  now left.
Defined.

(** ** Raising the threshold only filters the result *)

Lemma for_each_filter {A B} (p : B -> bool) (body body' : A -> result (list B))
    (xs : list A) (l : list B) :
  (forall x lx, In x xs -> body x = Ok lx -> body' x = Ok (filter p lx)) ->
  for_each body xs = Ok l -> for_each body' xs = Ok (filter p l).
Proof.
  revert l; induction xs as [|x xs IH]; intros l Hb H; cbn [for_each] in *.
  - injection H as <-. reflexivity.
  - destruct (body x) as [lx|] eqn:Ex; [|discriminate]. cbn [bind] in H.
    destruct (for_each body xs) as [more|] eqn:Em; [|discriminate].
    cbn [bind] in H. injection H as <-.
    rewrite (Hb x lx (or_introl eq_refl) Ex). cbn [bind].
    rewrite (IH more) by (try reflexivity; intros y ly Hy; apply Hb; now right).
    cbn [bind]. now rewrite filter_app.
Qed.

Lemma outcome_bets_threshold (book : string) (soft anchor : UnifiedEvent)
    (mt : string) (sm am : dict pyval) (sp ap : dict num)
    (m m' bankroll : R) (outcome : string) (l : list ValueBet) :
  m <= m' ->
  outcome_bets book soft anchor mt sm am sp ap m bankroll outcome = Ok l ->
  outcome_bets book soft anchor mt sm am sp ap m' bankroll outcome
  = Ok (filter (edge_at_least m') l).
Proof.
  unfold outcome_bets. intros Hm H.
  destruct (dmem sm outcome); cbn [negb] in *; [|injection H as <-; reflexivity].
  destruct (getitem ap outcome) as [tp|]; [|discriminate]. cbn [bind] in *.
  destruct (getitem sm outcome) as [so|]; [|discriminate]. cbn [bind] in *.
  destruct (getitem am outcome) as [ao|]; [|discriminate]. cbn [bind] in *.
  destruct tp as [p|]; [|discriminate]. destruct so as [o|]; [|discriminate].
  destruct (Rle_dec m (calculate_edge p o)) as [Hle|Hnle].
  - destruct (kelly_stake (calculate_edge p o) o bankroll KELLY_FRACTION)
      as [stake|]; [|discriminate]. cbn [bind] in *.
    destruct (getitem sp outcome) as [spv|]; [|discriminate]. cbn [bind] in *.
    injection H as <-. cbn [filter]. unfold edge_at_least.
    cbn [bet_anchor_prob bet_soft_odds].
    destruct (Rle_dec m' (calculate_edge p o)); reflexivity.
  - injection H as <-.
    destruct (Rle_dec m' (calculate_edge p o)); [exfalso; lra|reflexivity].
Qed.

Lemma market_bets_threshold (book : string) (soft anchor : UnifiedEvent)
    (m m' bankroll : R) (mt : string) (l : list ValueBet) :
  m <= m' ->
  market_bets book soft anchor m bankroll mt = Ok l ->
  market_bets book soft anchor m' bankroll mt = Ok (filter (edge_at_least m') l).
Proof.
  unfold market_bets. intros Hm H.
  destruct (dget (markets soft) mt) as [sm|]; [|injection H as <-; reflexivity].
  destruct (dget (markets anchor) mt) as [am|]; [|injection H as <-; reflexivity].
  destruct (if (mt =? "1x2")%string
            then probs <- check_home_away_swap sm am ;; Ok (Some probs)
            else remove_vig_multiplicative sm) as [sp|]; [|discriminate].
  cbn [bind] in *.
  destruct (remove_vig_multiplicative am) as [oap|]; [|discriminate].
  cbn [bind] in *.
  destruct (negb (truthy sp) || negb (truthy oap));
    [injection H as <-; reflexivity|].
  apply (for_each_filter _ _ _ _ _ (fun x lx _ => outcome_bets_threshold
           book soft anchor mt sm am _ _ m m' bankroll x lx Hm) H).
Qed.

Lemma emit_value_bets_threshold (lib : Library) (anchors : list UnifiedEvent)
    (soft_books : dict (list UnifiedEvent)) (tol : Z) (m m' bankroll : R)
    (l : list ValueBet) :
  m <= m' ->
  emit_value_bets lib anchors soft_books tol m bankroll = Ok l ->
  emit_value_bets lib anchors soft_books tol m' bankroll
  = Ok (filter (edge_at_least m') l).
Proof.
  unfold emit_value_bets. intros Hm. apply for_each_filter.
  intros [name events] lb _. apply for_each_filter.
  intros [soft anchor] lp _. apply for_each_filter.
  intros mt lm _. now apply market_bets_threshold.
Qed.

Lemma insert_by_edge_filter (p : ValueBet -> bool) (b : ValueBet)
    (l : list ValueBet) :
  StronglySorted edge_desc l ->
  filter p (insert_by_edge b l) =
  if p b then insert_by_edge b (filter p l) else filter p l.
Proof.
  induction 1 as [|x l Hs IH Hall]; [cbn; now destruct (p b)|].
  cbn [insert_by_edge].
  destruct (Rlt_dec (edge_percentage b) (edge_percentage x)) as [Hlt|Hge].
  - cbn [filter]. rewrite IH. destruct (p x) eqn:Ex; [|reflexivity].
    destruct (p b); [|reflexivity]. cbn [insert_by_edge].
    destruct (Rlt_dec (edge_percentage b) (edge_percentage x)); [reflexivity|lra].
  - cbn [filter]. destruct (p b) eqn:Eb; [|reflexivity].
    destruct (p x) eqn:Ex.
    + cbn [insert_by_edge].
      destruct (Rlt_dec (edge_percentage b) (edge_percentage x)); [lra|reflexivity].
    + (* the first kept element of the rest is not above [b] either *)
      clear IH. induction l as [|y l IHl]; [reflexivity|].
      cbn [filter]. inversion Hs as [|? ? Hs' Hall']; subst.
      inversion Hall as [|? ? Hxy Hall'']; subst.
      destruct (p y).
      * cbn [insert_by_edge]. unfold edge_desc in Hxy.
        destruct (Rlt_dec (edge_percentage b) (edge_percentage y)); [lra|reflexivity].
      * apply IHl; assumption.
Qed.

Lemma sort_by_edge_desc_filter (p : ValueBet -> bool) (l : list ValueBet) :
  filter p (sort_by_edge_desc l) = sort_by_edge_desc (filter p l).
Proof.
  induction l as [|b l IH]; [reflexivity|].
  cbn [sort_by_edge_desc fold_right filter]. fold (sort_by_edge_desc l).
  rewrite insert_by_edge_filter by apply sort_by_edge_desc_sorted.
  rewrite IH. destruct (p b); reflexivity.
Qed.

(** X10.  Raising the threshold only leaves bets out: if the pipeline
    returns [bets] at threshold [m], then at any higher threshold [m'] it
    raises no exception and returns [bets] with some of the bets left out,
    the others in the same order. *)
Theorem generate_value_bets_threshold (lib : Library)
    (anchors : list UnifiedEvent) (soft_books : dict (list UnifiedEvent))
    (tol : Z) (m m' bankroll : R) (bets : list ValueBet) :
  m <= m' ->
  generate_value_bets lib anchors soft_books tol m bankroll = Ok bets ->
  exists keep : ValueBet -> bool,
    generate_value_bets lib anchors soft_books tol m' bankroll
    = Ok (filter keep bets).
Proof.
  unfold generate_value_bets. intros Hm H.
  destruct (emit_value_bets lib anchors soft_books tol m bankroll)
    as [emitted|] eqn:Ee; [|discriminate].
  injection H as <-. exists (edge_at_least m').
  rewrite (emit_value_bets_threshold _ _ _ _ _ _ _ _ Hm Ee). cbn [bind].
  now rewrite sort_by_edge_desc_filter.
Qed.

Lemma generate_value_bets_threshold_witness :
  exists keep : ValueBet -> bool,
    generate_value_bets plain_library [anchor_event_full]
      [("jacks", [soft_event_btts]); ("toto", [soft_event_btts])] 12 (20 / 100) 1000
    = Ok (filter keep [example_bet "jacks"; example_bet "toto"]).
Proof.
  apply (generate_value_bets_threshold plain_library [anchor_event_full]
           [("jacks", [soft_event_btts]); ("toto", [soft_event_btts])]
           12 (25 / 1000) (20 / 100) 1000).
  - lra.
  - exact example_batch_runs.
Defined.

End PipelineExtras.

(* ===================================================================== *)
(** * More on matching/event_matcher.py *)
(* ===================================================================== *)

Module MatcherExtras.

Import Settings TeamNormalizer DatetimeUtils EventMatcher Vocabulary EventMatcherFacts.
Local Open Scope Q_scope.

(** ** Size and order of the result *)

Lemma match_loop_length_left (lib : Library) (right : list UnifiedEvent)
    (tol : Z) (min_sim : Q) :
  forall (left : list UnifiedEvent) (li : nat) (used : list nat),
    (List.length (match_loop lib right tol min_sim li left used)
     <= List.length left)%nat.
Proof.
  induction left as [|l rest IH]; intros li used; [apply Nat.le_refl|].
  cbn [match_loop List.length].
  destruct (candidates_for lib l right used tol min_sim) as [[|c cs]|];
    cbn [List.length]; try (apply Nat.le_le_succ_r; apply IH).
  apply le_n_S, IH.
Qed.

Lemma match_loop_left_increasing (lib : Library) (right : list UnifiedEvent)
    (tol : Z) (min_sim : Q) :
  forall (left : list UnifiedEvent) (li : nat) (used : list nat),
    StronglySorted lt (map left_index (match_loop lib right tol min_sim li left used)).
Proof.
  induction left as [|l rest IH]; intros li used; [constructor|].
  cbn [match_loop].
  destruct (candidates_for lib l right used tol min_sim) as [[|c cs]|];
    try apply IH.
  cbn [map left_index]. constructor; [apply IH|].
  apply Forall_forall. intros i Hi. apply in_map_iff in Hi.
  destruct Hi as (m & <- & Hm).
  destruct (match_loop_sound _ _ _ _ _ _ _ _ Hm) as (Hle & _). lia.
Qed.

Lemma NoDup_bounded_length (l : list nat) (n : nat) :
  NoDup l -> (forall i, In i l -> (i < n)%nat) -> (List.length l <= n)%nat.
Proof.
  intros Hnd Hb. rewrite <- (length_seq n 0).
  apply NoDup_incl_length; [exact Hnd|].
  intros i Hi. apply in_seq. specialize (Hb i Hi). lia.
Qed.

(** X11.  [match_events] returns at most one pair per left event and per right
    event, and lists the pairs in the order of the left events. *)
Theorem match_events_size_and_order (lib : Library)
    (left right : list UnifiedEvent) (tol : Z) (min_sim : Q) :
  (List.length (match_events lib left right tol min_sim) <= List.length left)%nat /\
  (List.length (match_events lib left right tol min_sim) <= List.length right)%nat /\
  StronglySorted lt (map left_index (match_trace lib left right tol min_sim)).
Proof.
  unfold match_events, match_trace. rewrite length_map. split; [|split].
  - apply match_loop_length_left.
  - rewrite <- (length_map right_index).
    apply NoDup_bounded_length; [apply match_loop_right_NoDup|].
    intros i Hi. apply in_map_iff in Hi. destruct Hi as (m & <- & Hm).
    destruct (match_loop_sound _ _ _ _ _ _ _ _ Hm)
      as (_ & _ & c & used' & _ & (Hnth & _) & Hidx & _).
    rewrite <- Hidx. apply nth_error_Some. congruence.
  - apply match_loop_left_increasing.
Qed.

(** ** Events that produce no pair *)

Lemma match_loop_pairs_shift (lib : Library) (right : list UnifiedEvent)
    (tol : Z) (min_sim : Q) :
  forall (left : list UnifiedEvent) (li li' : nat) (used : list nat),
    map (fun m => (left_event_of m, right_event_of m))
        (match_loop lib right tol min_sim li left used)
    = map (fun m => (left_event_of m, right_event_of m))
          (match_loop lib right tol min_sim li' left used).
Proof.
  induction left as [|l rest IH]; intros li li' used; [reflexivity|].
  cbn [match_loop].
  destruct (candidates_for lib l right used tol min_sim) as [[|c cs]|];
    try apply IH.
  cbn [map left_event_of right_event_of]. f_equal. apply IH.
Qed.

Lemma scan_candidates_other_league (lib : Library) (left_event : UnifiedEvent)
    (lk : datetime) (lh la : pystr) (used : list nat) (tol : Z) (min_sim : Q) :
  forall (right : list UnifiedEvent) (idx : nat),
    (forall r, In r right -> league r <> league left_event) ->
    scan_candidates lib left_event lk lh la used tol min_sim idx right = Some [].
Proof.
  induction right as [|r rest IH]; intros idx H; [reflexivity|].
  cbn [scan_candidates]. cbv zeta.
  assert (E : String.eqb (league r) (league left_event) = false).
  { apply String.eqb_neq. apply H. now left. }
  rewrite E. cbn [negb]. rewrite orb_true_r.
  apply IH. intros r' Hr'. apply H. now right.
Qed.

(** X12.  A left event whose kickoff does not parse, or whose league no right
    event has, yields no pair and leaves the pairing of the other left
    events as it is without it. *)
Theorem match_events_skips_event (lib : Library) (l : UnifiedEvent)
    (rest right : list UnifiedEvent) (tol : Z) (min_sim : Q) :
  parse_datetime lib (kickoff_utc l) = None \/
  (forall r, In r right -> league r <> league l) ->
  match_events lib (l :: rest) right tol min_sim
  = match_events lib rest right tol min_sim.
Proof.
  intros H. unfold match_events, match_trace. cbn [match_loop].
  assert (Hc : candidates_for lib l right [] tol min_sim = None \/
               candidates_for lib l right [] tol min_sim = Some []).
  { unfold candidates_for. destruct H as [->|H]; [now left|].
    destruct (parse_datetime lib (kickoff_utc l)); [right|now left].
    now apply scan_candidates_other_league. }
  destruct Hc as [-> | ->]; apply match_loop_pairs_shift.
Qed.


Lemma match_events_skips_event_witness :
  match_events plain_library (soft_event_bad_kickoff :: [soft_ajax_psv])
    [anchor_ajax_psv_near] 12 TEAM_SIMILARITY_THRESHOLD
  = match_events plain_library [soft_ajax_psv]
      [anchor_ajax_psv_near] 12 TEAM_SIMILARITY_THRESHOLD.
Proof.
  apply (match_events_skips_event plain_library soft_event_bad_kickoff).
  left. reflexivity.
Defined.

(** ** The same fixture on both sides *)

Lemma gap_within_window (tl tr : datetime) (tol : Z) :
  Qabs (total_seconds (tr - tl)) <= inject_Z (tol * 60) ->
  within_time_window tl tr tol = true.
Proof.
  intros H. unfold within_time_window. apply Qle_bool_iff.
  now rewrite gap_symmetric.
Qed.

(** X13.  One left and one right event of the same league whose normalized names
    agree and whose kickoffs parse and lie within the window are paired,
    whatever the similarity threshold. *)
Theorem match_events_pairs_same_fixture (lib : Library) (l r : UnifiedEvent)
    (tol : Z) (min_sim : Q) (tl tr : datetime) :
  league r = league l ->
  exact_names lib l r = true ->
  parse_datetime lib (kickoff_utc l) = Some tl ->
  parse_datetime lib (kickoff_utc r) = Some tr ->
  Qabs (total_seconds (tr - tl)) <= inject_Z (tol * 60) ->
  match_events lib [l] [r] tol min_sim = [(l, r)].
Proof.
  intros Hlg Hex Hl Hr Hgap. unfold exact_names in Hex.
  unfold match_events, match_trace. cbn [match_loop].
  unfold candidates_for. rewrite Hl.
  rewrite (scan_candidates_take lib l tl _ _ [] tol min_sim 0 r [] tr).
  - cbn [scan_candidates min_by_score map left_event_of right_event_of
         cand_event match_loop]. reflexivity.
  - reflexivity.
  - rewrite Hlg. apply String.eqb_refl.
  - rewrite Hex. reflexivity.
  - exact Hr.
  - now apply gap_within_window.
Qed.

Lemma match_events_pairs_same_fixture_witness :
  match_events plain_library [soft_ajax_psv] [anchor_ajax_psv_near] 12
    TEAM_SIMILARITY_THRESHOLD
  = [(soft_ajax_psv, anchor_ajax_psv_near)].
Proof.
  apply (match_events_pairs_same_fixture plain_library soft_ajax_psv
           anchor_ajax_psv_near 12 TEAM_SIMILARITY_THRESHOLD
           63871329600000000%Z 63871329900000000%Z).
  - reflexivity.
  - vm_compute. reflexivity.
  - vm_compute. reflexivity.
  - vm_compute. reflexivity.
  - vm_compute. discriminate.
Defined.

(** ** A right event that cannot be parsed *)

Lemma scan_candidates_poisoned (lib : Library) (left_event : UnifiedEvent)
    (lk : datetime) (lh la : pystr) (used : list nat) (tol : Z) (min_sim : Q) :
  forall (right : list UnifiedEvent) (idx j : nat) (r : UnifiedEvent),
    nth_error right j = Some r ->
    ~ In (idx + j)%nat used ->
    league r = league left_event ->
    (pystr_eqb lh (normalize_team_name lib (home r))
     && pystr_eqb la (normalize_team_name lib (away r)))
    || Qle_bool min_sim
         ((team_similarity lib lh (normalize_team_name lib (home r))
           + team_similarity lib la (normalize_team_name lib (away r))) / 2) = true ->
    parse_datetime lib (kickoff_utc r) = None ->
    scan_candidates lib left_event lk lh la used tol min_sim idx right = None.
Proof.
  induction right as [|x rest IH]; intros idx j r Hnth Hused Hlg Hq Hp.
  - destruct j; discriminate.
  - destruct j as [|j].
    + injection Hnth as ->. rewrite Nat.add_0_r in Hused.
      cbn [scan_candidates]. cbv zeta.
      assert (Eu : existsb (Nat.eqb idx) used = false).
      { destruct (existsb (Nat.eqb idx) used) eqn:E; [|reflexivity].
        apply existsb_exists in E. destruct E as (y & Hy & Ey).
        apply Nat.eqb_eq in Ey. subst y. contradiction. }
      rewrite Eu, Hlg, String.eqb_refl. cbn [orb negb]. now rewrite Hq, Hp.
    + assert (Hrest : scan_candidates lib left_event lk lh la used tol min_sim
                        (S idx) rest = None).
      { apply (IH (S idx) j r Hnth); try assumption.
        now replace (S idx + j)%nat with (idx + S j)%nat by lia. }
      clear IH Hnth Hused Hlg Hq Hp.
      cbn [scan_candidates]. cbv zeta. rewrite Hrest.
      destruct (existsb (Nat.eqb idx) used
                || negb (String.eqb (league x) (league left_event)));
        [reflexivity|].
      destruct (_ || Qle_bool min_sim _); [|reflexivity].
      destruct (parse_datetime lib (kickoff_utc x)); [|reflexivity].
      destruct (within_time_window lk _ tol); reflexivity.
Qed.

(** X14.  A right event of the first left event's league whose names are equal
    or similar enough to its names and whose kickoff does not parse makes
    that left event yield no pair, even when another right event is a valid
    candidate: the exception of the inner loop is caught per left event. *)
Theorem unparsable_right_event_drops_left_event (lib : Library)
    (l : UnifiedEvent) (rest right : list UnifiedEvent) (tol : Z) (min_sim : Q)
    (j : nat) (r : UnifiedEvent) :
  nth_error right j = Some r ->
  league r = league l ->
  exact_names lib l r = true \/ min_sim <= average_similarity lib l r ->
  parse_datetime lib (kickoff_utc r) = None ->
  match_events lib (l :: rest) right tol min_sim
  = match_events lib rest right tol min_sim.
Proof.
  intros Hnth Hlg Hex Hp. unfold exact_names, average_similarity in Hex.
  unfold match_events, match_trace. cbn [match_loop].
  assert (Hc : candidates_for lib l right [] tol min_sim = None).
  { unfold candidates_for.
    destruct (parse_datetime lib (kickoff_utc l)) as [lk|]; [|reflexivity].
    apply (scan_candidates_poisoned lib l lk _ _ [] tol min_sim right 0 j r);
      try assumption.
    - intros [].
    - apply orb_true_iff. destruct Hex as [Hex|Hex]; [now left|right].
      now apply Qle_bool_iff. }
  rewrite Hc. apply match_loop_pairs_shift.
Qed.

Lemma unparsable_right_event_drops_left_event_witness :
  match_events plain_library [soft_ajax_psv]
    [anchor_ajax_psv_near; anchor_event_bad_kickoff] 12 TEAM_SIMILARITY_THRESHOLD
  = match_events plain_library []
      [anchor_ajax_psv_near; anchor_event_bad_kickoff] 12 TEAM_SIMILARITY_THRESHOLD.
Proof.
  apply (unparsable_right_event_drops_left_event plain_library soft_ajax_psv []
           [anchor_ajax_psv_near; anchor_event_bad_kickoff] 12
           TEAM_SIMILARITY_THRESHOLD 1 anchor_event_bad_kickoff).
  - reflexivity.
  - reflexivity.
  - left. vm_compute. reflexivity.
  - reflexivity.
Defined.

(** ** What a pair guarantees *)

Lemma scan_candidates_qualify (lib : Library) (left_event : UnifiedEvent)
    (lk : datetime) (lh la : pystr) (used : list nat) (tol : Z) (min_sim : Q) :
  forall (right : list UnifiedEvent) (idx : nat) (cands : list candidate),
    scan_candidates lib left_event lk lh la used tol min_sim idx right
    = Some cands ->
    forall c, In c cands ->
      (pystr_eqb lh (normalize_team_name lib (home (cand_event c)))
       && pystr_eqb la (normalize_team_name lib (away (cand_event c))))
      || Qle_bool min_sim
           ((team_similarity lib lh (normalize_team_name lib (home (cand_event c)))
             + team_similarity lib la (normalize_team_name lib (away (cand_event c))))
            / 2) = true.
Proof.
  induction right as [|r rest IH]; intros idx cands Hscan c Hin.
  - simpl in Hscan. injection Hscan as <-. contradiction.
  - cbn [scan_candidates] in Hscan. cbv zeta in Hscan.
    destruct (existsb (Nat.eqb idx) used
              || negb (String.eqb (league r) (league left_event)));
      [now apply (IH (S idx) cands)|].
    destruct (_ || Qle_bool min_sim _) eqn:Equal in Hscan;
      [|now apply (IH (S idx) cands)].
    destruct (parse_datetime lib (kickoff_utc r)) as [rk|]; [|discriminate].
    destruct (within_time_window lk rk tol); [|now apply (IH (S idx) cands)].
    destruct (scan_candidates lib left_event lk lh la used tol min_sim (S idx) rest)
      as [more|] eqn:Emore; [|discriminate].
    injection Hscan as <-. destruct Hin as [<-|Hin]; [|now apply (IH (S idx) more)].
    exact Equal.
Qed.

Lemma candidates_for_qualify (lib : Library) (l : UnifiedEvent)
    (right : list UnifiedEvent) (used : list nat) (tol : Z) (min_sim : Q)
    (cands : list candidate) (c : candidate) :
  candidates_for lib l right used tol min_sim = Some cands ->
  In c cands ->
  qualifies lib l (cand_event c) tol min_sim.
Proof.
  intros Hc Hin.
  destruct (candidates_for_sound _ _ _ _ _ _ _ Hc c Hin)
    as (_ & _ & Hlg & _ & Hparse & Hgap & _).
  unfold qualifies. split; [exact Hlg|]. split; [|split; assumption].
  unfold candidates_for in Hc.
  destruct (parse_datetime lib (kickoff_utc l)) as [lk|]; [|discriminate].
  pose proof (scan_candidates_qualify _ _ _ _ _ _ _ _ _ _ _ Hc c Hin) as Hq.
  apply orb_true_iff in Hq. destruct Hq as [Hq|Hq].
  - left. exact Hq.
  - right. apply Qle_bool_iff in Hq. exact Hq.
Qed.

Lemma match_loop_qualifies (lib : Library) (right : list UnifiedEvent)
    (tol : Z) (min_sim : Q) :
  forall (left : list UnifiedEvent) (li : nat) (used : list nat) (m : matched),
    In m (match_loop lib right tol min_sim li left used) ->
    In (left_event_of m) left /\ In (right_event_of m) right /\
    qualifies lib (left_event_of m) (right_event_of m) tol min_sim.
Proof.
  induction left as [|l rest IH]; intros li used m Hin; [contradiction|].
  assert (Hlater : forall used',
            In m (match_loop lib right tol min_sim (S li) rest used') ->
            In (left_event_of m) (l :: rest) /\ In (right_event_of m) right /\
            qualifies lib (left_event_of m) (right_event_of m) tol min_sim).
  { intros used' Hm. destruct (IH _ _ _ Hm) as (H1 & H2).
    split; [now right|exact H2]. }
  cbn [match_loop] in Hin.
  destruct (candidates_for lib l right used tol min_sim) as [[|c cs]|] eqn:Ec;
    try (now apply (Hlater used)).
  destruct Hin as [<-|Hin]; [|exact (Hlater _ Hin)].
  cbn [left_event_of right_event_of].
  pose proof (min_by_score_spec cs c) as (Hbest & _).
  split; [now left|]. split.
  - destruct (candidates_for_sound _ _ _ _ _ _ _ Ec _ Hbest) as (Hnth & _).
    exact (nth_error_In _ _ Hnth).
  - exact (candidates_for_qualify _ _ _ _ _ _ _ _ Ec Hbest).
Qed.

(** X15.  Every pair [match_events] returns joins a left event and a right event
    of the same league whose kickoffs parse and lie within the tolerance and
    whose normalized names are equal or similar enough. *)
Theorem match_events_pairs_qualify (lib : Library)
    (left right : list UnifiedEvent) (tol : Z) (min_sim : Q)
    (l r : UnifiedEvent) :
  In (l, r) (match_events lib left right tol min_sim) ->
  In l left /\ In r right /\ qualifies lib l r tol min_sim.
Proof.
  unfold match_events, match_trace. intros Hin.
  apply in_map_iff in Hin. destruct Hin as (m & [= <- <-] & Hm).
  exact (match_loop_qualifies _ _ _ _ _ _ _ _ Hm).
Qed.

Lemma match_events_pairs_qualify_witness :
  In soft_ajax_psv [soft_ajax_psv] /\
  In anchor_ajax_psv_near [anchor_ajax_psv_near] /\
  qualifies plain_library soft_ajax_psv anchor_ajax_psv_near 12
    TEAM_SIMILARITY_THRESHOLD.
Proof.
  apply (match_events_pairs_qualify plain_library [soft_ajax_psv]
           [anchor_ajax_psv_near] 12 TEAM_SIMILARITY_THRESHOLD).
  vm_compute. left. reflexivity.
Defined.

(** X16.  With a negative tolerance no two kickoffs are within the window, and
    nothing is paired. *)
Theorem match_events_negative_tolerance (lib : Library)
    (left right : list UnifiedEvent) (tol : Z) (min_sim : Q) :
  (tol < 0)%Z ->
  match_events lib left right tol min_sim = [].
Proof.
  intros Htol.
  destruct (match_events lib left right tol min_sim) as [|[l r] ps] eqn:E;
    [reflexivity|exfalso].
  assert (Hin : In (l, r) (match_events lib left right tol min_sim))
    by (rewrite E; now left).
  unfold match_events, match_trace in Hin.
  apply in_map_iff in Hin. destruct Hin as (m & [= <- <-] & Hm).
  destruct (match_loop_qualifies _ _ _ _ _ _ _ _ Hm) as (_ & _ & _ & _ & _ & Hgap).
  pose proof (kickoff_gap_nonneg lib (left_event_of m) (right_event_of m)) as H0.
  assert (Hneg : inject_Z (tol * 60) < 0) by (unfold Qlt, inject_Z; simpl; lia).
  apply (Qlt_irrefl 0).
  apply Qle_lt_trans with (inject_Z (tol * 60)); [|exact Hneg].
  now apply Qle_trans with (kickoff_gap lib (left_event_of m) (right_event_of m)).
Qed.

Lemma match_events_negative_tolerance_witness :
  match_events plain_library [soft_ajax_psv] [anchor_ajax_psv_near] (-1)
    TEAM_SIMILARITY_THRESHOLD = [].
Proof.
  apply (match_events_negative_tolerance plain_library). lia.
Defined.

(** ** The best candidate, and ties *)

Lemma min_by_score_first (rest : list candidate) :
  forall best,
    exists pre post,
      best :: rest = pre ++ min_by_score best rest :: post /\
      (forall c, In c pre -> cand_score (min_by_score best rest) < cand_score c) /\
      (forall c, In c post -> cand_score (min_by_score best rest) <= cand_score c).
Proof.
  induction rest as [|c rest IH]; intros best.
  - exists [], []. cbn. repeat split; intros c [].
  - cbn [min_by_score].
    destruct (Qlt_bool (cand_score c) (cand_score best)) eqn:E.
    + destruct (IH c) as (pre & post & Heq & Hpre & Hpost).
      exists (best :: pre), post. split; [cbn [app]; now rewrite <- Heq|].
      split; [|exact Hpost].
      intros x [<-|Hx]; [|now apply Hpre].
      apply Qlt_bool_iff in E.
      destruct (min_by_score_spec rest c) as (_ & Hle & _).
      now apply Qle_lt_trans with (cand_score c).
    + destruct (IH best) as (pre & post & Heq & Hpre & Hpost).
      assert (Hbc : cand_score best <= cand_score c).
      { apply Qnot_lt_le. intros Hlt. apply Qlt_bool_iff in Hlt. congruence. }
      destruct pre as [|p pre].
      * cbn [app] in Heq. injection Heq as Hb Hr. subst post.
        exists [], (c :: rest). split; [cbn [app]; now rewrite <- Hb|].
        split; [intros x []|].
        intros x [<-|Hx]; [|now apply Hpost].
        destruct (min_by_score_spec rest best) as (_ & Hle & _).
        now apply Qle_trans with (cand_score best).
      * cbn [app] in Heq. injection Heq as Hb Hr. subst p.
        exists (best :: c :: pre), post. split; [cbn [app]; now rewrite <- Hr|].
        split; [|exact Hpost].
        intros x [<-|[<-|Hx]].
        -- apply Hpre. now left.
        -- apply Qlt_le_trans with (cand_score best); [apply Hpre; now left|exact Hbc].
        -- apply Hpre. now right.
Qed.

Lemma scan_candidates_total (lib : Library) (left_event : UnifiedEvent)
    (lk : datetime) (lh la : pystr) (used : list nat) (tol : Z) (min_sim : Q) :
  forall (right : list UnifiedEvent) (idx : nat),
    (forall x, In x right -> parse_datetime lib (kickoff_utc x) <> None) ->
    exists cands,
      scan_candidates lib left_event lk lh la used tol min_sim idx right
      = Some cands.
Proof.
  induction right as [|r rest IH]; intros idx Hp; [now exists []|].
  destruct (IH (S idx)) as (more & Emore).
  { intros x Hx. apply Hp. now right. }
  cbn [scan_candidates]. cbv zeta. rewrite Emore.
  destruct (existsb (Nat.eqb idx) used
            || negb (String.eqb (league r) (league left_event)));
    [now exists more|].
  destruct (_ || Qle_bool min_sim _); [|now exists more].
  destruct (parse_datetime lib (kickoff_utc r)) as [rk|] eqn:Er.
  - destruct (within_time_window lk rk tol); eexists; reflexivity.
  - exfalso. apply (Hp r); [now left|exact Er].
Qed.

Lemma scan_candidates_complete (lib : Library) (left_event : UnifiedEvent)
    (lk : datetime) (lh la : pystr) (used : list nat) (tol : Z) (min_sim : Q) :
  forall (right : list UnifiedEvent) (idx : nat) (cands : list candidate)
         (j : nat) (r : UnifiedEvent) (rk : datetime),
    scan_candidates lib left_event lk lh la used tol min_sim idx right
    = Some cands ->
    nth_error right j = Some r ->
    existsb (Nat.eqb (idx + j)) used = false ->
    league r = league left_event ->
    (pystr_eqb lh (normalize_team_name lib (home r))
     && pystr_eqb la (normalize_team_name lib (away r)))
    || Qle_bool min_sim
         ((team_similarity lib lh (normalize_team_name lib (home r))
           + team_similarity lib la (normalize_team_name lib (away r))) / 2) = true ->
    parse_datetime lib (kickoff_utc r) = Some rk ->
    within_time_window lk rk tol = true ->
    exists c, In c cands /\ cand_idx c = (idx + j)%nat /\ cand_event c = r.
Proof.
  induction right as [|x rest IH];
    intros idx cands j r rk Hscan Hnth Hused Hlg Hq Hp Hw.
  - destruct j; discriminate.
  - destruct j as [|j].
    + injection Hnth as ->. rewrite Nat.add_0_r in Hused |- *.
      cbn [scan_candidates] in Hscan. cbv zeta in Hscan.
      rewrite Hused, Hlg, String.eqb_refl in Hscan. cbn [orb negb] in Hscan.
      rewrite Hq, Hp, Hw in Hscan.
      destruct (scan_candidates lib left_event lk lh la used tol min_sim (S idx) rest)
        as [more|]; [|discriminate].
      injection Hscan as <-. eexists. split; [now left|]. split; reflexivity.
    + assert (Hlater : forall cs,
                scan_candidates lib left_event lk lh la used tol min_sim (S idx) rest
                = Some cs ->
                exists c, In c cs /\ cand_idx c = (idx + S j)%nat /\ cand_event c = r).
      { intros cs Hcs.
        destruct (IH (S idx) cs j r rk Hcs Hnth) as (c & Hc & Hi & He);
          try assumption.
        - now replace (S idx + j)%nat with (idx + S j)%nat by lia.
        - exists c. split; [exact Hc|]. split; [lia|exact He]. }
      clear IH Hnth Hused Hlg Hq Hp Hw.
      cbn [scan_candidates] in Hscan. cbv zeta in Hscan.
      destruct (existsb (Nat.eqb idx) used
                || negb (String.eqb (league x) (league left_event)));
        [now apply Hlater|].
      destruct (_ || Qle_bool min_sim _) in Hscan; [|now apply Hlater].
      destruct (parse_datetime lib (kickoff_utc x)) as [xk|]; [|discriminate].
      destruct (within_time_window lk xk tol); [|now apply Hlater].
      destruct (scan_candidates lib left_event lk lh la used tol min_sim (S idx) rest)
        as [more|]; [|discriminate].
      injection Hscan as <-.
      destruct (Hlater more eq_refl) as (c & Hc & Hrest).
      exists c. split; [now right|exact Hrest].
Qed.

Lemma scan_candidates_increasing (lib : Library) (left_event : UnifiedEvent)
    (lk : datetime) (lh la : pystr) (used : list nat) (tol : Z) (min_sim : Q) :
  forall (right : list UnifiedEvent) (idx : nat) (cands : list candidate),
    scan_candidates lib left_event lk lh la used tol min_sim idx right
    = Some cands ->
    StronglySorted (fun a b => (cand_idx a < cand_idx b)%nat) cands.
Proof.
  induction right as [|r rest IH]; intros idx cands Hscan.
  - simpl in Hscan. injection Hscan as <-. constructor.
  - cbn [scan_candidates] in Hscan. cbv zeta in Hscan.
    destruct (existsb (Nat.eqb idx) used
              || negb (String.eqb (league r) (league left_event)));
      [now apply (IH (S idx))|].
    destruct (_ || Qle_bool min_sim _) in Hscan; [|now apply (IH (S idx))].
    destruct (parse_datetime lib (kickoff_utc r)) as [rk|]; [|discriminate].
    destruct (within_time_window lk rk tol); [|now apply (IH (S idx))].
    destruct (scan_candidates lib left_event lk lh la used tol min_sim (S idx) rest)
      as [more|] eqn:Emore; [|discriminate].
    injection Hscan as <-. constructor; [now apply (IH (S idx))|].
    apply Forall_forall. intros c Hc. cbn [cand_idx].
    destruct (scan_candidates_sound _ _ _ _ _ _ _ _ _ _ _ Emore c Hc) as (Hle & _).
    lia.
Qed.

Lemma sorted_after (pre post : list candidate) (best : candidate) :
  StronglySorted (fun a b => (cand_idx a < cand_idx b)%nat) (pre ++ best :: post) ->
  forall c, In c post -> (cand_idx best < cand_idx c)%nat.
Proof.
  induction pre as [|p pre IH]; cbn [app]; intros Hs c Hc.
  - apply StronglySorted_inv in Hs. destruct Hs as (_ & Hall).
    rewrite Forall_forall in Hall. now apply Hall.
  - apply StronglySorted_inv in Hs. destruct Hs as (Hs & _). now apply IH.
Qed.

Lemma candidate_pair_score (lib : Library) (l : UnifiedEvent)
    (right : list UnifiedEvent) (used : list nat) (tol : Z) (c : candidate) :
  candidate_ok lib l right used tol c ->
  cand_score c = pair_score lib l (cand_event c).
Proof.
  intros (_ & _ & _ & Hex & _ & _ & Hs). unfold pair_score.
  rewrite Hs, Hex. reflexivity.
Qed.

(** X17.  When every right kickoff parses, the first left event is paired with a
    right event of least score among those that qualify for it, and among
    several of least score with the one that comes first in [right]. *)
Theorem first_event_gets_best_candidate (lib : Library) (l : UnifiedEvent)
    (rest right : list UnifiedEvent) (tol : Z) (min_sim : Q)
    (j : nat) (r : UnifiedEvent) :
  (forall x, In x right -> parse_datetime lib (kickoff_utc x) <> None) ->
  nth_error right j = Some r ->
  qualifies lib l r tol min_sim ->
  exists j' r' tail,
    match_trace lib (l :: rest) right tol min_sim
    = {| left_index := 0; left_event_of := l;
         right_index := j'; right_event_of := r' |} :: tail /\
    nth_error right j' = Some r' /\
    pair_score lib l r' <= pair_score lib l r /\
    (pair_score lib l r <= pair_score lib l r' -> (j' <= j)%nat).
Proof.
  intros Hparse Hnth (Hlg & Hname & (tl & tr & Hl & Hr) & Hgap).
  assert (Hgap' : Qabs (total_seconds (tr - tl)) <= inject_Z (tol * 60)).
  { unfold kickoff_gap in Hgap. now rewrite Hl, Hr in Hgap. }
  destruct (scan_candidates_total lib l tl (normalize_team_name lib (home l))
              (normalize_team_name lib (away l)) [] tol min_sim right 0 Hparse)
    as (cands & Hscan).
  assert (Hc : candidates_for lib l right [] tol min_sim = Some cands).
  { unfold candidates_for. now rewrite Hl. }
  destruct (scan_candidates_complete _ _ _ _ _ _ _ _ _ _ _ j r tr Hscan Hnth)
    as (cr & Hcr & Hcri & Hcre); try assumption.
  { reflexivity. }
  { apply orb_true_iff. destruct Hname as [Hex|Hsim].
    - left. exact Hex.
    - right. apply Qle_bool_iff. exact Hsim. }
  { now apply gap_within_window. }
  cbn [Nat.add] in Hcri.
  destruct cands as [|c cs]; [contradiction|].
  destruct (min_by_score_first cs c) as (pre & post & Heq & Hpre & Hpost).
  set (best := min_by_score c cs) in *.
  assert (Hbest : In best (c :: cs)) by apply (min_by_score_spec cs c).
  pose proof (candidates_for_sound _ _ _ _ _ _ _ Hc best Hbest) as Hok.
  pose proof (candidates_for_sound _ _ _ _ _ _ _ Hc cr Hcr) as Hokr.
  rewrite (candidate_pair_score _ _ _ _ _ _ Hok) in Hpre, Hpost.
  exists (cand_idx best), (cand_event best).
  eexists. split; [|split; [|split]].
  - unfold match_trace. cbn [match_loop]. rewrite Hc. fold best. reflexivity.
  - apply Hok.
  - rewrite <- Hcre, <- (candidate_pair_score _ _ _ _ _ _ Hokr).
    rewrite Heq in Hcr. apply in_app_or in Hcr.
    destruct Hcr as [Hin|[<-|Hin]].
    + apply Qlt_le_weak. now apply Hpre.
    + rewrite (candidate_pair_score _ _ _ _ _ _ Hok). apply Qle_refl.
    + now apply Hpost.
  - intros Hle. rewrite <- Hcre, <- (candidate_pair_score _ _ _ _ _ _ Hokr) in Hle.
    rewrite <- Hcri.
    pose proof (scan_candidates_increasing _ _ _ _ _ _ _ _ _ _ _ Hscan) as Hs.
    rewrite Heq in Hs, Hcr. apply in_app_or in Hcr.
    destruct Hcr as [Hin|[<-|Hin]].
    + exfalso. apply (Qlt_irrefl (cand_score cr)).
      apply Qle_lt_trans with (pair_score lib l (cand_event best));
        [exact Hle|now apply Hpre].
    + apply Nat.le_refl.
    + apply Nat.lt_le_incl. now apply (sorted_after pre post best).
Qed.

Lemma first_event_gets_best_candidate_witness :
  exists j' r' tail,
    match_trace plain_library [soft_ajax_psv]
      [anchor_ajax_psv_late; anchor_ajax_psv_near] 12 TEAM_SIMILARITY_THRESHOLD
    = {| left_index := 0; left_event_of := soft_ajax_psv;
         right_index := j'; right_event_of := r' |} :: tail /\
    nth_error [anchor_ajax_psv_late; anchor_ajax_psv_near] j' = Some r' /\
    pair_score plain_library soft_ajax_psv r'
    <= pair_score plain_library soft_ajax_psv anchor_ajax_psv_near /\
    (pair_score plain_library soft_ajax_psv anchor_ajax_psv_near
     <= pair_score plain_library soft_ajax_psv r' -> (j' <= 1)%nat).
Proof.
  apply (first_event_gets_best_candidate plain_library soft_ajax_psv []
           [anchor_ajax_psv_late; anchor_ajax_psv_near] 12
           TEAM_SIMILARITY_THRESHOLD 1 anchor_ajax_psv_near).
  - intros x [<-|[<-|[]]]; vm_compute; discriminate.
  - reflexivity.
  - split; [reflexivity|]. split; [left; vm_compute; reflexivity|].
    split; [do 2 eexists; split; vm_compute; reflexivity|].
    vm_compute. discriminate.
Defined.

End MatcherExtras.

(* ===================================================================== *)
(** * More on matching/team_normalizer.py *)
(* ===================================================================== *)

Module NormalizerExtras.

Import Lib TeamNormalizer Vocabulary TeamNormalizerFacts.

(** ** The alias table *)

Lemma alias_table_closed_check (lib : Library) :
  forallb (fun kv =>
             pystr_eqb (normalize_team_name lib (u (fst kv))) (u (snd kv))
             && pystr_eqb (normalize_team_name lib (u (snd kv))) (u (snd kv)))
    TEAM_ALIASES = true.
Proof. vm_compute. reflexivity. Qed.

Lemma alias_table_closed (lib : Library) (k v : string) :
  In (k, v) TEAM_ALIASES ->
  normalize_team_name lib (u k) = u v /\ normalize_team_name lib (u v) = u v.
Proof.
  intros Hin. pose proof (alias_table_closed_check lib) as H.
  rewrite forallb_forall in H. specialize (H (k, v) Hin).
  cbn [fst snd] in H. apply andb_true_iff in H. destruct H as [H1 H2].
  split; now apply pystr_eqb_eq.
Qed.

(** X18.  Every key of the alias table, spelled as in the table, is normalized to
    its canonical name, and every canonical name to itself, although one
    key ("vvv-venlo") is never looked up as such. *)
Theorem normalize_team_name_alias_table (lib : Library) (k v : string) :
  In (k, v) TEAM_ALIASES ->
  normalize_team_name lib (u k) = u v /\ normalize_team_name lib (u v) = u v.
Proof. apply alias_table_closed. Qed.

Lemma normalize_team_name_alias_table_witness :
  normalize_team_name plain_library (u "vvv-venlo") = u "vvv venlo" /\
  normalize_team_name plain_library (u "vvv venlo") = u "vvv venlo".
Proof.
  apply (normalize_team_name_alias_table plain_library "vvv-venlo" "vvv venlo").
  apply (nth_error_In TEAM_ALIASES 68). reflexivity.
Defined.


(** ** Upper and lower case *)

Lemma basic_normalize_ascii (lib : Library) (name : pystr) :
  forallb is_ascii name = true ->
  basic_normalize lib name
  = strip (collapse_ws false
             (sub_separators
                (strip_accents lib (strip (map ascii_lower name))))).
Proof. intros H. unfold basic_normalize, str_lower. now rewrite H. Qed.

(** X19.  Two ASCII names that differ only in the case of their letters are
    normalized to the same name. *)
Theorem normalize_team_name_ignores_case (lib : Library) (a b : pystr) :
  forallb is_ascii a = true ->
  forallb is_ascii b = true ->
  map ascii_lower a = map ascii_lower b ->
  normalize_team_name lib a = normalize_team_name lib b.
Proof.
  intros Ha Hb Hab.
  assert (E : basic_normalize lib a = basic_normalize lib b).
  { now rewrite (basic_normalize_ascii lib a Ha), (basic_normalize_ascii lib b Hb), Hab. }
  destruct a as [|x a], b as [|y b]; try discriminate; [reflexivity|].
  unfold normalize_team_name. now rewrite E.
Qed.

Lemma normalize_team_name_ignores_case_witness :
  normalize_team_name plain_library (u "PSV Eindhoven")
  = normalize_team_name plain_library (u "psv EINDHOVEN").
Proof.
  apply (normalize_team_name_ignores_case plain_library);
    vm_compute; reflexivity.
Defined.

(** ** The shape of a normalized name *)

Lemma lstrip_suffix (s : pystr) :
  exists sp, s = sp ++ lstrip s /\ forallb is_space sp = true.
Proof.
  induction s as [|c s IH]; [now exists []|].
  cbn [lstrip]. destruct (is_space c) eqn:E.
  - destruct IH as (sp & Heq & Hsp). exists (c :: sp). split.
    + cbn [app]. now rewrite <- Heq.
    + cbn [forallb]. now rewrite E, Hsp.
  - now exists [].
Qed.

Lemma rstrip_prefix (s : pystr) :
  exists sp, s = rstrip s ++ sp /\ forallb is_space sp = true.
Proof.
  destruct (lstrip_suffix (rev s)) as (sp & Heq & Hsp).
  exists (rev sp). split.
  - unfold rstrip. rewrite <- rev_app_distr, <- Heq. symmetry. apply rev_involutive.
  - rewrite forallb_forall in Hsp |- *. intros c Hc. apply Hsp.
    now apply in_rev.
Qed.

Lemma lstrip_starts_clean (s : pystr) : starts_clean (lstrip s) = true.
Proof.
  induction s as [|c s IH]; [reflexivity|].
  cbn [lstrip]. destruct (is_space c) eqn:E; [exact IH|].
  cbn [starts_clean]. now rewrite E.
Qed.

Lemma lstrip_fixed (s : pystr) : starts_clean s = true -> lstrip s = s.
Proof.
  destruct s as [|c s]; [reflexivity|]. cbn [starts_clean lstrip].
  now destruct (is_space c).
Qed.

Lemma rstrip_fixed (s : pystr) : starts_clean (rev s) = true -> rstrip s = s.
Proof.
  intros H. unfold rstrip. rewrite (lstrip_fixed _ H). apply rev_involutive.
Qed.

Lemma rstrip_ends_clean (s : pystr) : starts_clean (rev (rstrip s)) = true.
Proof. unfold rstrip. rewrite rev_involutive. apply lstrip_starts_clean. Qed.

Lemma rstrip_keeps_start (s : pystr) :
  starts_clean s = true -> starts_clean (rstrip s) = true.
Proof.
  intros H. destruct (rstrip_prefix s) as (sp & Heq & _).
  destruct (rstrip s) as [|c p]; [reflexivity|].
  rewrite Heq in H. exact H.
Qed.

Lemma strip_clean (s : pystr) :
  starts_clean (strip s) = true /\ starts_clean (rev (strip s)) = true.
Proof.
  unfold strip. split.
  - apply rstrip_keeps_start, lstrip_starts_clean.
  - apply rstrip_ends_clean.
Qed.

Lemma strip_fixed (s : pystr) :
  starts_clean s = true -> starts_clean (rev s) = true -> strip s = s.
Proof.
  intros H1 H2. unfold strip. rewrite (lstrip_fixed _ H1). now apply rstrip_fixed.
Qed.

Lemma lstrip_Forall (P : N -> Prop) (s : pystr) :
  Forall P s -> Forall P (lstrip s).
Proof.
  induction 1 as [|c s Hc Hs IH]; [constructor|].
  cbn [lstrip]. destruct (is_space c); [exact IH|now constructor].
Qed.

Lemma strip_Forall (P : N -> Prop) (s : pystr) :
  Forall P s -> Forall P (strip s).
Proof.
  intros H. unfold strip, rstrip.
  apply Forall_rev, lstrip_Forall, Forall_rev, lstrip_Forall, H.
Qed.

Lemma sub_separators_Forall (P : N -> Prop) (s : pystr) :
  P 32%N -> Forall P s -> Forall P (sub_separators s).
Proof.
  intros H32. induction 1 as [|c s Hc Hs IH]; [constructor|].
  cbn [sub_separators map]. constructor; [|exact IH].
  now destruct (is_separator c).
Qed.

Lemma collapse_ws_Forall (P : N -> Prop) (s : pystr) :
  P 32%N -> Forall P s -> forall b, Forall P (collapse_ws b s).
Proof.
  intros H32. induction 1 as [|c s Hc Hs IH]; intros b; [constructor|].
  cbn [collapse_ws]. destruct (is_space c).
  - destruct b; [apply IH|constructor; [exact H32|apply IH]].
  - constructor; [exact Hc|apply IH].
Qed.

Lemma sub_separators_no_separator (s : pystr) :
  Forall (fun c => is_separator c = false) (sub_separators s).
Proof.
  induction s as [|c s IH]; [constructor|].
  cbn [sub_separators map]. constructor; [|exact IH].
  destruct (is_separator c) eqn:E; [reflexivity|exact E].
Qed.

Lemma collapse_ws_plain (s : pystr) :
  Forall (fun c => is_separator c = false) s ->
  forall b, Forall (fun c => plain_char c = true) (collapse_ws b s).
Proof.
  induction 1 as [|c s Hc Hs IH]; intros b; [constructor|].
  cbn [collapse_ws]. destruct (is_space c) eqn:E.
  - destruct b; [apply IH|constructor; [reflexivity|apply IH]].
  - constructor; [|apply IH]. unfold plain_char. now rewrite Hc, E.
Qed.

Lemma collapse_ws_single (s : pystr) :
  forall b, single_spaced b (collapse_ws b s) = true.
Proof.
  induction s as [|c s IH]; intros b; [reflexivity|].
  cbn [collapse_ws]. destruct (is_space c) eqn:E.
  - destruct b; [apply IH|]. cbn [single_spaced].
    change (is_space 32) with true. cbn [negb andb]. apply IH.
  - cbn [single_spaced]. rewrite E. apply IH.
Qed.

Lemma single_spaced_weaken (s : pystr) (b : bool) :
  single_spaced b s = true -> single_spaced false s = true.
Proof.
  destruct s as [|c s]; [reflexivity|]. cbn [single_spaced].
  destruct (is_space c); [|tauto].
  intros H. apply andb_true_iff in H. now destruct H as [_ ->].
Qed.

Lemma single_spaced_lstrip (s : pystr) :
  forall b, single_spaced b s = true -> single_spaced false (lstrip s) = true.
Proof.
  induction s as [|c s IH]; intros b H; [reflexivity|].
  cbn [lstrip]. destruct (is_space c) eqn:E.
  - cbn [single_spaced] in H. rewrite E in H.
    apply andb_true_iff in H. destruct H as [_ H]. now apply (IH true).
  - now apply (single_spaced_weaken _ b).
Qed.

Lemma single_spaced_prefix (p t : pystr) :
  forall b, single_spaced b (p ++ t) = true -> single_spaced b p = true.
Proof.
  induction p as [|c p IH]; intros b H; [reflexivity|].
  cbn [app single_spaced] in H |- *. destruct (is_space c).
  - apply andb_true_iff in H. destruct H as [-> H]. now apply IH.
  - now apply IH.
Qed.

Lemma single_spaced_rstrip (s : pystr) (b : bool) :
  single_spaced b s = true -> single_spaced b (rstrip s) = true.
Proof.
  intros H. destruct (rstrip_prefix s) as (sp & Heq & _).
  rewrite Heq in H. now apply single_spaced_prefix in H.
Qed.

Lemma collapse_ws_fixed (s : pystr) :
  Forall (fun c => plain_char c = true) s ->
  forall b, single_spaced b s = true -> collapse_ws b s = s.
Proof.
  induction 1 as [|c s Hc Hs IH]; intros b H; [reflexivity|].
  cbn [collapse_ws single_spaced] in H |- *. unfold plain_char in Hc.
  destruct (is_space c) eqn:E.
  - apply andb_true_iff in H. destruct H as [Hb H].
    apply negb_true_iff in Hb. subst b.
    apply andb_true_iff in Hc. destruct Hc as [_ Hc]. cbn [negb orb] in Hc.
    apply N.eqb_eq in Hc. subst c. now rewrite (IH true H).
  - now rewrite (IH false H).
Qed.

Lemma tidy_alias_values :
  forallb (fun kv => tidy (u (snd kv))) TEAM_ALIASES = true.
Proof. vm_compute. reflexivity. Qed.

Lemma basic_normalize_shape (lib : Library) (name : pystr) :
  Forall (fun c => plain_char c = true) (basic_normalize lib name) /\
  single_spaced false (basic_normalize lib name) = true /\
  starts_clean (basic_normalize lib name) = true /\
  starts_clean (rev (basic_normalize lib name)) = true.
Proof.
  unfold basic_normalize. cbv zeta.
  set (x := sub_separators _).
  split; [|split; [|apply strip_clean]].
  - apply strip_Forall, collapse_ws_plain, sub_separators_no_separator.
  - unfold strip. apply single_spaced_rstrip.
    apply (single_spaced_lstrip _ false), collapse_ws_single.
Qed.

Lemma basic_normalize_tidy (lib : Library) (name : pystr) :
  tidy (basic_normalize lib name) = true.
Proof.
  destruct (basic_normalize_shape lib name) as (H1 & H2 & H3 & H4).
  assert (H0 : forallb plain_char (basic_normalize lib name) = true).
  { apply forallb_forall. intros c Hc. rewrite Forall_forall in H1.
    now apply H1. }
  unfold tidy. now rewrite H0, H2, H3, H4.
Qed.

(** X20.  Whatever the name and the Unicode tables, the normalized name holds
    none of the separator characters, no whitespace but single plain
    spaces, and none at its start or end. *)
Theorem normalize_team_name_tidy (lib : Library) (name : pystr) :
  tidy (normalize_team_name lib name) = true.
Proof.
  destruct name as [|c name]; [reflexivity|].
  destruct (normalize_team_name_cases lib (c :: name)) as [-> | (k & w & Hin & ->)];
    [discriminate|apply basic_normalize_tidy|].
  pose proof tidy_alias_values as H. rewrite forallb_forall in H.
  exact (H (k, w) Hin).
Qed.

(** ** Normalizing twice *)

Lemma ascii_lower_idempotent (c : N) : ascii_lower (ascii_lower c) = ascii_lower c.
Proof.
  unfold ascii_lower, in_range.
  destruct ((65 <=? c)%N && (c <=? 90)%N) eqn:E; [|now rewrite E].
  apply andb_true_iff in E. destruct E as [E1 E2].
  apply N.leb_le in E1, E2.
  replace ((c + 32 <=? 90)%N) with false by (symmetry; apply N.leb_gt; lia).
  now rewrite andb_false_r.
Qed.

Lemma ascii_lower_ascii (c : N) : is_ascii c = true -> is_ascii (ascii_lower c) = true.
Proof.
  unfold ascii_lower, in_range, is_ascii. intros H. apply N.ltb_lt in H.
  destruct ((65 <=? c)%N && (c <=? 90)%N) eqn:E; [|now apply N.ltb_lt].
  apply andb_true_iff in E. destruct E as [_ E2]. apply N.leb_le in E2.
  apply N.ltb_lt. lia.
Qed.

Lemma settled_space : settled 32%N.
Proof. split; reflexivity. Qed.

Lemma strip_accents_ascii (lib : Library) (s : pystr) :
  Forall (fun c => is_ascii c = true) s -> strip_accents lib s = s.
Proof.
  intros H. unfold strip_accents, nfd.
  assert (Ha : forallb is_ascii s = true)
    by (apply forallb_forall; now apply Forall_forall).
  rewrite Ha. induction H as [|c s Hc Hs IH]; [reflexivity|].
  cbn [filter]. unfold is_Mn at 1. rewrite Hc. cbn [negb]. f_equal.
  apply IH. cbn [forallb] in Ha. apply andb_true_iff in Ha. apply Ha.
Qed.

Lemma sub_separators_fixed (s : pystr) :
  Forall (fun c => plain_char c = true) s -> sub_separators s = s.
Proof.
  induction 1 as [|c s Hc Hs IH]; [reflexivity|].
  cbn [sub_separators map]. fold (sub_separators s). rewrite IH.
  unfold plain_char in Hc. apply andb_true_iff in Hc. destruct Hc as [Hc _].
  apply negb_true_iff in Hc. now rewrite Hc.
Qed.

Lemma basic_normalize_settled (lib : Library) (name : pystr) :
  forallb is_ascii name = true ->
  Forall settled (basic_normalize lib name).
Proof.
  intros Ha. rewrite (basic_normalize_ascii lib name Ha).
  assert (H0 : Forall settled (map ascii_lower name)).
  { apply Forall_forall. intros c Hc. apply in_map_iff in Hc.
    destruct Hc as (x & <- & Hx). rewrite forallb_forall in Ha. split.
    - apply ascii_lower_ascii, Ha, Hx.
    - apply ascii_lower_idempotent. }
  assert (H1 : Forall settled (strip (map ascii_lower name)))
    by now apply strip_Forall.
  rewrite strip_accents_ascii.
  - apply strip_Forall, collapse_ws_Forall; [apply settled_space|].
    apply sub_separators_Forall; [apply settled_space|exact H1].
  - eapply Forall_impl; [|exact H1]. now intros c [Hc _].
Qed.

Lemma basic_normalize_fixed (lib : Library) (s : pystr) :
  Forall settled s -> tidy s = true -> basic_normalize lib s = s.
Proof.
  intros Hs Ht. unfold tidy in Ht.
  repeat (apply andb_true_iff in Ht; destruct Ht as [Ht ?]).
  assert (Ha : forallb is_ascii s = true).
  { apply forallb_forall. intros c Hc. rewrite Forall_forall in Hs.
    apply (Hs c Hc). }
  assert (Hp : Forall (fun c => plain_char c = true) s).
  { apply Forall_forall. now apply forallb_forall. }
  rewrite (basic_normalize_ascii lib s Ha).
  assert (Hl : map ascii_lower s = s).
  { clear - Hs. induction Hs as [|c s [_ Hc] _ IH]; [reflexivity|].
    cbn [map]. now rewrite Hc, IH. }
  rewrite Hl, (strip_fixed s) by assumption.
  rewrite strip_accents_ascii
    by (eapply Forall_impl; [|exact Hs]; now intros c [Hc _]).
  rewrite (sub_separators_fixed s Hp), (collapse_ws_fixed s Hp false) by assumption.
  now apply strip_fixed.
Qed.

Lemma normalize_team_name_unmapped (lib : Library) (name : pystr) :
  alias_lookup (basic_normalize lib name) = None ->
  alias_lookup (strip_prefix_token PREFIXES (basic_normalize lib name)) = None ->
  alias_lookup (strip_suffix_token SUFFIXES (basic_normalize lib name)) = None ->
  normalize_team_name lib name = basic_normalize lib name \/ name = [].
Proof.
  intros H1 H2 H3. destruct name as [|c name]; [now right|left].
  unfold normalize_team_name. now rewrite H1, H2, H3.
Qed.

(** X21.  Normalizing an ASCII name a second time changes nothing. *)
Theorem normalize_team_name_idempotent (lib : Library) (name : pystr) :
  forallb is_ascii name = true ->
  normalize_team_name lib (normalize_team_name lib name)
  = normalize_team_name lib name.
Proof.
  intros Ha. destruct name as [|c name]; [reflexivity|].
  set (n := c :: name) in *.
  assert (Hfix : basic_normalize lib (basic_normalize lib n) = basic_normalize lib n).
  { apply basic_normalize_fixed;
      [now apply basic_normalize_settled|apply basic_normalize_tidy]. }
  assert (Hcases :
    (exists k w, In (k, w) TEAM_ALIASES /\ normalize_team_name lib n = u w) \/
    (normalize_team_name lib n = basic_normalize lib n /\
     alias_lookup (basic_normalize lib n) = None /\
     alias_lookup (strip_prefix_token PREFIXES (basic_normalize lib n)) = None /\
     alias_lookup (strip_suffix_token SUFFIXES (basic_normalize lib n)) = None)).
  { unfold normalize_team_name, n.
    repeat match goal with
           | |- context [alias_lookup ?x] =>
               let E := fresh "E" in
               destruct (alias_lookup x) eqn:E;
               [left; apply alias_lookup_value in E;
                destruct E as (k & w & Hin & _ & ->); exists k, w;
                split; [exact Hin|reflexivity]|]
           end.
    right. repeat split; assumption. }
  destruct Hcases as [(k & w & Hin & ->) | (-> & E1 & E2 & E3)].
  - apply (alias_table_closed lib k w Hin).
  - rewrite <- Hfix in E1, E2, E3.
    destruct (normalize_team_name_unmapped lib _ E1 E2 E3) as [H | H].
    + now rewrite H.
    + now rewrite H.
Qed.

Lemma normalize_team_name_idempotent_witness :
  normalize_team_name plain_library
    (normalize_team_name plain_library (u "  Sparta-Rotterdam FC "))
  = normalize_team_name plain_library (u "  Sparta-Rotterdam FC ").
Proof.
  apply (normalize_team_name_idempotent plain_library). reflexivity.
Defined.

End NormalizerExtras.

(* ===================================================================== *)
(** * More on utils/datetime_utils.py *)
(* ===================================================================== *)

Module DatetimeExtras.

Import DatetimeUtils Vocabulary EventMatcherFacts.

Lemma list_ascii_app (a b : string) :
  list_ascii_of_string (a ++ b)%string
  = list_ascii_of_string a ++ list_ascii_of_string b.
Proof. induction a as [|c a IH]; [reflexivity|]. cbn. now rewrite IH. Qed.

Lemma ends_with_Z_app (s : string) : ends_with_Z (s ++ "Z")%string = true.
Proof.
  unfold ends_with_Z. rewrite list_ascii_app, rev_app_distr. reflexivity.
Qed.

Lemma drop_last_app (s : string) : drop_last (s ++ "Z")%string = s.
Proof.
  unfold drop_last. rewrite list_ascii_app.
  change (list_ascii_of_string "Z") with ["Z"%char].
  rewrite removelast_last. apply string_of_list_ascii_of_string.
Qed.

(** X22.  The trailing "Z" is optional: a string that does not end in "Z" parses
    to the same datetime with a "Z" appended, or fails in both forms. *)
Theorem parse_datetime_optional_Z (lib : Library) (s : string) :
  ends_with_Z s = false ->
  parse_datetime lib (s ++ "Z")%string = parse_datetime lib s.
Proof.
  intros H. unfold parse_datetime.
  now rewrite ends_with_Z_app, drop_last_app, H.
Qed.

Lemma parse_datetime_optional_Z_witness :
  parse_datetime plain_library ("2025-01-01T12:00:00" ++ "Z")%string
  = parse_datetime plain_library "2025-01-01T12:00:00".
Proof.
  apply (parse_datetime_optional_Z plain_library "2025-01-01T12:00:00").
  reflexivity.
Defined.

Lemma Qabs_total_seconds (d : Z) :
  Qabs (total_seconds d) = total_seconds (Z.abs d).
Proof. reflexivity. Qed.

(** X23.  [within_time_window] does not depend on the order of the two datetimes,
    and holds exactly when they are at most [minutes] minutes apart, the
    bound included. *)
Theorem within_time_window_symmetric_inclusive (dt1 dt2 : datetime) (minutes : Z) :
  within_time_window dt1 dt2 minutes = within_time_window dt2 dt1 minutes /\
  (within_time_window dt1 dt2 minutes = true <->
   (Z.abs (dt2 - dt1) <= minutes * 60 * 1000000)%Z).
Proof.
  assert (Hiff : forall a b,
             within_time_window a b minutes = true <->
             (Z.abs (a - b) <= minutes * 60 * 1000000)%Z).
  { intros a b. unfold within_time_window.
    rewrite Qle_bool_iff, Qabs_total_seconds.
    unfold total_seconds, Qle, inject_Z. cbn [Qnum Qden]. lia. }
  split.
  - destruct (within_time_window dt1 dt2 minutes) eqn:E1,
             (within_time_window dt2 dt1 minutes) eqn:E2; try reflexivity.
    + apply Hiff in E1. assert (E : within_time_window dt2 dt1 minutes = true)
        by (apply Hiff; lia). congruence.
    + apply Hiff in E2. assert (E : within_time_window dt1 dt2 minutes = true)
        by (apply Hiff; lia). congruence.
  - rewrite Hiff. lia.
Qed.

End DatetimeExtras.

(* ===================================================================== *)
(** * Properties of core/models.py *)
(* ===================================================================== *)

Module ModelsExtras.

Import ValueAnalyzer Models.
Local Open Scope R_scope.

(** X24.  [calculate_clv] never divides by zero; for positive closing odds it is
    the edge of the odds taken at the probability the closing odds imply,
    positive exactly when the odds taken beat the closing odds. *)
Theorem calculate_clv_beats_closing (odds_taken : R) (closing_odds : pyval) :
  (exists v, calculate_clv odds_taken closing_odds = Ok v) /\
  (calculate_clv odds_taken closing_odds = Ok None <->
   closing_odds = VNone \/ closing_odds = VFloat 0) /\
  (forall c, closing_odds = VFloat c -> 0 < c ->
     calculate_clv odds_taken closing_odds
     = Ok (Some (calculate_edge (1 / c) odds_taken)) /\
     (0 < calculate_edge (1 / c) odds_taken <-> c < odds_taken)).
Proof.
  split; [|split].
  - destruct closing_odds as [c|]; cbn [calculate_clv]; [|now eexists].
    destruct (Req_dec_T c 0); [now eexists|].
    unfold float_div. destruct (Req_dec_T c 0); [contradiction|].
    cbn [bind]. now eexists.
  - destruct closing_odds as [c|]; cbn [calculate_clv]; [|tauto].
    destruct (Req_dec_T c 0) as [->|Hc].
    + split; [now right|reflexivity].
    + unfold float_div. destruct (Req_dec_T c 0); [contradiction|].
      cbn [bind]. split; [discriminate|].
      intros [H|H]; [discriminate|]. injection H as ->. contradiction.
  - intros c -> Hc. cbn [calculate_clv].
    destruct (Req_dec_T c 0) as [->|Hne]; [lra|].
    unfold float_div. destruct (Req_dec_T c 0); [contradiction|].
    cbn [bind]. unfold calculate_edge. split.
    + do 2 f_equal. field. exact Hne.
    + replace (1 / c * odds_taken - 1) with ((odds_taken - c) / c) by (field; exact Hne).
      split.
      * intros H. apply Rmult_lt_compat_r with (r := c) in H; [|exact Hc].
        replace ((odds_taken - c) / c * c) with (odds_taken - c) in H
          by (field; exact Hne).
        lra.
      * intros H. apply Rdiv_lt_0_compat; lra.
Qed.

End ModelsExtras.

(* ===================================================================== *)
(** * Properties of mm/date.py *)
(* ===================================================================== *)

Module DateExtras.

Import DatetimeUtils MmDate.
Local Open Scope Z_scope.

Lemma h_range (day month year : Z) : 0 <= h day month year < 7.
Proof.
  unfold h. destruct (month <=? 2); apply Z.mod_pos_bound; lia.
Qed.

Lemma h_counts_days (day month year : Z) :
  1 <= month <= 12 ->
  h day month year = (days_before year month day + 2) mod 7.
Proof.
  intros Hm.
  assert (Hcases : month = 1 \/ month = 2 \/ month = 3 \/ month = 4 \/
                   month = 5 \/ month = 6 \/ month = 7 \/ month = 8 \/
                   month = 9 \/ month = 10 \/ month = 11 \/ month = 12) by lia.
  unfold h, days_before.
  repeat (destruct Hcases as [->|Hcases]); try subst month;
    cbn [Z.leb Z.compare Pos.compare Pos.compare_cont];
    cbv zeta;
    Z.to_euclidean_division_equations; lia.
Qed.


Lemma list_index_days (i : Z) :
  0 <= i < 7 -> list_index days i = nth_error days (Z.to_nat i).
Proof.
  intros Hi. unfold list_index. change (Z.of_nat (List.length days)) with 7.
  destruct (Z.leb_spec 0 i); [|lia]. destruct (Z.ltb_spec i 7); [|lia].
  reflexivity.
Qed.

(** X25.  For every triple of integers, also one that is no date, [dag_vd_week]
    returns one of the seven names: the index never leaves the list. *)
Theorem dag_vd_week_names_a_day (day month year : Z) :
  exists name, dag_vd_week day month year = Some name /\ In name days.
Proof.
  unfold dag_vd_week. pose proof (h_range day month year) as Hr.
  rewrite (list_index_days _ Hr).
  destruct (nth_error days (Z.to_nat (h day month year))) as [name|] eqn:E.
  - exists name. split; [reflexivity|]. exact (nth_error_In _ _ E).
  - exfalso. apply nth_error_None in E. cbn [List.length days] in E. lia.
Qed.

(** X26.  For a month from 1 to 12, the name returned is the one that follows
    the count of days of the proleptic Gregorian calendar, the calendar of
    [datetime]: 0001-01-01 is a Monday, and each later day moves one name
    on. *)
Theorem dag_vd_week_follows_calendar (day month year : Z) :
  1 <= month <= 12 ->
  dag_vd_week day month year
  = nth_error days (Z.to_nat ((days_before year month day + 2) mod 7)).
Proof.
  intros Hm. unfold dag_vd_week.
  rewrite (list_index_days _ (h_range day month year)).
  now rewrite (h_counts_days day month year Hm).
Qed.

Lemma dag_vd_week_follows_calendar_witness :
  dag_vd_week 1 1 2025
  = nth_error days (Z.to_nat ((days_before 2025 1 1 + 2) mod 7)).
Proof.
  apply (dag_vd_week_follows_calendar 1 1 2025). lia.
Defined.

End DateExtras.
